(** * Corners game: search-engine core

    A shallow embedding of the TypeScript domain layer of the Corners game
    (frontend/src/domain): the board and piece model, move generation,
    jump-path reconstruction, win detection, evaluation, move ordering and
    the negamax search with its transposition table. *)

From Stdlib Require Import ZArith List String Ascii QArith Bool Lia Permutation Relations Sorted.
Import ListNotations.

Open Scope Z_scope.

(* ------------------------------------------------------------------ *)
(** ** Data model (models/Player.ts, models/Position.ts, models/Board.ts,
       constants/gameConfig.ts) *)

Inductive PlayerType : Set := A | B.

(** [Player = PlayerType | null] *)
Definition Player : Set := option PlayerType.

Definition PlayerType_eqb (x y : PlayerType) : bool :=
  match x, y with A, A | B, B => true | _, _ => false end.

Record Position : Set := mkPos { row : Z; col : Z }.

Record PieceWithId : Set := mkPiece {
  id : string;
  player : PlayerType;
  prow : Z;
  pcol : Z
}.

(** [PieceWithId extends Position]: a piece is used where a position is expected. *)
Definition piecePos (p : PieceWithId) : Position := mkPos (prow p) (pcol p).

(** [Board = Player[][]] *)
Definition Board : Set := list (list Player).

Record CornerShape : Set := mkCorner { crows : Z; ccols : Z }.

Definition boardSize : Z := 8.

(** [DIRECTION_ARRAY = Object.values(DIRECTIONS)]: up, down, left, right. *)
Definition DIRECTION_ARRAY : list (Z * Z) := [(-1, 0); (1, 0); (0, -1); (0, 1)].

(** JavaScript array read [a[i]]: [undefined] for negative or too large [i]. *)
Definition zget {T : Type} (l : list T) (i : Z) : option T :=
  if i <? 0 then None else nth_error l (Z.to_nat i).

(** [isValidPosition(row, col)] *)
Definition isValidPosition (r c : Z) : bool :=
  (0 <=? r) && (r <? boardSize) && (0 <=? c) && (c <? boardSize).

(** [board[row]?.[col]]: [None] stands for [undefined]. *)
Definition cellAt (board : Board) (r c : Z) : option Player :=
  match zget board r with
  | Some rw => zget rw c
  | None => None
  end.

(** [isCellEmpty(board, row, col) = board[row]?.[col] === null]: an
    undefined cell is not empty. *)
Definition isCellEmpty (board : Board) (r c : Z) : bool :=
  match cellAt board r c with Some None => true | _ => false end.

(** [positionsEqual]; the visited sets of the searches are keyed by
    [positionToKey(p) = `${row},${col}`], which is injective on integer
    coordinates, so a visited set is modelled as a list of positions. *)
Definition posEqb (a b : Position) : bool := (row a =? row b) && (col a =? col b).

Definition mem (p : Position) (l : list Position) : bool := existsb (posEqb p) l.

(** [isAdjacentMove(from, to)] *)
Definition isAdjacentMove (from to : Position) : bool :=
  let rd := Z.abs (row from - row to) in
  let cd := Z.abs (col from - col to) in
  ((rd =? 1) && (cd =? 0)) || ((rd =? 0) && (cd =? 1)).

(* ------------------------------------------------------------------ *)
(** ** Move generator (utils/moveValidation.ts: getValidMoves) *)

(** The jump test shared by [findJumpMoves] and [searchJumpPath]:
    landing cell and middle cell on the board, middle occupied, landing empty. *)
Definition jumpOK (board : Board) (from : Position) (d : Z * Z) : bool :=
  let '(dr, dc) := d in
  isValidPosition (row from + dr * 2) (col from + dc * 2) &&
  isValidPosition (row from + dr) (col from + dc) &&
  negb (isCellEmpty board (row from + dr) (col from + dc)) &&
  isCellEmpty board (row from + dr * 2) (col from + dc * 2).

Definition jumpTarget (from : Position) (d : Z * Z) : Position :=
  mkPos (row from + fst d * 2) (col from + snd d * 2).

(** [addAdjacentMoves]: the state is the pair (moves, visited). *)
Fixpoint addAdjacentLoop (board : Board) (p : Position) (ds : list (Z * Z))
    (st : list Position * list Position) : list Position * list Position :=
  match ds with
  | [] => st
  | (dr, dc) :: ds' =>
      let '(moves, visited) := st in
      let np := mkPos (row p + dr) (col p + dc) in
      let st' :=
        if isValidPosition (row np) (col np) && isCellEmpty board (row np) (col np)
        then if mem np visited then st else (moves ++ [np], np :: visited)
        else st in
      addAdjacentLoop board p ds' st'
  end.

Definition addAdjacentMoves (board : Board) (p : Position)
    (st : list Position * list Position) : list Position * list Position :=
  addAdjacentLoop board p DIRECTION_ARRAY st.

(** Room for the recursion of the depth-first searches: every nested call
    enters a new on-board cell, and there are 64 of them (see
    [count_visited] below, which shows the fuel is never exhausted). *)
Definition SEARCH_FUEL : nat := 65.

(** The loop of [findJumpMoves] over [DIRECTION_ARRAY]; [rec] is the
    recursive call [findJumpMoves(board, jumpTarget, moves, visited)]. *)
Fixpoint jumpMovesLoop (rec : Position -> list Position * list Position -> list Position * list Position)
    (board : Board) (from : Position) (ds : list (Z * Z))
    (st : list Position * list Position) : list Position * list Position :=
  match ds with
  | [] => st
  | d :: ds' =>
      let '(moves, visited) := st in
      let jt := jumpTarget from d in
      let st' :=
        if jumpOK board from d then
          if mem jt visited then st
          else rec jt (moves ++ [jt], jt :: visited)
        else st in
      jumpMovesLoop rec board from ds' st'
  end.

(** [findJumpMoves]: depth-first search over jump chains. *)
Fixpoint findJumpMoves (fuel : nat) (board : Board) (from : Position)
    (st : list Position * list Position) {struct fuel} : list Position * list Position :=
  match fuel with
  | O => st
  | S f => jumpMovesLoop (findJumpMoves f board) board from DIRECTION_ARRAY st
  end.

(** [getValidMoves(board, position)] *)
Definition getValidMoves (board : Board) (p : Position) : list Position :=
  fst (findJumpMoves SEARCH_FUEL board p (addAdjacentMoves board p ([], []))).

(* ------------------------------------------------------------------ *)
(** ** Path reconstructor (utils/pathFinding.ts: findJumpPath, as listed in
       frontend/ARCHITECTURE.md) *)

(** The loop of [searchJumpPath] over [DIRECTION_ARRAY]; [rec] is the
    recursive call [searchJumpPath(board, jumpPosition, target, path, visited)]. *)
Fixpoint searchLoop
    (rec : Position -> list Position -> list Position -> bool * list Position * list Position)
    (board : Board) (current : Position) (ds : list (Z * Z))
    (path visited : list Position) : bool * list Position * list Position :=
  match ds with
  | [] => (false, path, visited)
  | d :: ds' =>
      let jp := jumpTarget current d in
      if jumpOK board current d && negb (mem jp visited) then
        let '(found, path2, visited2) := rec jp (path ++ [jp]) (jp :: visited) in
        if found then (true, path2, visited2)
        else searchLoop rec board current ds' (removelast path2) visited2
      else searchLoop rec board current ds' path visited
  end.

(** [searchJumpPath]: returns (found, path, visited); [path.pop()] on a
    dead end is [removelast]. *)
Fixpoint searchJumpPath (fuel : nat) (board : Board) (current target : Position)
    (path visited : list Position) {struct fuel} : bool * list Position * list Position :=
  if posEqb current target then (true, path, visited) else
  match fuel with
  | O => (false, path, visited)
  | S f =>
      searchLoop (fun jp => searchJumpPath f board jp target) board current
        DIRECTION_ARRAY path visited
  end.

(** [findJumpPath(board, from, to)] *)
Definition findJumpPath (board : Board) (from to : Position) : list Position :=
  if isAdjacentMove from to then [from; to] else
  let '(found, path, _) := searchJumpPath SEARCH_FUEL board from to [from] [from] in
  if found then path else [from; to].

(** The board of the multi-jump example: the mover on (3,3), pieces on
    (3,4) and (3,6). *)
Definition jumpExampleBoard : Board :=
  repeat (repeat None 8) 3 ++
  [repeat None 3 ++ [Some A; Some B; None; Some A; None]] ++
  repeat (repeat None 8) 4.

(* ------------------------------------------------------------------ *)
(** ** Vocabulary of the move-generation properties *)

(** One jump of a chain: from [p] over an occupied cell onto the empty [q]. *)
Definition jumpEdge (board : Board) (p q : Position) : Prop :=
  exists d, In d DIRECTION_ARRAY /\ jumpOK board p d = true /\ q = jumpTarget p d.

(** A legal leg of a move: an orthogonal step onto an empty cell, or a single
    orthogonal jump over an occupied cell onto an empty cell. *)
Definition validStep (board : Board) (p q : Position) : bool :=
  (isAdjacentMove p q && isValidPosition (row q) (col q) && isCellEmpty board (row q) (col q))
  || existsb (fun d => jumpOK board p d && posEqb (jumpTarget p d) q) DIRECTION_ARRAY.

Fixpoint validChain (board : Board) (l : list Position) : bool :=
  match l with
  | p :: ((q :: _) as t) => validStep board p q && validChain board t
  | _ => true
  end.

(** The 64 cells of the board, and how many of them a visited set holds. *)
Definition cells : list Position :=
  flat_map (fun r => map (fun c => mkPos (Z.of_nat r) (Z.of_nat c)) (seq 0 8)) (seq 0 8).

Definition countVisited (v : list Position) : nat :=
  List.length (filter (fun p => mem p v) cells).

(* ------------------------------------------------------------------ *)
(** ** Win detector (utils/winCondition.ts) *)

(** [for (let i = lo; i < hi; i++)] *)
Definition zrange (lo hi : Z) : list Z :=
  map (fun k => lo + Z.of_nat k) (seq 0 (Z.to_nat (hi - lo))).

(** [getTargetCorner]: (startRow, endRow, startCol, endCol), ends exclusive. *)
Definition getTargetCorner (pl : PlayerType) (corner : CornerShape) : Z * Z * Z * Z :=
  match pl with
  | A => (boardSize - crows corner, boardSize, boardSize - ccols corner, boardSize)
  | B => (0, crows corner, 0, ccols corner)
  end.

Definition piecesOf (pieces : list PieceWithId) (pl : PlayerType) : list PieceWithId :=
  filter (fun p => PlayerType_eqb (player p) pl) pieces.

(** [isPlayerInOpponentCorner]: the nested loops return [false] at the first
    target cell holding none of the player's pieces. *)
Definition isPlayerInOpponentCorner (pieces : list PieceWithId) (pl : PlayerType)
    (corner : CornerShape) : bool :=
  let '(sr, er, sc, ec) := getTargetCorner pl corner in
  let playerPieces := piecesOf pieces pl in
  forallb (fun r =>
    forallb (fun c =>
      existsb (fun piece => (prow piece =? r) && (pcol piece =? c)) playerPieces)
      (zrange sc ec))
    (zrange sr er).

Definition hasPlayerWon (pieces : list PieceWithId) (pl : PlayerType)
    (corner : CornerShape) : bool :=
  isPlayerInOpponentCorner pieces pl corner.

(** The goal rectangle in the words of the specification. *)
Definition inGoalRect (pl : PlayerType) (corner : CornerShape) (r c : Z) : Prop :=
  match pl with
  | A => boardSize - crows corner <= r <= boardSize - 1 /\
         boardSize - ccols corner <= c <= boardSize - 1
  | B => 0 <= r <= crows corner - 1 /\ 0 <= c <= ccols corner - 1
  end.

(** Player A's nine pieces on rows 5-7 x cols 5-7 (ids as in the tests). *)
Definition nineA : list PieceWithId :=
  [mkPiece "A-1" A 5 5; mkPiece "A-2" A 5 6; mkPiece "A-3" A 5 7;
   mkPiece "A-4" A 6 5; mkPiece "A-5" A 6 6; mkPiece "A-6" A 6 7;
   mkPiece "A-7" A 7 5; mkPiece "A-8" A 7 6; mkPiece "A-9" A 7 7].

(* ------------------------------------------------------------------ *)
(** ** Board construction (utils/boardUtils.ts) *)

(** Template literals [`${n}`] of an integer: decimal, with a leading '-'. *)
Fixpoint digitsAux (fuel : nat) (n : Z) (acc : string) : string :=
  match fuel with
  | O => acc
  | S f =>
      let acc' := String (ascii_of_nat (48 + Z.to_nat (n mod 10))) acc in
      if n <? 10 then acc' else digitsAux f (n / 10) acc'
  end.

Definition zToString (n : Z) : string :=
  if n <? 0 then ("-" ++ digitsAux (S (Z.to_nat (Z.log2 (- n)))) (- n) "")%string
  else digitsAux (S (Z.to_nat (Z.log2 n))) n "".

Definition playerToString (pl : PlayerType) : string :=
  match pl with A => "A" | B => "B" end.

Record GameError : Set := mkGameError { message : string }.

(** A call that returns a value or throws a [GameError]. *)
Inductive Result (T : Type) : Type :=
| Ok (x : T)
| Err (e : GameError).
Arguments Ok {T} x.
Arguments Err {T} e.

(** [createEmptyBoard()]: boardSize rows of boardSize nulls. *)
Definition createEmptyBoard : Board :=
  repeat (repeat None (Z.to_nat boardSize)) (Z.to_nat boardSize).

(** Array element assignment [a[i] = x] at an index inside the array. *)
Fixpoint listSet {T : Type} (l : list T) (i : nat) (x : T) : list T :=
  match l, i with
  | [], _ => []
  | _ :: t, O => x :: t
  | y :: t, S j => y :: listSet t j x
  end.

(** [board[row][col] = v], at a position [isValidPosition] accepted. *)
Definition setCell (board : Board) (r c : Z) (v : Player) : Board :=
  listSet board (Z.to_nat r) (listSet (nth (Z.to_nat r) board []) (Z.to_nat c) v).

Definition invalidPositionMsg (p : PieceWithId) : string :=
  ("Invalid piece position: [" ++ zToString (prow p) ++ ", " ++ zToString (pcol p) ++ "]")%string.

Definition occupiedMsg (p : PieceWithId) : string :=
  ("Cell [" ++ zToString (prow p) ++ ", " ++ zToString (pcol p) ++ "] is already occupied")%string.

(** The loop of [getBoardFromPieces]. *)
Fixpoint placePieces (board : Board) (pieces : list PieceWithId) : Result Board :=
  match pieces with
  | [] => Ok board
  | p :: ps =>
      if negb (isValidPosition (prow p) (pcol p)) then Err (mkGameError (invalidPositionMsg p))
      else if negb (isCellEmpty board (prow p) (pcol p)) then Err (mkGameError (occupiedMsg p))
      else placePieces (setCell board (prow p) (pcol p) (Some (player p))) ps
  end.

(** [getBoardFromPieces(pieces)] *)
Definition getBoardFromPieces (pieces : list PieceWithId) : Result Board :=
  placePieces createEmptyBoard pieces.

(** [createBoardFromPieces = getBoardFromPieces] *)
Definition createBoardFromPieces : list PieceWithId -> Result Board := getBoardFromPieces.

Definition cellOf (p : PieceWithId) : Z * Z := (prow p, pcol p).

(** The owner of the (first) piece standing on a cell, if any. *)
Definition ownerAt (pieces : list PieceWithId) (r c : Z) : Player :=
  match find (fun p => (prow p =? r) && (pcol p =? c)) pieces with
  | Some p => Some (player p)
  | None => None
  end.

(* ------------------------------------------------------------------ *)
(** ** Transposition-table key (ai/AIPlayer.ts: TranspositionTable.getKey) *)

(** [Array.prototype.sort()] without a comparator orders strings by code
    units; on ASCII strings that is [String.leb]. The sorted result does not
    depend on the sorting algorithm, so insertion sort stands for it. *)
Fixpoint insertStr (x : string) (l : list string) : list string :=
  match l with
  | [] => [x]
  | y :: t => if String.leb x y then x :: y :: t else y :: insertStr x t
  end.

Fixpoint sortStrings (l : list string) : list string :=
  match l with
  | [] => []
  | x :: t => insertStr x (sortStrings t)
  end.

(** [Array.prototype.join(sep)] *)
Fixpoint joinStrings (sep : string) (l : list string) : string :=
  match l with
  | [] => ""
  | [x] => x
  | x :: t => (x ++ sep ++ joinStrings sep t)%string
  end.

(** [`${p.player}${p.row}${p.col}`] *)
Definition pieceKey (p : PieceWithId) : string :=
  (playerToString (player p) ++ zToString (prow p) ++ zToString (pcol p))%string.

(** [getKey(pieces)] *)
Definition getKey (pieces : list PieceWithId) : string :=
  joinStrings "|" (sortStrings (map pieceKey pieces)).

(** The (owner, row, col) triple of a piece. *)
Definition pieceTriple (p : PieceWithId) : PlayerType * Z * Z := (player p, prow p, pcol p).

(* ------------------------------------------------------------------ *)
(** * Evaluator (the evaluation part of ai/moveOrdering.ts)

    Scores are JS numbers; they are taken here as exact rationals [Q]. The
    only non-integer operations are the division of the goal distance and
    the weights 0.5. *)

Definition opponentOf (pl : PlayerType) : PlayerType :=
  match pl with A => B | B => A end.

Definition manhattanDistance (x1 y1 x2 y2 : Z) : Z := Z.abs (x1 - x2) + Z.abs (y1 - y2).

(** [getGoalCornerPositions(player)]: the fixed 3x3 block (boardUtils). *)
Definition getGoalCornerPositions (pl : PlayerType) : list Position :=
  match pl with
  | A => flat_map (fun r => map (fun c => mkPos r c) (zrange (boardSize - 3) boardSize))
                  (zrange (boardSize - 3) boardSize)
  | B => flat_map (fun r => map (fun c => mkPos r c) (zrange 0 3)) (zrange 0 3)
  end.

(** [Math.min(...xs)]; the evaluator only calls it on the nine goal cells. *)
Definition mathMin (xs : list Z) : Z :=
  match xs with [] => 0 | x :: t => fold_left Z.min t x end.

Definition minGoalDistance (p : PieceWithId) (goals : list Position) : Z :=
  mathMin (map (fun g => manhattanDistance (prow p) (pcol p) (row g) (col g)) goals).

Definition evaluateGoalDistance (pieces : list PieceWithId) (pl : PlayerType) : Q :=
  let playerPieces := piecesOf pieces pl in
  let goalPositions := getGoalCornerPositions pl in
  if Nat.eqb (List.length playerPieces) 0 then 0
  else
    let totalDistance :=
      fold_left (fun acc p => acc + minGoalDistance p goalPositions) playerPieces 0 in
    - inject_Z totalDistance / inject_Z (Z.of_nat (List.length playerPieces)).

Definition evaluateAdvancement (pieces : list PieceWithId) (pl : PlayerType) : Z :=
  fold_left (fun acc p =>
    match pl with
    | A => acc + (prow p + pcol p)
    | B => acc + ((boardSize - 1 - prow p) + (boardSize - 1 - pcol p))
    end) (piecesOf pieces pl) 0.

Definition evaluatePiecesInGoal (pieces : list PieceWithId) (pl : PlayerType) : Z :=
  let goalPositions := getGoalCornerPositions pl in
  let piecesInGoal :=
    fold_left (fun acc p =>
      if existsb (fun g => (row g =? prow p) && (col g =? pcol p)) goalPositions
      then acc + 1 else acc) (piecesOf pieces pl) 0 in
  piecesInGoal * piecesInGoal * 100.

Definition evaluateMobility (board : Board) (pieces : list PieceWithId) (pl : PlayerType) : Z :=
  let totalMoves :=
    fold_left (fun acc p => acc + Z.of_nat (List.length (getValidMoves board (piecePos p))))
      (piecesOf pieces pl) 0 in
  totalMoves * 2.

Definition clusterTerm (distance : Z) : Z :=
  if (2 <=? distance) && (distance <=? 4) then 5
  else if 6 <? distance then -3 else 0.

(** The pairs [i < j] of the double loop. *)
Fixpoint clusterPairs (pp : list PieceWithId) : Z :=
  match pp with
  | [] => 0
  | p :: t =>
      fold_left (fun acc q => acc + clusterTerm (manhattanDistance (prow p) (pcol p) (prow q) (pcol q)))
        t 0 + clusterPairs t
  end.

Definition evaluateClustering (pieces : list PieceWithId) (pl : PlayerType) : Z :=
  let playerPieces := piecesOf pieces pl in
  if Nat.leb (List.length playerPieces) 1 then 0 else clusterPairs playerPieces.

Definition evaluateBlocking (pieces : list PieceWithId) (pl : PlayerType) : Z :=
  let opponentGoals := getGoalCornerPositions (opponentOf pl) in
  fold_left (fun acc p =>
    if minGoalDistance p opponentGoals <=? 3 then acc + 10 else acc) (piecesOf pieces pl) 0.

Definition evaluatePosition (board : Board) (pieces : list PieceWithId) (pl : PlayerType) : Q :=
  let opponent := opponentOf pl in
  let playerGoalDistance := evaluateGoalDistance pieces pl in
  let opponentGoalDistance := evaluateGoalDistance pieces opponent in
  let playerAdvancement := inject_Z (evaluateAdvancement pieces pl) in
  let opponentAdvancement := inject_Z (evaluateAdvancement pieces opponent) in
  let playerInGoal := inject_Z (evaluatePiecesInGoal pieces pl) in
  let opponentInGoal := inject_Z (evaluatePiecesInGoal pieces opponent) in
  let playerMobility := inject_Z (evaluateMobility board pieces pl) in
  let opponentMobility := inject_Z (evaluateMobility board pieces opponent) in
  let playerClustering := inject_Z (evaluateClustering pieces pl) in
  let opponentClustering := inject_Z (evaluateClustering pieces opponent) in
  let playerBlocking := inject_Z (evaluateBlocking pieces pl) in
  let opponentBlocking := inject_Z (evaluateBlocking pieces opponent) in
  (playerGoalDistance - opponentGoalDistance) * 10 +
  (playerAdvancement - opponentAdvancement) * 5 +
  (playerInGoal - opponentInGoal) * 1 +
  (playerMobility - opponentMobility) * 1 +
  (playerClustering - opponentClustering) * (1 # 2) +
  (playerBlocking - opponentBlocking) * (1 # 2).

(** [quickEvaluateMove(from, to, player)] *)
Definition quickEvaluateMove (from to : Position) (pl : PlayerType) : Z :=
  let goalRow := match pl with A => boardSize - 1 | B => 0 end in
  let goalCol := match pl with A => boardSize - 1 | B => 0 end in
  let fromDistance := manhattanDistance (row from) (col from) goalRow goalCol in
  let toDistance := manhattanDistance (row to) (col to) goalRow goalCol in
  let improvement := fromDistance - toDistance in
  let moveDistance := manhattanDistance (row from) (col from) (row to) (col to) in
  let jumpBonus := if 1 <? moveDistance then 10 else 0 in
  improvement * 10 + jumpBonus.

(** The goal-distance heuristic as the spec words it: the negative mean, over
    the player's pieces, of the least Manhattan distance to a cell of the
    player's goal rectangle of the configured shape (0 with no pieces). *)
Definition specGoalRect (pl : PlayerType) (corner : CornerShape) : list (Z * Z) :=
  match pl with
  | A => list_prod (zrange (boardSize - crows corner) boardSize)
                   (zrange (boardSize - ccols corner) boardSize)
  | B => list_prod (zrange 0 (crows corner)) (zrange 0 (ccols corner))
  end.

Definition minOf (xs : list Z) : Z :=
  match xs with [] => 0 | x :: t => fold_right Z.min x t end.

Definition specPieceGoalDistance (p : PieceWithId) (pl : PlayerType) (corner : CornerShape) : Z :=
  minOf (map (fun '(r, c) => Z.abs (prow p - r) + Z.abs (pcol p - c)) (specGoalRect pl corner)).

Definition specGoalDistance (pieces : list PieceWithId) (pl : PlayerType) (corner : CornerShape) : Q :=
  let own := filter (fun p => PlayerType_eqb (player p) pl) pieces in
  match own with
  | [] => 0
  | _ => - inject_Z (fold_right Z.add 0 (map (fun p => specPieceGoalDistance p pl corner) own))
         / inject_Z (Z.of_nat (List.length own))
  end.

(* ------------------------------------------------------------------ *)
(** * Move orderer (ai/moveOrdering.ts) *)

Record OrderedMove : Set := mkOrderedMove {
  opiece : PieceWithId;
  oto : Position;
  oscore : Z
}.

(** [orderedMoves.sort((a, b) => b.score - a.score)]: [Array.prototype.sort]
    is stable, so the result is the stable sort by descending score, which
    insertion sort computes. *)
Fixpoint insertByScore (x : OrderedMove) (l : list OrderedMove) : list OrderedMove :=
  match l with
  | [] => [x]
  | y :: t => if oscore x <? oscore y then y :: insertByScore x t else x :: y :: t
  end.

Fixpoint sortByScore (l : list OrderedMove) : list OrderedMove :=
  match l with
  | [] => []
  | x :: t => insertByScore x (sortByScore t)
  end.

Definition getOrderedMoves (board : Board) (pieces : list PieceWithId) (pl : PlayerType)
  : list OrderedMove :=
  let orderedMoves :=
    flat_map (fun piece =>
      map (fun mv =>
        mkOrderedMove piece (mkPos (row mv) (col mv))
          (quickEvaluateMove (mkPos (prow piece) (pcol piece)) (mkPos (row mv) (col mv)) pl))
        (getValidMoves board (piecePos piece)))
      (piecesOf pieces pl) in
  sortByScore orderedMoves.

Definition hasAnyValidMoves (board : Board) (pieces : list PieceWithId) (pl : PlayerType) : bool :=
  existsb (fun piece => Nat.ltb 0 (List.length (getValidMoves board (piecePos piece))))
    (piecesOf pieces pl).

(* ------------------------------------------------------------------ *)
(** * Search (the AIPlayer class of ai/moveOrdering.ts; types of models/AI.ts) *)

Inductive AIDifficulty : Set := Easy | Medium | Hard.

Record AIConfig : Set := mkAIConfig {
  difficulty : AIDifficulty;
  maxDepth : nat;
  maxTime : Z
}.

Record AIMove : Set := mkAIMove {
  mfrom : Position;
  mto : Position;
  mscore : Q
}.

Inductive Flag : Set := Exact | Lowerbound | Upperbound.

Record TranspositionEntry : Set := mkEntry {
  edepth : nat;
  escore : Q;
  eflag : Flag;
  ebestMove : option AIMove
}.

Definition INFINITY : Z := 999999.
Definition WIN_SCORE : Z := 100000.

(** The table's [Map<string, TranspositionEntry>], in insertion order. *)
Definition TTable : Type := list (string * TranspositionEntry).

Definition maxSize : Z := 100000.

Definition mapGet (k : string) (m : TTable) : option TranspositionEntry :=
  match find (fun kv => String.eqb (fst kv) k) m with
  | Some (_, v) => Some v
  | None => None
  end.

(** [Map.prototype.set]: an existing key keeps its place. *)
Definition mapSet (k : string) (v : TranspositionEntry) (m : TTable) : TTable :=
  if existsb (fun kv => String.eqb (fst kv) k) m
  then map (fun kv => if String.eqb (fst kv) k then (k, v) else kv) m
  else m ++ [(k, v)].

Definition mapDelete (k : string) (m : TTable) : TTable :=
  filter (fun kv => negb (String.eqb (fst kv) k)) m.

Definition ttGet (pieces : list PieceWithId) (m : TTable) : option TranspositionEntry :=
  mapGet (getKey pieces) m.

(** [TranspositionTable.set]: when full, the first key is deleted first
    (unless it is the empty string, which is falsy). *)
Definition ttSet (pieces : list PieceWithId) (entry : TranspositionEntry) (m : TTable) : TTable :=
  let m1 :=
    if maxSize <=? Z.of_nat (List.length m) then
      match m with
      | (firstKey, _) :: _ => if String.eqb firstKey "" then m else mapDelete firstKey m
      | [] => m
      end
    else m in
  mapSet (getKey pieces) entry m1.

(** The fields of an [AIPlayer]. [Date.now() - startTime >= timeLimit] is an
    input: the answer to the k-th [isTimeUp] check since [startTime] was set
    is [timeUp k]; [clockChecks] counts the checks. *)
Record AIState : Type := mkAIState {
  config : AIConfig;
  transpositionTable : TTable;
  nodesSearched : Z;
  clockChecks : nat;
  bestMoveFound : option AIMove
}.

(** A state and error monad: a thrown [GameError] leaves the object as it is. *)
Definition M (T : Type) : Type := AIState -> Result T * AIState.

Definition ret {T : Type} (x : T) : M T := fun s => (Ok x, s).

Definition bind {T U : Type} (m : M T) (f : T -> M U) : M U :=
  fun s => match m s with
           | (Ok x, s') => f x s'
           | (Err e, s') => (Err e, s')
           end.

Notation "x <- m ;; k" := (bind m (fun x => k)) (at level 61, m at next level, right associativity).

Definition liftResult {T : Type} (r : Result T) : M T := fun s => (r, s).

Definition gets {T : Type} (f : AIState -> T) : M T := fun s => (Ok (f s), s).

Definition modify (f : AIState -> AIState) : M unit := fun s => (Ok tt, f s).

Definition setTable (m : TTable) (s : AIState) : AIState :=
  mkAIState (config s) m (nodesSearched s) (clockChecks s) (bestMoveFound s).

Definition incNodes (s : AIState) : AIState :=
  mkAIState (config s) (transpositionTable s) (nodesSearched s + 1) (clockChecks s) (bestMoveFound s).

Definition setBestMoveFound (bm : option AIMove) (s : AIState) : AIState :=
  mkAIState (config s) (transpositionTable s) (nodesSearched s) (clockChecks s) bm.

(** [applyMove(pieces, pieceId, to)] *)
Definition applyMove (pieces : list PieceWithId) (pieceId : string) (to : Position)
  : list PieceWithId :=
  map (fun p => if String.eqb (id p) pieceId then mkPiece (id p) (player p) (row to) (col to) else p)
    pieces.

Definition Qlt_bool (a b : Q) : bool := negb (Qle_bool b a).

Definition jsMax (a b : Q) : Q := if Qle_bool a b then b else a.
Definition jsMin (a b : Q) : Q := if Qle_bool a b then a else b.

(** The table probe at the head of [negamax]: [inl score] returns [score],
    [inr (alpha, beta)] goes on with the (possibly narrowed) window. *)
Definition ttProbe (ttEntry : option TranspositionEntry) (depth : nat) (alpha beta : Q)
  : Q + (Q * Q) :=
  match ttEntry with
  | Some e =>
      if Nat.leb depth (edepth e) then
        match eflag e with
        | Exact => inl (escore e)
        | Lowerbound =>
            let alpha' := jsMax alpha (escore e) in
            if Qle_bool beta alpha' then inl (escore e) else inr (alpha', beta)
        | Upperbound =>
            let beta' := jsMin beta (escore e) in
            if Qle_bool beta' alpha then inl (escore e) else inr (alpha, beta')
        end
      else inr (alpha, beta)
  | None => inr (alpha, beta)
  end.

(** The bound type [negamax] stores, from the variables [bestScore],
    [alpha] and [beta] as they stand after the move loop. *)
Definition boundFlag (bestScore alpha beta : Q) : Flag :=
  if Qle_bool bestScore alpha then Upperbound
  else if Qle_bool beta bestScore then Lowerbound
  else Exact.

Section Search.

Variable timeUp : nat -> bool.

Definition isTimeUp : M bool :=
  fun s => (Ok (timeUp (clockChecks s)),
            mkAIState (config s) (transpositionTable s) (nodesSearched s)
              (S (clockChecks s)) (bestMoveFound s)).

(** The move loop of [negamax]; [rec] is the recursive call at [depth - 1]. *)
Fixpoint negamaxLoop (rec : Board -> list PieceWithId -> Q -> Q -> PlayerType -> M Q)
    (pieces : list PieceWithId) (pl : PlayerType) (moves : list OrderedMove)
    (bestScore : Q) (bestMove : option AIMove) (alpha beta : Q)
    : M (Q * option AIMove * Q) :=
  match moves with
  | [] => ret (bestScore, bestMove, alpha)
  | move :: rest =>
      let newPieces := applyMove pieces (id (opiece move)) (oto move) in
      newBoard <- liftResult (createBoardFromPieces newPieces) ;;
      r <- rec newBoard newPieces (Qopp beta) (Qopp alpha) (opponentOf pl) ;;
      let score := Qopp r in
      let '(bestScore', bestMove') :=
        if Qlt_bool bestScore score
        then (score, Some (mkAIMove (mkPos (prow (opiece move)) (pcol (opiece move))) (oto move) score))
        else (bestScore, bestMove) in
      let alpha' := jsMax alpha bestScore' in
      if Qle_bool beta alpha' then ret (bestScore', bestMove', alpha')
      else negamaxLoop rec pieces pl rest bestScore' bestMove' alpha' beta
  end.

Fixpoint negamax (depth : nat) (board : Board) (pieces : list PieceWithId) (alpha beta : Q)
    (pl : PlayerType) (cornerShape : CornerShape) : M Q :=
  _ <- modify incNodes ;;
  n <- gets nodesSearched ;;
  up <- (if n mod 1000 =? 0 then isTimeUp else ret false) ;;
  if up then ret 0%Q else
  ttEntry <- gets (fun s => ttGet pieces (transpositionTable s)) ;;
  match ttProbe ttEntry depth alpha beta with
  | inl score => ret score
  | inr (alpha1, beta1) =>
      if hasPlayerWon pieces pl cornerShape then ret (inject_Z (WIN_SCORE + Z.of_nat depth))
      else if hasPlayerWon pieces (opponentOf pl) cornerShape
      then ret (inject_Z (- WIN_SCORE - Z.of_nat depth))
      else
        match depth with
        | O => ret (evaluatePosition board pieces pl)
        | S d =>
            if negb (hasAnyValidMoves board pieces pl) then ret 0%Q else
            let moves := getOrderedMoves board pieces pl in
            res <- negamaxLoop (fun b p a bt pl' => negamax d b p a bt pl' cornerShape)
                     pieces pl moves (inject_Z (- INFINITY)) None alpha1 beta1 ;;
            let '(bestScore, bestMove, alpha2) := res in
            _ <- modify (fun s => setTable
                   (ttSet pieces (mkEntry depth bestScore (boundFlag bestScore alpha2 beta1) bestMove)
                      (transpositionTable s)) s) ;;
            ret bestScore
        end
  end.

(** The loop over the root moves of [findBestMove] at one depth. *)
Fixpoint rootLoop (depth : nat) (pieces : list PieceWithId) (pl : PlayerType)
    (cornerShape : CornerShape) (moves : list OrderedMove) (bestScore : Q)
    (bestMove : option AIMove) : M (Q * option AIMove) :=
  match moves with
  | [] => ret (bestScore, bestMove)
  | move :: rest =>
      up <- isTimeUp ;;
      if up then ret (bestScore, bestMove) else
      let newPieces := applyMove pieces (id (opiece move)) (oto move) in
      newBoard <- liftResult (createBoardFromPieces newPieces) ;;
      r <- negamax (depth - 1) newBoard newPieces (inject_Z (- INFINITY)) (inject_Z INFINITY)
             (opponentOf pl) cornerShape ;;
      let score := Qopp r in
      let '(bestScore', bestMove') :=
        if Qlt_bool bestScore score
        then (score, Some (mkAIMove (mkPos (prow (opiece move)) (pcol (opiece move))) (oto move) score))
        else (bestScore, bestMove) in
      rootLoop depth pieces pl cornerShape rest bestScore' bestMove'
  end.

(** How the deepening loop ends: by [break] or running out, or by [return null]. *)
Inductive LoopExit : Set := LoopDone | ReturnNull.

(** [for (depth = 1; depth <= maxDepth; depth++)]; [remaining] counts the
    depths left. *)
Fixpoint deepen (remaining depth : nat) (board : Board) (pieces : list PieceWithId)
    (pl : PlayerType) (cornerShape : CornerShape) : M LoopExit :=
  match remaining with
  | O => ret LoopDone
  | S r =>
      up <- isTimeUp ;;
      if up then ret LoopDone else
      let moves := getOrderedMoves board pieces pl in
      match moves with
      | [] => ret ReturnNull
      | _ =>
          res <- rootLoop depth pieces pl cornerShape moves (inject_Z (- INFINITY)) None ;;
          let '(bestScore, bestMove) := res in
          match bestMove with
          | Some bm =>
              up2 <- isTimeUp ;;
              if up2 then deepen r (S depth) board pieces pl cornerShape else
              _ <- modify (setBestMoveFound (Some bm)) ;;
              if Qle_bool (inject_Z WIN_SCORE) bestScore then ret LoopDone
              else deepen r (S depth) board pieces pl cornerShape
          | None => deepen r (S depth) board pieces pl cornerShape
          end
      end
  end.

(** [findBestMove(board, pieces, player, cornerShape)]: resets the clock,
    the node count and the best move found, but not the table. *)
Definition findBestMove (board : Board) (pieces : list PieceWithId) (pl : PlayerType)
    (cornerShape : CornerShape) : M (option AIMove) :=
  _ <- modify (fun s => mkAIState (config s) (transpositionTable s) 0 O None) ;;
  cfg <- gets config ;;
  ex <- deepen (maxDepth cfg) 1 board pieces pl cornerShape ;;
  match ex with
  | ReturnNull => ret None
  | LoopDone => gets bestMoveFound
  end.

End Search.

(** [clearCache()] *)
Definition clearCache (s : AIState) : AIState := setTable [] s.

(** A fresh [AIPlayer] for a difficulty of [AI_DIFFICULTY_CONFIG]. *)
Definition newAIPlayer (cfg : AIConfig) : AIState := mkAIState cfg [] 0 O None.

Definition easyConfig : AIConfig := mkAIConfig Easy 2 500.

Definition mediumConfig : AIConfig := mkAIConfig Medium 4 2000.

(** A clock that never reaches the time limit. *)
Definition noTimeUp (k : nat) : bool := false.

(** The board the game keeps for a piece list (empty if the list is invalid). *)
Definition boardOf (pieces : list PieceWithId) : Board :=
  match createBoardFromPieces pieces with Ok b => b | Err _ => createEmptyBoard end.

(** The destination of the move a search returned, if any. *)
Definition chosenTo (r : Result (option AIMove)) : option Position :=
  match r with Ok (Some m) => Some (mto m) | _ => None end.

(** Reading a key [playerrowcol] of an on-board piece back. *)
Definition keyTriple (s : string) : PlayerType * Z * Z :=
  match s with
  | String p (String r (String c _)) =>
      (if Ascii.eqb p "A"%char then A else B,
       Z.of_nat (nat_of_ascii r) - 48, Z.of_nat (nat_of_ascii c) - 48)
  | _ => (A, 0, 0)
  end.

Definition tripleKey (t : PlayerType * Z * Z) : string :=
  match t with (pl, r, c) => (playerToString pl ++ zToString r ++ zToString c)%string end.

(* ------------------------------------------------------------------ *)
(** * More of the domain layer *)

(** ** models/Position.ts, models/Board.ts *)

(** [positionToKey(position) = `${row},${col}`] *)
Definition positionToKey (p : Position) : string :=
  (zToString (row p) ++ "," ++ zToString (col p))%string.

(** [getPlayerAt(board, row, col) = board[row]?.[col] ?? null] *)
Definition getPlayerAt (board : Board) (r c : Z) : Player :=
  match cellAt board r c with Some v => v | None => None end.

(** ** utils/moveValidation.ts *)

(** [isMoveValid(board, from, to)] *)
Definition isMoveValid (board : Board) (from to : Position) : bool :=
  existsb (fun mv => (row mv =? row to) && (col mv =? col to)) (getValidMoves board from).

(** [getStartingCorner(player, corner)]: (startRow, endRow, startCol, endCol). *)
Definition getStartingCorner (pl : PlayerType) (corner : CornerShape) : Z * Z * Z * Z :=
  match pl with
  | A => (0, crows corner, 0, ccols corner)
  | B => (boardSize - crows corner, boardSize, boardSize - ccols corner, boardSize)
  end.

(** ** utils/pathFinding.ts: isPathValid (as listed in frontend/ARCHITECTURE.md) *)

(** One iteration of the loop of [isPathValid]: [true] goes on, [false] is
    [return false]. [midRow = (from.row + to.row) / 2] is a JS number; the
    [||] chain reads it only once both differences are 2, when the sum is
    even and [Z.div] is exact. *)
Definition pathLegOK (board : Board) (from to : Position) : bool :=
  if isAdjacentMove from to then true
  else if negb (Z.abs (row from - row to) =? 2) then false
  else if negb (Z.abs (col from - col to) =? 2) then false
  else negb (isCellEmpty board ((row from + row to) / 2) ((col from + col to) / 2)).

Fixpoint pathLegsOK (board : Board) (path : list Position) : bool :=
  match path with
  | from :: ((to :: _) as t) => pathLegOK board from to && pathLegsOK board t
  | _ => true
  end.

(** [isPathValid(board, path)] *)
Definition isPathValid (board : Board) (path : list Position) : bool :=
  if Nat.ltb (List.length path) 2 then false else pathLegsOK board path.

(** ** utils/boardUtils.ts *)

(** [`${player}-${pieceId}`] *)
Definition pieceIdOf (pl : PlayerType) (k : Z) : string :=
  (playerToString pl ++ "-" ++ zToString k)%string.

Definition invalidPlayerPositionMsg (pl : PlayerType) (r c : Z) : string :=
  ("Invalid piece position for Player " ++ playerToString pl ++ ": [" ++
   zToString r ++ ", " ++ zToString c ++ "]")%string.

(** The cells the nested loops of [createPiecesForPlayer] visit, in order. *)
Definition cornerCells (corner : CornerShape) (start : Z * Z) : list (Z * Z) :=
  flat_map (fun r => map (fun c => (fst start + r, snd start + c)) (zrange 0 (ccols corner)))
    (zrange 0 (crows corner)).

(** The body of the loops; [pieceId] is the counter [pieceId++]. *)
Fixpoint createPiecesLoop (pl : PlayerType) (cs : list (Z * Z)) (pieceId : Z)
  : Result (list PieceWithId) :=
  match cs with
  | [] => Ok []
  | (r, c) :: t =>
      if negb (isValidPosition r c) then Err (mkGameError (invalidPlayerPositionMsg pl r c))
      else match createPiecesLoop pl t (pieceId + 1) with
           | Ok ps => Ok (mkPiece (pieceIdOf pl pieceId) pl r c :: ps)
           | Err e => Err e
           end
  end.

(** [createPiecesForPlayer(player, corner, startPosition)] *)
Definition createPiecesForPlayer (pl : PlayerType) (corner : CornerShape) (start : Z * Z)
  : Result (list PieceWithId) :=
  createPiecesLoop pl (cornerCells corner start) 1.

(** [createInitialPieces(corner)] *)
Definition createInitialPieces (corner : CornerShape) : Result (list PieceWithId) :=
  match createPiecesForPlayer A corner (0, 0) with
  | Err e => Err e
  | Ok pa =>
      match createPiecesForPlayer B corner (boardSize - crows corner, boardSize - ccols corner) with
      | Err e => Err e
      | Ok pb => Ok (pa ++ pb)
      end
  end.

(** [findPieceAt(pieces, row, col)] *)
Definition findPieceAt (pieces : list PieceWithId) (r c : Z) : option PieceWithId :=
  find (fun p => (prow p =? r) && (pcol p =? c)) pieces.

Definition invalidMoveMsg (r c : Z) : string :=
  ("Invalid move position: [" ++ zToString r ++ ", " ++ zToString c ++ "]")%string.

(** [movePiece(pieces, pieceId, newRow, newCol)] *)
Definition movePiece (pieces : list PieceWithId) (pieceId : string) (r c : Z)
  : Result (list PieceWithId) :=
  if negb (isValidPosition r c) then Err (mkGameError (invalidMoveMsg r c))
  else Ok (map (fun p => if String.eqb (id p) pieceId then mkPiece (id p) (player p) r c else p)
             pieces).

(* ------------------------------------------------------------------ *)
(** * Vocabulary of the proofs *)

(** A path under construction: it starts at [o], ends at [c], and every leg is legal. *)
Definition pathOK (board : Board) (o c : Position) (path : list Position) : Prop :=
  (exists l, path = l ++ [c]) /\ hd_error path = Some o /\ validChain board path = true.

(** What a failed search has established: it visited only non-targets, and
    every jump out of a cell it entered lands in its visited set. *)
Definition searchClosed (board : Board) (target : Position) (v v' : list Position) : Prop :=
  forall x, In x v' -> ~ In x v ->
  x <> target /\ forall y, jumpEdge board x y -> In y v'.

(** The board mirrors the pieces placed so far. *)
Definition boardRepr (b : Board) (pre : list PieceWithId) : Prop :=
  forall r c, cellAt b r c = if isValidPosition r c then Some (ownerAt pre r c) else None.

(** A piece standing on the board. *)
Definition validPiece (p : PieceWithId) : Prop := isValidPosition (prow p) (pcol p) = true.

(** The order [Array.prototype.sort] puts strings in. *)
Definition strLe (x y : string) : Prop := String.leb x y = true.

(* ================================================================== *)
(** ** Vocabulary of the proofs about the rest of the code *)

(** The moves found so far and the visited set hold the same cells, and the
    moves list repeats none. *)
Definition msync (st : list Position * list Position) : Prop :=
  NoDup (fst st) /\ forall x, In x (fst st) <-> In x (snd st).

(** What a finished jump search has established: every jump out of a cell it
    entered lands in the visited set. *)
Definition jclosed (board : Board) (v v' : list Position) : Prop :=
  forall x, In x v' -> ~ In x v -> forall y, jumpEdge board x y -> In y v'.

(** A leg that is a single orthogonal jump: two cells along a row or a column. *)
Definition orthJumpLeg (p q : Position) : Prop :=
  (Z.abs (row p - row q) = 2 /\ col p = col q) \/ (row p = row q /\ Z.abs (col p - col q) = 2).

Fixpoint legsAll (P : Position -> Position -> Prop) (l : list Position) : Prop :=
  match l with
  | p :: ((q :: _) as t) => P p q /\ legsAll P t
  | _ => True
  end.

(** A jump path under construction: it starts at [o], ends at [c], and every
    leg is a single orthogonal jump. *)
Definition jpathOK (o c : Position) (path : list Position) : Prop :=
  (exists l, path = l ++ [c]) /\ hd_error path = Some o /\ legsAll orthJumpLeg path.

(** [key.split(',')] (one-character separator). *)
Fixpoint splitOn (sep : ascii) (s : string) : list string :=
  match s with
  | EmptyString => [EmptyString]
  | String ch t =>
      if Ascii.eqb ch sep then EmptyString :: splitOn sep t
      else match splitOn sep t with
           | w :: ws => String ch w :: ws
           | [] => [String ch EmptyString]
           end
  end.

Definition isDigit (ch : ascii) : bool :=
  (48 <=? nat_of_ascii ch)%nat && (nat_of_ascii ch <=? 57)%nat.

Fixpoint allDigits (s : string) : bool :=
  match s with
  | EmptyString => true
  | String ch t => isDigit ch && allDigits t
  end.

Fixpoint readDigits (s : string) (a : Z) : Z :=
  match s with
  | EmptyString => a
  | String ch t => readDigits t (a * 10 + (Z.of_nat (nat_of_ascii ch) - 48))
  end.

(** [Number(s)] on the strings [""] (0) and [-?[0-9]+] (decimal); [None] is
    any other string, for which the model does not say what [Number] gives. *)
Definition jsNumber (s : string) : option Z :=
  match s with
  | EmptyString => Some 0
  | String ch t =>
      if Ascii.eqb ch "-"%char then
        match t with
        | EmptyString => None
        | _ => if allDigits t then Some (- readDigits t 0) else None
        end
      else if allDigits s then Some (readDigits s 0) else None
  end.

(** [keyToPosition(key)]: [const [row, col] = key.split(',').map(Number)]. *)
Definition keyToPosition (key : string) : option Position :=
  match map jsNumber (splitOn "," key) with
  | Some r :: Some c :: _ => Some (mkPos r c)
  | _ => None
  end.

Fixpoint commaFree (s : string) : bool :=
  match s with
  | EmptyString => true
  | String ch t => negb (Ascii.eqb ch ","%char) && commaFree t
  end.

(** Order of [getOrderedMoves]: scores never increase along the list. *)
Definition scoreGe (x y : OrderedMove) : Prop := oscore y <= oscore x.

(** The moves of score [q], in the order of a list. *)
Definition scoreIs (q : Z) (m : OrderedMove) : bool := Z.eqb (oscore m) q.

(** The array [orderedMoves] of [getOrderedMoves] as its two loops leave it,
    before the sort. *)
Definition pushedMoves (board : Board) (pieces : list PieceWithId) (pl : PlayerType)
  : list OrderedMove :=
  flat_map (fun piece =>
    map (fun mv =>
      mkOrderedMove piece (mkPos (row mv) (col mv))
        (quickEvaluateMove (mkPos (prow piece) (pcol piece)) (mkPos (row mv) (col mv)) pl))
      (getValidMoves board (piecePos piece)))
    (piecesOf pieces pl).

(** The invariant of a transposition table: distinct keys, none of them the
    empty string, at most [maxSize] entries. *)
Definition tableOK (m : TTable) : Prop :=
  NoDup (map fst m) /\ Forall (fun kv => fst kv <> EmptyString) m /\ Z.of_nat (List.length m) <= maxSize.

(** The [AIMove] of a legal move of [pl]: it leaves the cell of one of
    [pl]'s pieces for a destination [getValidMoves] offers. *)
Definition legalMove (board : Board) (pieces : list PieceWithId) (pl : PlayerType) (m : AIMove) : Prop :=
  exists p, In p pieces /\ player p = pl /\ mfrom m = piecePos p /\
  In (mto m) (getValidMoves board (piecePos p)).

(** What a search step may change: the node count, the clock, and the table
    (keeping [tableOK]); not the configuration nor the best move found. *)
Definition keeps (s s' : AIState) : Prop :=
  config s' = config s /\ bestMoveFound s' = bestMoveFound s /\
  (tableOK (transpositionTable s) -> tableOK (transpositionTable s')).

(** A position the search can stand on: its board is the board of its
    pieces, the ids are distinct, and there is a piece. *)
Definition posOK (board : Board) (pieces : list PieceWithId) : Prop :=
  getBoardFromPieces pieces = Ok board /\ NoDup (map id pieces) /\ pieces <> [].

(** Moves of [pl]'s pieces to destinations [getValidMoves] offers. *)
Definition movesOK (board : Board) (pieces : list PieceWithId) (pl : PlayerType)
    (moves : list OrderedMove) : Prop :=
  forall m, In m moves -> In (opiece m) pieces /\ player (opiece m) = pl /\
    In (oto m) (getValidMoves board (piecePos (opiece m))).

Definition optLegal (board : Board) (pieces : list PieceWithId) (pl : PlayerType)
    (bm : option AIMove) : Prop :=
  forall m, bm = Some m -> legalMove board pieces pl m.

(** What [deepen] may change: the configuration never, the table keeping
    [tableOK], the best move found only to a legal move. *)
Definition deepenKeeps (board : Board) (pieces : list PieceWithId) (pl : PlayerType)
    (s s' : AIState) : Prop :=
  config s' = config s /\
  (tableOK (transpositionTable s) -> tableOK (transpositionTable s')) /\
  (optLegal board pieces pl (bestMoveFound s) -> optLegal board pieces pl (bestMoveFound s')).

(** The example position of the witnesses: one piece each, side by side. *)
Definition twoPieces : list PieceWithId := [mkPiece "A-1" A 0 0; mkPiece "B-1" B 0 1].

(** A on (4, 3), B on (3, 4); then the position after A plays (4, 3) -> (3, 3)
    and B plays (3, 4) -> (4, 4). *)
Definition earlierPieces : list PieceWithId := [mkPiece "A-1" A 4 3; mkPiece "B-1" B 3 4].

Definition laterPieces : list PieceWithId := [mkPiece "A-1" A 3 3; mkPiece "B-1" B 4 4].

(** A piece of [A] in a corner, walled in by [B]: no move at all. *)
Definition blockedA : list PieceWithId :=
  [mkPiece "A-1" A 0 0; mkPiece "B-1" B 0 1; mkPiece "B-2" B 1 0;
   mkPiece "B-3" B 0 2; mkPiece "B-4" B 2 0].

(** * Proofs *)

(** ** Positions *)

Lemma posEqb_spec (a b : Position) : posEqb a b = true <-> a = b.
Proof.
  destruct a as [ra ca], b as [rb cb]; unfold posEqb; simpl.
  rewrite andb_true_iff, !Z.eqb_eq; split.
  - intros [-> ->]; reflexivity.
  - intros H; injection H; auto.
Qed.

Lemma mem_spec (p : Position) (l : list Position) : mem p l = true <-> In p l.
Proof.
  unfold mem; rewrite existsb_exists; split.
  - intros (x & Hx & He); apply posEqb_spec in He; subst; exact Hx.
  - intros H; exists p; split; [exact H | apply posEqb_spec; reflexivity].
Qed.

Lemma mem_false (p : Position) (l : list Position) : mem p l = false <-> ~ In p l.
Proof.
  rewrite <- mem_spec; destruct (mem p l); split; congruence.
Qed.

Lemma In_dec_cell (x : Z * Z) (l : list (Z * Z)) : In x l \/ ~ In x l.
Proof.
  assert (Hd : forall a b : Z * Z, {a = b} + {a <> b}).
  { intros [a1 a2] [b1 b2]; destruct (Z.eq_dec a1 b1), (Z.eq_dec a2 b2);
      [left; congruence | right; congruence | right; congruence | right; congruence]. }
  destruct (in_dec Hd x l); [left | right]; assumption.
Qed.

Lemma In_dec_pos (p : Position) (l : list Position) : In p l \/ ~ In p l.
Proof.
  destruct (mem p l) eqn:E; [left; apply mem_spec | right; apply mem_false]; exact E.
Qed.

(** ** Counting visited cells: why the search fuel is never exhausted *)

Lemma valid_in_cells (p : Position) :
  isValidPosition (row p) (col p) = true -> In p cells.
Proof.
  destruct p as [r c]; unfold isValidPosition, boardSize; cbn [row col].
  rewrite !andb_true_iff, !Z.leb_le, !Z.ltb_lt; intros [[[H1 H2] H3] H4].
  unfold cells; rewrite in_flat_map; exists (Z.to_nat r); split.
  - apply in_seq; lia.
  - rewrite in_map_iff; exists (Z.to_nat c); split.
    + rewrite !Z2Nat.id by lia; reflexivity.
    + apply in_seq; lia.
Qed.

Lemma count_filter_mono (L v v' : list Position) :
  incl v v' ->
  (List.length (filter (fun p => mem p v) L) <= List.length (filter (fun p => mem p v') L))%nat.
Proof.
  intros Hi; induction L as [|x L IH]; simpl; [lia|].
  destruct (mem x v) eqn:E1; destruct (mem x v') eqn:E2; simpl; try lia.
  apply mem_spec, Hi, mem_spec in E1; congruence.
Qed.

Lemma count_filter_strict (L v v' : list Position) (p : Position) :
  In p L -> ~ In p v -> incl v v' ->
  (List.length (filter (fun q => mem q v) L) < List.length (filter (fun q => mem q (p :: v')) L))%nat.
Proof.
  intros Hp Hn Hi; induction L as [|x L IH]; [destruct Hp|].
  assert (Hm : incl v (p :: v')) by (intros y Hy; right; apply Hi, Hy).
  pose proof (count_filter_mono L v (p :: v') Hm) as Hmono.
  cbn [filter]; destruct Hp as [<- | Hp].
  - assert (E1 : mem x v = false) by (apply mem_false; exact Hn).
    assert (E2 : mem x (x :: v') = true) by (apply mem_spec; left; reflexivity).
    rewrite E1, E2; cbn [List.length]; lia.
  - specialize (IH Hp).
    destruct (mem x v) eqn:E1; destruct (mem x (p :: v')) eqn:E2; cbn [List.length]; try lia.
    apply mem_spec, Hm, mem_spec in E1; congruence.
Qed.

Lemma countVisited_le (v : list Position) : (countVisited v <= 64)%nat.
Proof.
  unfold countVisited.
  change 64%nat with (List.length cells).
  apply filter_length_le.
Qed.

Lemma countVisited_step (v v' : list Position) (p : Position) :
  isValidPosition (row p) (col p) = true -> ~ In p v -> incl v v' ->
  (countVisited v < countVisited (p :: v'))%nat.
Proof.
  intros Hv Hn Hi; apply count_filter_strict; auto using valid_in_cells.
Qed.

(** ** Legs of a move *)

Lemma jumpOK_landing (board : Board) (p : Position) (d : Z * Z) :
  jumpOK board p d = true ->
  isValidPosition (row (jumpTarget p d)) (col (jumpTarget p d)) = true /\
  isCellEmpty board (row (jumpTarget p d)) (col (jumpTarget p d)) = true.
Proof.
  destruct d as [dr dc]; unfold jumpOK, jumpTarget; simpl.
  rewrite !andb_true_iff; tauto.
Qed.

Lemma jumpEdge_landing (board : Board) (p q : Position) :
  jumpEdge board p q ->
  isValidPosition (row q) (col q) = true /\ isCellEmpty board (row q) (col q) = true.
Proof.
  intros (d & _ & Hj & ->); apply jumpOK_landing, Hj.
Qed.

Lemma clos_trans_landing (board : Board) (p q : Position) :
  clos_trans _ (jumpEdge board) p q ->
  isValidPosition (row q) (col q) = true /\ isCellEmpty board (row q) (col q) = true.
Proof.
  intros H; induction H as [x y Hxy | x y z _ _ _ IH]; [apply (jumpEdge_landing _ _ _ Hxy) | exact IH].
Qed.

Lemma jumpEdge_validStep (board : Board) (p q : Position) :
  jumpEdge board p q -> validStep board p q = true.
Proof.
  intros (d & Hd & Hj & ->); unfold validStep; apply orb_true_iff; right.
  apply existsb_exists; exists d; split; [exact Hd|].
  rewrite Hj; simpl; apply posEqb_spec; reflexivity.
Qed.

Lemma validChain_snoc (board : Board) (l : list Position) (p q : Position) :
  validChain board (l ++ [p]) = true -> validStep board p q = true ->
  validChain board (l ++ [p; q]) = true.
Proof.
  induction l as [|x l IH]; simpl.
  - intros _ H; rewrite H; reflexivity.
  - destruct l as [|y l]; simpl in *.
    + rewrite !andb_true_iff; intros [H1 _] H2; auto.
    + rewrite !andb_true_iff; intros [H1 H3] H2; split; [exact H1|].
      apply IH; assumption.
Qed.

Lemma last_snoc (l : list Position) (p d : Position) : last (l ++ [p]) d = p.
Proof.
  induction l as [|x l IH]; [reflexivity|].
  simpl; destruct (l ++ [p]) eqn:E; [destruct l; discriminate | exact IH].
Qed.

Lemma hd_error_snoc (l : list Position) (o p : Position) :
  hd_error l = Some o -> hd_error (l ++ [p]) = Some o.
Proof. destruct l; simpl; congruence. Qed.

(** ** Soundness of the move generator *)

Lemma direction_adjacent (p : Position) (d : Z * Z) :
  In d DIRECTION_ARRAY -> isAdjacentMove p (mkPos (row p + fst d) (col p + snd d)) = true.
Proof.
  unfold isAdjacentMove; cbn [row col].
  intros Hd; repeat destruct Hd as [<- | Hd]; try destruct Hd; cbn [fst snd];
    rewrite !Z.sub_add_distr, !Z.sub_diag; reflexivity.
Qed.

Lemma addAdjacentLoop_sound (board : Board) (p : Position) :
  forall ds st, incl ds DIRECTION_ARRAY ->
  forall x, In x (fst (addAdjacentLoop board p ds st)) ->
  In x (fst st) \/
  (isAdjacentMove p x = true /\ isValidPosition (row x) (col x) = true /\
   isCellEmpty board (row x) (col x) = true).
Proof.
  induction ds as [|[dr dc] ds IH]; intros [moves visited] Hincl x Hx; [left; exact Hx|].
  simpl in Hx.
  assert (Hd : In (dr, dc) DIRECTION_ARRAY) by (apply Hincl; left; reflexivity).
  apply IH in Hx; [|intros y Hy; apply Hincl; right; exact Hy].
  destruct Hx as [Hx | Hx]; [|right; exact Hx].
  destruct (isValidPosition (row p + dr) (col p + dc) && isCellEmpty board (row p + dr) (col p + dc))
    eqn:Hv; [destruct (mem (mkPos (row p + dr) (col p + dc)) visited)|]; simpl in Hx;
    try (left; exact Hx).
  apply in_app_or in Hx; destruct Hx as [Hx | [<- | []]]; [left; exact Hx|].
  right; apply andb_true_iff in Hv; destruct Hv as [Hv1 Hv2].
  split; [apply (direction_adjacent p (dr, dc) Hd) | split; assumption].
Qed.

Lemma jumpMovesLoop_sound (board : Board) (o from : Position) rec :
  (forall jt st, clos_trans _ (jumpEdge board) o jt ->
     forall x, In x (fst (rec jt st)) -> In x (fst st) \/ clos_trans _ (jumpEdge board) o x) ->
  (forall q, jumpEdge board from q -> clos_trans _ (jumpEdge board) o q) ->
  forall ds st, incl ds DIRECTION_ARRAY ->
  forall x, In x (fst (jumpMovesLoop rec board from ds st)) ->
  In x (fst st) \/ clos_trans _ (jumpEdge board) o x.
Proof.
  intros Hrec Hfrom; induction ds as [|d ds IH]; intros [moves visited] Hincl x Hx;
    [left; exact Hx|].
  simpl in Hx.
  apply IH in Hx; [|intros y Hy; apply Hincl; right; exact Hy].
  destruct Hx as [Hx | Hx]; [|right; exact Hx].
  destruct (jumpOK board from d) eqn:Hj; [destruct (mem (jumpTarget from d) visited)|];
    try (left; exact Hx).
  assert (Hr : clos_trans _ (jumpEdge board) o (jumpTarget from d)).
  { apply Hfrom; exists d; split; [apply Hincl; left; reflexivity | split; [exact Hj | reflexivity]]. }
  apply (Hrec _ _ Hr) in Hx; simpl in Hx; destruct Hx as [Hx | Hx]; [|right; exact Hx].
  apply in_app_or in Hx; destruct Hx as [Hx | [<- | []]]; [left; exact Hx | right; exact Hr].
Qed.

Lemma findJumpMoves_sound (board : Board) (o : Position) :
  forall fuel from st, (from = o \/ clos_trans _ (jumpEdge board) o from) ->
  forall x, In x (fst (findJumpMoves fuel board from st)) ->
  In x (fst st) \/ clos_trans _ (jumpEdge board) o x.
Proof.
  induction fuel as [|f IH]; intros from st Hfrom x Hx; [left; exact Hx|].
  simpl in Hx.
  refine (jumpMovesLoop_sound board o from _ _ _ DIRECTION_ARRAY st (incl_refl _) x Hx).
  - intros jt st' Hjt; apply IH; right; exact Hjt.
  - intros q Hq; destruct Hfrom as [-> | Hfrom]; [apply t_step, Hq|].
    eapply t_trans; [exact Hfrom | apply t_step, Hq].
Qed.

(** Every destination is an adjacent empty cell or the end of a jump chain. *)
Lemma getValidMoves_sound (board : Board) (o t : Position) :
  In t (getValidMoves board o) ->
  (isAdjacentMove o t = true /\ isValidPosition (row t) (col t) = true /\
   isCellEmpty board (row t) (col t) = true) \/
  clos_trans _ (jumpEdge board) o t.
Proof.
  unfold getValidMoves; intros Ht.
  apply findJumpMoves_sound with (o := o) in Ht; [|left; reflexivity].
  destruct Ht as [Ht | Ht]; [|right; exact Ht].
  apply addAdjacentLoop_sound in Ht; [|apply incl_refl].
  destruct Ht as [[] | Ht]; left; exact Ht.
Qed.

Lemma getValidMoves_empty (board : Board) (o t : Position) :
  In t (getValidMoves board o) -> isCellEmpty board (row t) (col t) = true.
Proof.
  intros Ht; apply getValidMoves_sound in Ht.
  destruct Ht as [(_ & _ & H) | Ht]; [exact H | apply (clos_trans_landing _ _ _ Ht)].
Qed.

(** ** The jump-path search *)

Lemma searchJumpPath_O (board : Board) (current target : Position) (path v : list Position) :
  searchJumpPath O board current target path v =
  if posEqb current target then (true, path, v) else (false, path, v).
Proof. reflexivity. Qed.

Lemma searchJumpPath_S (f : nat) (board : Board) (current target : Position) (path v : list Position) :
  searchJumpPath (S f) board current target path v =
  if posEqb current target then (true, path, v)
  else searchLoop (fun jp => searchJumpPath f board jp target) board current DIRECTION_ARRAY path v.
Proof. reflexivity. Qed.

(** A failed search leaves the path as it found it ([push] then [pop]). *)
Lemma searchLoop_frame (board : Board) (current : Position) rec :
  (forall jp path v p' v', rec jp path v = (false, p', v') -> p' = path) ->
  forall ds path v p' v', searchLoop rec board current ds path v = (false, p', v') -> p' = path.
Proof.
  intros Hrec; induction ds as [|d ds IH]; intros path v p' v' H; simpl in H.
  - congruence.
  - destruct (jumpOK board current d && negb (mem (jumpTarget current d) v)).
    + destruct (rec (jumpTarget current d) (path ++ [jumpTarget current d])
                    (jumpTarget current d :: v)) as [[fd p2] v2] eqn:Er.
      destruct fd; [discriminate|].
      apply Hrec in Er; subst p2; rewrite removelast_last in H; exact (IH _ _ _ _ H).
    + exact (IH _ _ _ _ H).
Qed.

Lemma searchJumpPath_frame (board : Board) (target : Position) :
  forall n current path v p' v',
  searchJumpPath n board current target path v = (false, p', v') -> p' = path.
Proof.
  induction n as [|f IH]; intros current path v p' v' H;
    rewrite ?searchJumpPath_O, ?searchJumpPath_S in H;
    destruct (posEqb current target); try discriminate; [congruence|].
  exact (searchLoop_frame board current _ (fun jp => IH jp) _ _ _ _ _ H).
Qed.

Lemma pathOK_snoc (board : Board) (o c d : Position) (path : list Position) :
  pathOK board o c path -> validStep board c d = true -> pathOK board o d (path ++ [d]).
Proof.
  intros ([l ->] & Hh & Hv) Hs; split; [|split].
  - exists (l ++ [c]); reflexivity.
  - apply hd_error_snoc; exact Hh.
  - rewrite <- app_assoc; apply validChain_snoc; assumption.
Qed.

Lemma searchLoop_sound (board : Board) (o target current : Position) rec :
  (forall jp path v p' v', rec jp path v = (false, p', v') -> p' = path) ->
  (forall jp path v p' v', pathOK board o jp path ->
     rec jp path v = (true, p', v') -> pathOK board o target p') ->
  forall ds path v p' v', incl ds DIRECTION_ARRAY -> pathOK board o current path ->
  searchLoop rec board current ds path v = (true, p', v') -> pathOK board o target p'.
Proof.
  intros Hframe Hrec; induction ds as [|d ds IH]; intros path v p' v' Hincl Hp H;
    simpl in H; [discriminate|].
  assert (Hincl' : incl ds DIRECTION_ARRAY) by (intros y Hy; apply Hincl; right; exact Hy).
  destruct (jumpOK board current d) eqn:Hj; destruct (mem (jumpTarget current d) v);
    simpl in H; try exact (IH _ _ _ _ Hincl' Hp H).
  destruct (rec (jumpTarget current d) (path ++ [jumpTarget current d])
                (jumpTarget current d :: v)) as [[fd p2] v2] eqn:Er.
  assert (Hp2 : pathOK board o (jumpTarget current d) (path ++ [jumpTarget current d])).
  { apply (pathOK_snoc board o current); [exact Hp|]; apply jumpEdge_validStep.
    exists d; split; [apply Hincl; left; reflexivity | split; [exact Hj | reflexivity]]. }
  destruct fd.
  - injection H as <- <-; exact (Hrec _ _ _ _ _ Hp2 Er).
  - apply Hframe in Er; subst p2; rewrite removelast_last in H.
    exact (IH _ _ _ _ Hincl' Hp H).
Qed.

Lemma searchJumpPath_sound (board : Board) (o target : Position) :
  forall n current path v p' v', pathOK board o current path ->
  searchJumpPath n board current target path v = (true, p', v') -> pathOK board o target p'.
Proof.
  induction n as [|f IH]; intros current path v p' v' Hp H;
    rewrite ?searchJumpPath_O, ?searchJumpPath_S in H;
    destruct (posEqb current target) eqn:Ec; try discriminate;
    try (apply posEqb_spec in Ec; subst current; injection H as <- <-; exact Hp).
  refine (searchLoop_sound board o target current _ _ _ _ _ _ _ _ (incl_refl _) Hp H).
  - intros jp; exact (searchJumpPath_frame board target f jp).
  - intros jp; exact (IH jp).
Qed.

Lemma searchLoop_complete (board : Board) (target current : Position) (f : nat) rec
    (v : list Position) :
  (forall jp path v0 p' v', (65 <= f + countVisited v0)%nat ->
     rec jp path v0 = (false, p', v') ->
     incl v0 v' /\ jp <> target /\ searchClosed board target v0 v' /\
     (forall y, jumpEdge board jp y -> In y v')) ->
  (65 <= S f + countVisited v)%nat ->
  forall ds path vk p' v', incl v vk -> searchClosed board target v vk ->
  searchLoop rec board current ds path vk = (false, p', v') ->
  incl vk v' /\ searchClosed board target v v' /\
  (forall d, In d ds -> jumpOK board current d = true -> In (jumpTarget current d) v').
Proof.
  intros Hrec Hfuel; induction ds as [|d ds IH]; intros path vk p' v' Hvk Hcl H; simpl in H.
  - injection H as <- <-; split; [apply incl_refl | split; [exact Hcl | intros _ []]].
  - set (jp := jumpTarget current d) in *.
    destruct (jumpOK board current d && negb (mem jp vk)) eqn:Hj.
    + apply andb_true_iff in Hj; destruct Hj as [Hj Hm].
      apply negb_true_iff, mem_false in Hm.
      destruct (rec jp (path ++ [jp]) (jp :: vk)) as [[fd p2] v2] eqn:Er.
      destruct fd; [discriminate|].
      assert (Hcount : (countVisited v < countVisited (jp :: vk))%nat).
      { apply countVisited_step; [apply (jumpOK_landing board current d Hj) | |exact Hvk].
        intros Hin; apply Hm, Hvk, Hin. }
      assert (Hf : (65 <= f + countVisited (jp :: vk))%nat) by lia.
      destruct (Hrec _ _ _ _ _ Hf Er) as (Hi2 & Hjp & Hcl2 & Hjpc).
      assert (Hvk2 : incl vk v2) by (intros y Hy; apply Hi2; right; exact Hy).
      destruct (IH _ _ _ _ (incl_tran Hvk Hvk2) ltac:(
        intros x Hx Hxv; destruct (In_dec_pos x (jp :: vk)) as [[<- | Hxk] | Hxk];
        [ split; [exact Hjp | exact Hjpc]
        | destruct (Hcl x Hxk Hxv) as [Hne Hsucc]; split; [exact Hne|];
          intros y Hy; apply Hvk2, Hsucc, Hy
        | exact (Hcl2 x Hx Hxk) ]) H) as (Hi3 & Hcl3 & Hds).
      split; [exact (incl_tran Hvk2 Hi3)|]; split; [exact Hcl3|].
      intros d' [<- | Hd'] Hj'; [apply Hi3, Hi2; left; reflexivity | exact (Hds d' Hd' Hj')].
    + destruct (IH _ _ _ _ Hvk Hcl H) as (Hi3 & Hcl3 & Hds).
      split; [exact Hi3|]; split; [exact Hcl3|].
      intros d' [<- | Hd'] Hj'; [|exact (Hds d' Hd' Hj')].
      rewrite Hj' in Hj; simpl in Hj; apply negb_false_iff, mem_spec in Hj.
      apply Hi3, Hj.
Qed.

Lemma searchJumpPath_complete (board : Board) (target : Position) :
  forall n current path v p' v', (65 <= n + countVisited v)%nat ->
  searchJumpPath n board current target path v = (false, p', v') ->
  incl v v' /\ current <> target /\ searchClosed board target v v' /\
  (forall y, jumpEdge board current y -> In y v').
Proof.
  induction n as [|f IH]; intros current path v p' v' Hfuel H;
    rewrite ?searchJumpPath_O, ?searchJumpPath_S in H;
    destruct (posEqb current target) eqn:Ec; try discriminate.
  - pose proof (countVisited_le v); lia.
  - assert (Hne : current <> target) by (intros <-; rewrite (proj2 (posEqb_spec _ _) eq_refl) in Ec; discriminate).
    destruct (searchLoop_complete board target current f _ v (fun jp => IH jp) Hfuel
                DIRECTION_ARRAY path v p' v' (incl_refl _) ltac:(intros x Hx1 Hx2; contradiction) H)
      as (Hi & Hcl & Hds).
    split; [exact Hi|]; split; [exact Hne|]; split; [exact Hcl|].
    intros y (d & Hd & Hj & ->); exact (Hds d Hd Hj).
Qed.

(** The path search finds every cell reachable by a chain of jumps. *)
Lemma searchJumpPath_finds (board : Board) (o t : Position) :
  clos_trans _ (jumpEdge board) o t ->
  fst (fst (searchJumpPath SEARCH_FUEL board o t [o] [o])) = true.
Proof.
  intros Hr.
  destruct (searchJumpPath SEARCH_FUEL board o t [o] [o]) as [[fd p'] v'] eqn:Hs.
  destruct fd; [reflexivity|]; exfalso.
  destruct (searchJumpPath_complete board t SEARCH_FUEL o [o] [o] p' v' ltac:(unfold SEARCH_FUEL; lia) Hs)
    as (Hi & Hne & Hcl & Ho).
  assert (Hstep : forall x y, In x v' -> jumpEdge board x y -> In y v').
  { intros x y Hx Hxy; destruct (In_dec_pos x [o]) as [[<- | []] | Hxo];
      [exact (Ho y Hxy) | exact (proj2 (Hcl x Hx Hxo) y Hxy)]. }
  assert (Hin : forall x y, clos_trans _ (jumpEdge board) x y -> In x v' -> In y v').
  { intros x y Hxy; induction Hxy as [x y Hxy | x y z _ IH1 _ IH2]; intros Hx;
      [exact (Hstep x y Hx Hxy) | exact (IH2 (IH1 Hx))]. }
  assert (Ht : In t v') by (apply (Hin o t Hr), Hi; left; reflexivity).
  destruct (In_dec_pos t [o]) as [[<- | []] | Hto]; [exact (Hne eq_refl)|].
  exact (proj1 (Hcl t Ht Hto) eq_refl).
Qed.

(** ** C1, C7: move generation and path reconstruction *)

(** Claim C1: for every board and every occupied origin cell, every
    destination [t] returned by [getValidMoves] is the last cell of the path
    [findJumpPath board origin t]; that path starts at the origin and each of
    its legs is an orthogonal step onto an empty cell or a single orthogonal
    jump over an occupied cell onto an empty cell. *)
Theorem getValidMoves_findJumpPath (board : Board) (o : Position) (pl : PlayerType)
    (Hocc : cellAt board (row o) (col o) = Some (Some pl)) :
  forall t, In t (getValidMoves board o) ->
  hd_error (findJumpPath board o t) = Some o /\
  last (findJumpPath board o t) o = t /\
  validChain board (findJumpPath board o t) = true.
Proof.
  intros t Ht; unfold findJumpPath.
  assert (Hempty := getValidMoves_empty board o t Ht).
  destruct (isAdjacentMove o t) eqn:Hadj.
  - assert (Hv : isValidPosition (row t) (col t) = true).
    { apply getValidMoves_sound in Ht; destruct Ht as [(_ & H & _) | Ht];
        [exact H | exact (proj1 (clos_trans_landing _ _ _ Ht))]. }
    split; [reflexivity | split; [reflexivity|]].
    simpl; unfold validStep; rewrite Hadj, Hv, Hempty; reflexivity.
  - apply getValidMoves_sound in Ht; destruct Ht as [(H & _) | Ht]; [congruence|].
    pose proof (searchJumpPath_finds board o t Ht) as Hf.
    destruct (searchJumpPath SEARCH_FUEL board o t [o] [o]) as [[fd p'] v'] eqn:Hs.
    simpl in Hf; subst fd.
    assert (Hp : pathOK board o o [o]) by (split; [exists []; reflexivity | split; reflexivity]).
    destruct (searchJumpPath_sound board o t _ _ _ _ _ _ Hp Hs) as ([l ->] & Hh & Hc).
    split; [exact Hh | split; [apply last_snoc | exact Hc]].
Qed.

Lemma getValidMoves_findJumpPath_witness :
  cellAt jumpExampleBoard 3 3 = Some (Some A) /\
  forall t, In t (getValidMoves jumpExampleBoard (mkPos 3 3)) ->
  hd_error (findJumpPath jumpExampleBoard (mkPos 3 3) t) = Some (mkPos 3 3) /\
  last (findJumpPath jumpExampleBoard (mkPos 3 3) t) (mkPos 3 3) = t /\
  validChain jumpExampleBoard (findJumpPath jumpExampleBoard (mkPos 3 3) t) = true.
Proof.
  split; [reflexivity|].
  intros t Ht; exact (getValidMoves_findJumpPath jumpExampleBoard (mkPos 3 3) A eq_refl t Ht).
Defined.

(** Claim C7: on a board whose origin cell is occupied, [getValidMoves]
    never returns the origin itself, neither as a step nor via a jump chain. *)
Theorem getValidMoves_no_origin (board : Board) (o : Position) (pl : PlayerType)
    (Hocc : cellAt board (row o) (col o) = Some (Some pl)) :
  ~ In o (getValidMoves board o).
Proof.
  intros Ho; apply getValidMoves_empty in Ho.
  unfold isCellEmpty in Ho; rewrite Hocc in Ho; discriminate.
Qed.

Lemma getValidMoves_no_origin_witness :
  cellAt jumpExampleBoard 3 3 = Some (Some A) /\
  ~ In (mkPos 3 3) (getValidMoves jumpExampleBoard (mkPos 3 3)).
Proof.
  split; [reflexivity|].
  exact (getValidMoves_no_origin jumpExampleBoard (mkPos 3 3) A eq_refl).
Defined.

(** ** C5: win detection *)

Lemma in_zrange (lo hi x : Z) : In x (zrange lo hi) <-> lo <= x < hi.
Proof.
  unfold zrange; rewrite in_map_iff; split.
  - intros (k & <- & Hk); apply in_seq in Hk; lia.
  - intros Hx; exists (Z.to_nat (x - lo)); split; [lia|]; apply in_seq; lia.
Qed.

Lemma PlayerType_eqb_spec (x y : PlayerType) : PlayerType_eqb x y = true <-> x = y.
Proof. destruct x, y; simpl; split; congruence. Qed.

Lemma piecesOf_idem (pieces : list PieceWithId) (pl : PlayerType) :
  piecesOf (piecesOf pieces pl) pl = piecesOf pieces pl.
Proof.
  unfold piecesOf; induction pieces as [|p ps IH]; simpl; [reflexivity|].
  destruct (PlayerType_eqb (player p) pl) eqn:E; simpl; [rewrite E, IH|]; exact IH || reflexivity.
Qed.

(** Only the player's own pieces matter. *)
Lemma hasPlayerWon_piecesOf (pieces : list PieceWithId) (pl : PlayerType) (corner : CornerShape) :
  hasPlayerWon pieces pl corner = hasPlayerWon (piecesOf pieces pl) pl corner.
Proof.
  unfold hasPlayerWon, isPlayerInOpponentCorner.
  destruct (getTargetCorner pl corner) as [[[sr er] sc] ec]; rewrite piecesOf_idem; reflexivity.
Qed.

Lemma hasPlayerWon_spec (pieces : list PieceWithId) (pl : PlayerType) (corner : CornerShape) :
  hasPlayerWon pieces pl corner = true <->
  forall r c, inGoalRect pl corner r c ->
  exists p, In p pieces /\ player p = pl /\ prow p = r /\ pcol p = c.
Proof.
  assert (Hcell : forall r c,
    existsb (fun piece => (prow piece =? r) && (pcol piece =? c)) (piecesOf pieces pl) = true <->
    exists p, In p pieces /\ player p = pl /\ prow p = r /\ pcol p = c).
  { intros r c; rewrite existsb_exists; split.
    - intros (p & Hp & He); unfold piecesOf in Hp; apply filter_In in Hp.
      destruct Hp as [Hp Hpl]; apply PlayerType_eqb_spec in Hpl.
      apply andb_true_iff in He; rewrite !Z.eqb_eq in He.
      exists p; tauto.
    - intros (p & Hp & Hpl & Hr & Hc); exists p; split.
      + unfold piecesOf; apply filter_In; split; [exact Hp | apply PlayerType_eqb_spec, Hpl].
      + rewrite Hr, Hc, !Z.eqb_refl; reflexivity. }
  unfold hasPlayerWon, isPlayerInOpponentCorner.
  assert (Hrect : forall r c, inGoalRect pl corner r c <->
    fst (fst (fst (getTargetCorner pl corner))) <= r < snd (fst (fst (getTargetCorner pl corner))) /\
    snd (fst (getTargetCorner pl corner)) <= c < snd (getTargetCorner pl corner)).
  { intros r c; destruct pl; unfold inGoalRect, getTargetCorner, boardSize; simpl; lia. }
  destruct (getTargetCorner pl corner) as [[[sr er] sc] ec]; simpl in Hrect.
  rewrite forallb_forall; split.
  - intros H r c Hrc; apply Hrect in Hrc; destruct Hrc as [Hr Hc].
    apply in_zrange in Hr; apply in_zrange in Hc.
    specialize (H r Hr); rewrite forallb_forall in H; apply Hcell, H, Hc.
  - intros H r Hr; rewrite forallb_forall; intros c Hc.
    apply in_zrange in Hr; apply in_zrange in Hc.
    apply Hcell, H, Hrect; split; assumption.
Qed.

Lemma piecesOf_app_B (l : list PieceWithId) (bs : list (string * Z * Z)) :
  piecesOf (l ++ map (fun '(i, r, c) => mkPiece i B r c) bs) A = piecesOf l A.
Proof.
  unfold piecesOf; rewrite filter_app.
  replace (filter _ (map _ bs)) with (@nil PieceWithId); [apply app_nil_r|].
  induction bs as [|[[i r] c] bs IH]; simpl; [reflexivity | exact IH].
Qed.

(** Claim C5: [hasPlayerWon pieces pl corner] is true exactly when every cell
    of the player's goal rectangle (for A rows/cols boardSize-rows..7 and
    boardSize-cols..7, for B rows/cols 0..rows-1 and 0..cols-1) holds a piece
    of that player; in particular, with A's pieces exactly on rows 5-7 x
    cols 5-7 (and any B pieces) the 3x3 result is true, and removing any one of
    the nine A pieces makes it false. *)
Theorem hasPlayerWon_exact :
  (forall pieces pl corner,
     hasPlayerWon pieces pl corner = true <->
     forall r c, inGoalRect pl corner r c ->
     exists p, In p pieces /\ player p = pl /\ prow p = r /\ pcol p = c) /\
  (forall bs : list (string * Z * Z),
     let others := map (fun '(i, r, c) => mkPiece i B r c) bs in
     hasPlayerWon (nineA ++ others) A (mkCorner 3 3) = true /\
     forall k, (k < 9)%nat ->
     hasPlayerWon ((firstn k nineA ++ skipn (S k) nineA) ++ others) A (mkCorner 3 3) = false).
Proof.
  split; [exact hasPlayerWon_spec|].
  intros bs others; subst others.
  rewrite hasPlayerWon_piecesOf, piecesOf_app_B, <- hasPlayerWon_piecesOf.
  split; [reflexivity|].
  intros k Hk.
  rewrite hasPlayerWon_piecesOf, piecesOf_app_B, <- hasPlayerWon_piecesOf.
  do 9 (destruct k as [|k]; [reflexivity|]); lia.
Qed.

(** ** C8: building a board from a piece list *)

Lemma nth_error_listSet {T : Type} (l : list T) (i j : nat) (x : T) :
  nth_error (listSet l i x) j =
  if Nat.eqb i j then match nth_error l j with Some _ => Some x | None => None end
  else nth_error l j.
Proof.
  revert i j; induction l as [|y t IH]; intros i j.
  - destruct (Nat.eqb i j), j; reflexivity.
  - destruct i as [|i], j as [|j]; simpl; try reflexivity.
    rewrite IH; reflexivity.
Qed.

Lemma zget_nonneg {T : Type} (l : list T) (i : Z) :
  0 <= i -> zget l i = nth_error l (Z.to_nat i).
Proof. intros H; unfold zget; replace (i <? 0) with false by (symmetry; apply Z.ltb_ge; lia); reflexivity. Qed.

Lemma zget_neg {T : Type} (l : list T) (i : Z) : i < 0 -> zget l i = None.
Proof. intros H; unfold zget; replace (i <? 0) with true by (symmetry; apply Z.ltb_lt; lia); reflexivity. Qed.

Lemma cellAt_setCell (b : Board) (r c : Z) (v : Player) (r' c' : Z) :
  0 <= r -> 0 <= c ->
  cellAt (setCell b r c v) r' c' =
  if (r =? r') && (c =? c') then match cellAt b r c with Some _ => Some v | None => None end
  else cellAt b r' c'.
Proof.
  intros Hr Hc; unfold cellAt, setCell.
  destruct (Z.ltb_spec r' 0) as [Hr' | Hr'].
  - rewrite !(zget_neg _ r' Hr'); replace (r =? r') with false by (symmetry; apply Z.eqb_neq; lia).
    reflexivity.
  - rewrite !(zget_nonneg _ r' Hr'), (zget_nonneg _ r Hr), nth_error_listSet.
    destruct (Z.eqb_spec r r') as [<- | Hne].
    + rewrite Nat.eqb_refl; simpl.
      destruct (nth_error b (Z.to_nat r)) as [rw|] eqn:Erw; [|destruct (c =? c'); reflexivity].
      rewrite (nth_error_nth _ _ [] Erw).
      destruct (Z.ltb_spec c' 0) as [Hc' | Hc'].
      * rewrite !(zget_neg _ c' Hc'); replace (c =? c') with false by (symmetry; apply Z.eqb_neq; lia).
        reflexivity.
      * rewrite !(zget_nonneg _ c' Hc'), (zget_nonneg _ c Hc), nth_error_listSet.
        destruct (Z.eqb_spec c c') as [<- | Hnc].
        -- rewrite Nat.eqb_refl; reflexivity.
        -- replace (Nat.eqb (Z.to_nat c) (Z.to_nat c')) with false
             by (symmetry; apply Nat.eqb_neq; lia); reflexivity.
    + replace (Nat.eqb (Z.to_nat r) (Z.to_nat r')) with false
        by (symmetry; apply Nat.eqb_neq; lia); reflexivity.
Qed.

Lemma boardRepr_empty : boardRepr createEmptyBoard [].
Proof.
  intros r c; unfold cellAt, createEmptyBoard, ownerAt, isValidPosition, boardSize; simpl find.
  destruct (Z.ltb_spec r 0) as [Hr | Hr].
  - rewrite zget_neg by exact Hr; replace (0 <=? r) with false by (symmetry; apply Z.leb_gt; lia).
    reflexivity.
  - rewrite zget_nonneg by exact Hr.
    destruct (Z.ltb_spec r 8) as [Hr8 | Hr8].
    + rewrite nth_error_repeat by lia.
      destruct (Z.ltb_spec c 0) as [Hc | Hc].
      * rewrite zget_neg by exact Hc; replace (0 <=? c) with false by (symmetry; apply Z.leb_gt; lia).
        rewrite andb_false_r; reflexivity.
      * rewrite zget_nonneg by exact Hc.
        replace (0 <=? r) with true by (symmetry; apply Z.leb_le; lia).
        replace (0 <=? c) with true by (symmetry; apply Z.leb_le; lia).
        destruct (Z.ltb_spec c 8) as [Hc8 | Hc8].
        -- rewrite nth_error_repeat by lia; reflexivity.
        -- rewrite (proj2 (nth_error_None _ _)) by (rewrite repeat_length; lia); reflexivity.
    + rewrite (proj2 (nth_error_None _ _)) by (rewrite repeat_length; lia).
      rewrite andb_false_r, andb_false_l; reflexivity.
Qed.

Lemma ownerAt_app (l1 l2 : list PieceWithId) (r c : Z) :
  ownerAt (l1 ++ l2) r c =
  match ownerAt l1 r c with Some o => Some o | None => ownerAt l2 r c end.
Proof.
  unfold ownerAt; induction l1 as [|p l1 IH]; simpl; [reflexivity|].
  destruct ((prow p =? r) && (pcol p =? c)); [reflexivity | exact IH].
Qed.

Lemma ownerAt_none (l : list PieceWithId) (r c : Z) :
  ownerAt l r c = None <-> ~ In (r, c) (map cellOf l).
Proof.
  unfold ownerAt; split.
  - destruct (find _ l) eqn:E; [discriminate|]; intros _ Hin.
    apply in_map_iff in Hin; destruct Hin as (p & Hp & Hin).
    apply (find_none _ _ E) in Hin; unfold cellOf in Hp; injection Hp as E1 E2; rewrite E1, E2 in Hin.
    rewrite !Z.eqb_refl in Hin; discriminate.
  - intros Hn; destruct (find _ l) as [p|] eqn:E; [|reflexivity].
    apply find_some in E; destruct E as [Hin He].
    apply andb_true_iff in He; rewrite !Z.eqb_eq in He; destruct He as [<- <-].
    exfalso; apply Hn, in_map_iff; exists p; split; [reflexivity | exact Hin].
Qed.

Lemma NoDup_snoc {T : Type} (l : list T) (x : T) :
  NoDup l -> ~ In x l -> NoDup (l ++ [x]).
Proof.
  intros Hl Hx; apply Permutation_NoDup with (x :: l);
    [apply Permutation_cons_append | constructor; assumption].
Qed.

Lemma placePieces_spec (ps : list PieceWithId) :
  forall b pre, boardRepr b pre -> NoDup (map cellOf pre) ->
  (forall b', placePieces b ps = Ok b' ->
     boardRepr b' (pre ++ ps) /\ Forall validPiece ps /\ NoDup (map cellOf (pre ++ ps))) /\
  (forall e, placePieces b ps = Err e ->
     exists p, In p ps /\
     ((isValidPosition (prow p) (pcol p) = false /\ message e = invalidPositionMsg p) \/
      (message e = occupiedMsg p /\
       exists a post, pre ++ ps = a ++ p :: post /\ In (cellOf p) (map cellOf a)))).
Proof.
  induction ps as [|p ps IH]; intros b pre Hb Hnd.
  - split; [intros b' H; injection H as <-; rewrite app_nil_r; auto | intros e H; discriminate].
  - simpl placePieces.
    destruct (isValidPosition (prow p) (pcol p)) eqn:Hv; simpl negb; cbv iota.
    2:{ split; [intros b' H; discriminate|].
        intros e H; injection H as <-; exists p; split; [left; reflexivity|].
        left; split; [exact Hv | reflexivity]. }
    assert (Hcell := Hb (prow p) (pcol p)); rewrite Hv in Hcell.
    unfold isCellEmpty; rewrite Hcell.
    destruct (ownerAt pre (prow p) (pcol p)) as [o|] eqn:Ho; simpl negb; cbv iota.
    { split; [intros b' H; discriminate|].
      intros e H; injection H as <-; exists p; split; [left; reflexivity|].
      right; split; [reflexivity|]; exists pre, ps; split; [reflexivity|].
      destruct (In_dec_cell (prow p, pcol p) (map cellOf pre)) as [Hin | Hnin]; [exact Hin|].
      apply ownerAt_none in Hnin; congruence. }
    assert (Hnin : ~ In (cellOf p) (map cellOf pre)) by (apply ownerAt_none, Ho).
    assert (Hb' : boardRepr (setCell b (prow p) (pcol p) (Some (player p))) (pre ++ [p])).
    { assert (Hpos : 0 <= prow p /\ 0 <= pcol p).
      { unfold isValidPosition in Hv; rewrite !andb_true_iff, !Z.leb_le in Hv; tauto. }
      intros r c; rewrite cellAt_setCell by lia; rewrite Hcell, ownerAt_app.
      destruct (Z.eqb_spec (prow p) r) as [<- | Hr]; destruct (Z.eqb_spec (pcol p) c) as [<- | Hc];
        simpl andb; cbv iota.
      - rewrite Hv, Ho; unfold ownerAt; simpl; rewrite !Z.eqb_refl; reflexivity.
      - rewrite Hb; destruct (isValidPosition (prow p) c); [|reflexivity].
        destruct (ownerAt pre (prow p) c); [reflexivity|].
        unfold ownerAt; simpl; replace (pcol p =? c) with false by (symmetry; apply Z.eqb_neq; exact Hc).
        rewrite andb_false_r; reflexivity.
      - rewrite Hb; destruct (isValidPosition r (pcol p)); [|reflexivity].
        destruct (ownerAt pre r (pcol p)); [reflexivity|].
        unfold ownerAt; simpl; replace (prow p =? r) with false by (symmetry; apply Z.eqb_neq; exact Hr).
        reflexivity.
      - rewrite Hb; destruct (isValidPosition r c); [|reflexivity].
        destruct (ownerAt pre r c); [reflexivity|].
        unfold ownerAt; simpl; replace (prow p =? r) with false by (symmetry; apply Z.eqb_neq; exact Hr).
        reflexivity. }
    assert (Hnd' : NoDup (map cellOf (pre ++ [p]))) by (rewrite map_app; apply NoDup_snoc; assumption).
    destruct (IH _ _ Hb' Hnd') as [IHok IHerr].
    rewrite <- app_assoc in IHok, IHerr; simpl app in IHok, IHerr.
    split.
    + intros b' H; destruct (IHok b' H) as (H1 & H2 & H3).
      split; [exact H1 | split; [constructor; [exact Hv | exact H2] | exact H3]].
    + intros e H; destruct (IHerr e H) as (q & Hq & Hd); exists q; split; [right; exact Hq | exact Hd].
Qed.

Lemma NoDup_map_inj {T U : Type} (f : T -> U) (l : list T) (x y : T) :
  NoDup (map f l) -> In x l -> In y l -> f x = f y -> x = y.
Proof.
  induction l as [|z l IH]; simpl; [tauto|].
  intros Hnd Hx Hy Hf; inversion Hnd as [|? ? Hz Hnd']; subst.
  destruct Hx as [<- | Hx], Hy as [<- | Hy]; try reflexivity.
  - exfalso; apply Hz; rewrite Hf; apply in_map; exact Hy.
  - exfalso; apply Hz; rewrite <- Hf; apply in_map; exact Hx.
  - apply IH; assumption.
Qed.

Lemma not_NoDup_dup {T : Type} (a post : list T) (x : T) :
  In x a -> ~ NoDup (a ++ x :: post).
Proof.
  intros Hin Hnd; apply NoDup_remove_2 in Hnd; apply Hnd, in_or_app; left; exact Hin.
Qed.

(** Claim C8: [getBoardFromPieces] throws a [GameError] exactly when some
    piece lies off the 8x8 board or two pieces share a cell; each error names
    a piece that is off the board ("Invalid piece position: [r, c]") or
    that lands on a cell an earlier piece already holds ("Cell [r, c] is
    already occupied"); otherwise every piece's cell holds its owner, every
    other on-board cell is empty and off-board cells do not exist. *)
Theorem getBoardFromPieces_spec (pieces : list PieceWithId) :
  ((exists e, getBoardFromPieces pieces = Err e) <->
   (exists p, In p pieces /\ isValidPosition (prow p) (pcol p) = false) \/
   ~ NoDup (map cellOf pieces)) /\
  (forall e, getBoardFromPieces pieces = Err e ->
   exists p, In p pieces /\
   ((isValidPosition (prow p) (pcol p) = false /\ message e = invalidPositionMsg p) \/
    (message e = occupiedMsg p /\
     exists a post, pieces = a ++ p :: post /\ In (cellOf p) (map cellOf a)))) /\
  (forall b, getBoardFromPieces pieces = Ok b ->
   (forall p, In p pieces -> cellAt b (prow p) (pcol p) = Some (Some (player p))) /\
   (forall r c, isValidPosition r c = true -> ~ In (r, c) (map cellOf pieces) ->
      cellAt b r c = Some None) /\
   (forall r c, isValidPosition r c = false -> cellAt b r c = None)).
Proof.
  destruct (placePieces_spec pieces createEmptyBoard [] boardRepr_empty (NoDup_nil _))
    as [Hok Herr].
  simpl app in Hok, Herr; fold (getBoardFromPieces pieces) in Hok, Herr.
  split; [|split].
  - split.
    + intros [e He]; destruct (Herr e He) as (p & Hp & [[Hv _] | [_ (a & post & Heq & Hin)]]).
      * left; exists p; split; assumption.
      * right; rewrite Heq, map_app; simpl map; apply not_NoDup_dup; exact Hin.
    + intros H; destruct (getBoardFromPieces pieces) as [b|e] eqn:E; [|exists e; reflexivity].
      exfalso; destruct (Hok b eq_refl) as (_ & Hv & Hnd).
      destruct H as [(p & Hp & Hinv) | Hn]; [|contradiction].
      rewrite Forall_forall in Hv; specialize (Hv p Hp); unfold validPiece in Hv; congruence.
  - exact Herr.
  - intros b Hb; destruct (Hok b Hb) as (Hr & Hv & Hnd); split; [|split].
    + intros p Hp; rewrite Hr.
      rewrite Forall_forall in Hv; rewrite (Hv p Hp); f_equal.
      unfold ownerAt; destruct (find _ pieces) as [q|] eqn:E.
      * apply find_some in E; destruct E as [Hq He].
        apply andb_true_iff in He; rewrite !Z.eqb_eq in He.
        rewrite (NoDup_map_inj cellOf pieces q p Hnd Hq Hp); [reflexivity|].
        unfold cellOf; destruct He as [-> ->]; reflexivity.
      * apply (find_none _ _ E) in Hp; rewrite !Z.eqb_refl in Hp; discriminate.
    + intros r c Hvrc Hn; rewrite Hr, Hvrc; apply ownerAt_none in Hn; rewrite Hn; reflexivity.
    + intros r c Hvrc; rewrite Hr, Hvrc; reflexivity.
Qed.

(** ** C9: the transposition-table key *)

Lemma string_leb_trans (x y z : string) :
  String.leb x y = true -> String.leb y z = true -> String.leb x z = true.
Proof.
  revert y z; induction x as [|a x IH]; intros [|b y] [|c z];
    unfold String.leb; simpl String.compare; try (intros; discriminate); try reflexivity.
  unfold Ascii.compare.
  destruct (N.compare_spec (N_of_ascii a) (N_of_ascii b)),
           (N.compare_spec (N_of_ascii b) (N_of_ascii c)),
           (N.compare_spec (N_of_ascii a) (N_of_ascii c));
    try lia; try (intros; discriminate); try (intros; reflexivity).
  exact (IH y z).
Qed.

Lemma insertStr_perm (x : string) (l : list string) : Permutation (insertStr x l) (x :: l).
Proof.
  induction l as [|y l IH]; simpl; [reflexivity|].
  destruct (String.leb x y); [reflexivity|].
  rewrite IH; apply perm_swap.
Qed.

Lemma sortStrings_perm (l : list string) : Permutation (sortStrings l) l.
Proof.
  induction l as [|x l IH]; simpl; [reflexivity|].
  rewrite insertStr_perm, IH; reflexivity.
Qed.

Lemma insertStr_sorted (x : string) (l : list string) :
  StronglySorted strLe l -> StronglySorted strLe (insertStr x l).
Proof.
  induction l as [|y l IH]; intros Hs; simpl.
  - repeat constructor.
  - inversion Hs as [|? ? Hs' Hall]; subst.
    destruct (String.leb x y) eqn:Exy.
    + constructor; [exact Hs|]; constructor; [exact Exy|].
      rewrite Forall_forall in Hall |- *; intros w Hw.
      apply string_leb_trans with y; [exact Exy | exact (Hall w Hw)].
    + constructor; [apply IH; exact Hs'|].
      apply (Permutation_Forall (Permutation_sym (insertStr_perm x l))).
      constructor; [|exact Hall].
      destruct (String.leb_total y x) as [H | H]; [exact H | congruence].
Qed.

Lemma sortStrings_sorted (l : list string) : StronglySorted strLe (sortStrings l).
Proof.
  induction l as [|x l IH]; simpl; [constructor|]; apply insertStr_sorted, IH.
Qed.

Lemma sorted_perm_unique (l1 l2 : list string) :
  StronglySorted strLe l1 -> StronglySorted strLe l2 -> Permutation l1 l2 -> l1 = l2.
Proof.
  revert l2; induction l1 as [|x l1 IH]; intros l2 H1 H2 Hp.
  - symmetry; apply Permutation_nil, Hp.
  - destruct l2 as [|y l2]; [apply Permutation_sym, Permutation_nil in Hp; discriminate|].
    inversion H1 as [|? ? H1' A1]; inversion H2 as [|? ? H2' A2]; subst.
    assert (Hxy : x = y).
    { assert (Hx : In x (y :: l2)) by (apply (Permutation_in _ Hp); left; reflexivity).
      assert (Hy : In y (x :: l1)) by (apply (Permutation_in _ (Permutation_sym Hp)); left; reflexivity).
      destruct Hx as [-> | Hx]; [reflexivity|].
      destruct Hy as [-> | Hy]; [reflexivity|].
      rewrite Forall_forall in A1, A2.
      apply String.leb_antisym; [exact (A1 y Hy) | exact (A2 x Hx)]. }
    subst y; f_equal; apply IH; [exact H1' | exact H2' | exact (Permutation_cons_inv Hp)].
Qed.

Lemma sortStrings_perm_eq (l1 l2 : list string) :
  Permutation l1 l2 <-> sortStrings l1 = sortStrings l2.
Proof.
  split.
  - intros Hp; apply sorted_perm_unique; try apply sortStrings_sorted.
    rewrite !sortStrings_perm; exact Hp.
  - intros He; rewrite <- (sortStrings_perm l1), <- (sortStrings_perm l2), He; reflexivity.
Qed.

Lemma append_cancel (a b s t : string) :
  String.length a = String.length b -> (a ++ s)%string = (b ++ t)%string -> a = b /\ s = t.
Proof.
  revert b; induction a as [|x a IH]; intros [|y b] Hl He; try discriminate.
  - split; [reflexivity | exact He].
  - simpl in Hl, He; injection Hl as Hl; injection He as -> He.
    destruct (IH b Hl He) as [-> ->]; split; reflexivity.
Qed.

Lemma length_append (a b : string) :
  String.length (a ++ b) = (String.length a + String.length b)%nat.
Proof. induction a as [|x a IH]; simpl; [reflexivity | rewrite IH; reflexivity]. Qed.

Lemma joinStrings_inj (xs ys : list string) :
  Forall (fun s => String.length s = 3%nat) xs -> Forall (fun s => String.length s = 3%nat) ys ->
  joinStrings "|" xs = joinStrings "|" ys -> xs = ys.
Proof.
  revert ys; induction xs as [|x xs IH]; intros ys Hx Hy He.
  - destruct ys as [|y [|y' ys]]; [reflexivity | |];
      inversion Hy as [|? ? Hly]; subst; simpl in He;
      apply (f_equal String.length) in He; rewrite ?length_append in He; simpl in He; lia.
  - inversion Hx as [|? ? Hlx Hx']; subst.
    destruct ys as [|y ys]; [destruct xs; simpl in He;
      apply (f_equal String.length) in He; rewrite ?length_append in He; simpl in He; lia|].
    inversion Hy as [|? ? Hly Hy']; subst.
    destruct xs as [|x' xs], ys as [|y' ys].
    + simpl in He; rewrite He; reflexivity.
    + simpl joinStrings in He at 1; apply (f_equal String.length) in He;
        cbn [joinStrings] in He; rewrite ?length_append in He; simpl in He; lia.
    + apply (f_equal String.length) in He;
        cbn [joinStrings] in He; rewrite ?length_append in He; simpl in He; lia.
    + change (joinStrings "|" (x :: x' :: xs)) with (x ++ "|" ++ joinStrings "|" (x' :: xs))%string in He.
      change (joinStrings "|" (y :: y' :: ys)) with (y ++ "|" ++ joinStrings "|" (y' :: ys))%string in He.
      destruct (append_cancel x y _ _ ltac:(congruence) He) as [-> He'].
      injection He' as He'; rewrite (IH (y' :: ys) Hx' Hy' He'); reflexivity.
Qed.

Lemma board_coord (r : Z) : isValidPosition r 0 = true -> r = 0 \/ r = 1 \/ r = 2 \/ r = 3 \/ r = 4 \/ r = 5 \/ r = 6 \/ r = 7.
Proof. unfold isValidPosition, boardSize; rewrite !andb_true_iff, Z.leb_le, !Z.ltb_lt; lia. Qed.

Lemma valid_coords (r c : Z) : isValidPosition r c = true ->
  isValidPosition r 0 = true /\ isValidPosition c 0 = true.
Proof. unfold isValidPosition, boardSize; rewrite !andb_true_iff, !Z.leb_le, !Z.ltb_lt; lia. Qed.

Lemma pieceKey_valid (p : PieceWithId) :
  validPiece p -> String.length (pieceKey p) = 3%nat /\ keyTriple (pieceKey p) = pieceTriple p.
Proof.
  destruct p as [i pl r c]; unfold validPiece, pieceKey, pieceTriple; cbn [prow pcol player].
  intros H; destruct (valid_coords _ _ H) as [Hr Hc]; apply board_coord in Hr, Hc.
  destruct pl;
    destruct Hr as [-> | [-> | [-> | [-> | [-> | [-> | [-> | ->]]]]]]];
    destruct Hc as [-> | [-> | [-> | [-> | [-> | [-> | [-> | ->]]]]]]];
    split; reflexivity.
Qed.

Lemma map_pieceKey (l : list PieceWithId) : map pieceKey l = map tripleKey (map pieceTriple l).
Proof. rewrite map_map; apply map_ext; intros [i pl r c]; reflexivity. Qed.

(** Claim C9: on the piece lists the search can be given (every piece on the
    8x8 board: [createBoardFromPieces] rejects any other list before the
    table is used), two lists get the same key exactly when their
    (owner, row, col) triples form the same multiset; ids and order do not
    matter. *)
Theorem getKey_onboard (l1 l2 : list PieceWithId)
  (H1 : Forall validPiece l1) (H2 : Forall validPiece l2) :
  getKey l1 = getKey l2 <-> Permutation (map pieceTriple l1) (map pieceTriple l2).
Proof.
  assert (Hlen : forall l, Forall validPiece l ->
            Forall (fun s => String.length s = 3%nat) (sortStrings (map pieceKey l))).
  { intros l Hl; apply (Permutation_Forall (Permutation_sym (sortStrings_perm _))).
    apply Forall_map; apply (Forall_impl _ (fun p Hp => proj1 (pieceKey_valid p Hp)) Hl). }
  assert (Hdec : forall l, Forall validPiece l -> map keyTriple (map pieceKey l) = map pieceTriple l).
  { intros l Hl; rewrite map_map; apply map_ext_in; intros p Hp.
    rewrite Forall_forall in Hl; exact (proj2 (pieceKey_valid p (Hl p Hp))). }
  split.
  - intros He; unfold getKey in He.
    apply joinStrings_inj in He; [|apply Hlen, H1 | apply Hlen, H2].
    apply sortStrings_perm_eq, (Permutation_map keyTriple) in He.
    rewrite (Hdec l1 H1), (Hdec l2 H2) in He; exact He.
  - intros Hp; unfold getKey; f_equal; apply sortStrings_perm_eq.
    rewrite !map_pieceKey; apply Permutation_map, Hp.
Qed.

Lemma getKey_onboard_witness :
  Forall validPiece [mkPiece "A-1" A 0 1; mkPiece "B-1" B 7 6] /\
  Forall validPiece [mkPiece "B-9" B 7 6; mkPiece "A-9" A 0 1] /\
  (getKey [mkPiece "A-1" A 0 1; mkPiece "B-1" B 7 6] =
   getKey [mkPiece "B-9" B 7 6; mkPiece "A-9" A 0 1] <->
   Permutation (map pieceTriple [mkPiece "A-1" A 0 1; mkPiece "B-1" B 7 6])
               (map pieceTriple [mkPiece "B-9" B 7 6; mkPiece "A-9" A 0 1])).
Proof.
  assert (H1 : Forall validPiece [mkPiece "A-1" A 0 1; mkPiece "B-1" B 7 6])
    by (repeat constructor).
  assert (H2 : Forall validPiece [mkPiece "B-9" B 7 6; mkPiece "A-9" A 0 1])
    by (repeat constructor).
  split; [exact H1 | split; [exact H2 | exact (getKey_onboard _ _ H1 H2)]].
Defined.

(** ** C10: the evaluation is zero-sum *)

(** Claim C10: the evaluation of a position for A is the negation of its
    evaluation for B; every heuristic enters as (player - opponent) times a
    weight. *)
Theorem evaluatePosition_zero_sum (board : Board) (pieces : list PieceWithId) :
  evaluatePosition board pieces A == - evaluatePosition board pieces B.
Proof.
  unfold evaluatePosition, opponentOf; cbv zeta; ring.
Qed.

(** ** C3: the goal-distance heuristic *)

Lemma fold_left_sum {T : Type} (f : T -> Z) (l : list T) (a : Z) :
  fold_left (fun acc x => acc + f x) l a = a + fold_right Z.add 0 (map f l).
Proof.
  revert a; induction l as [|x l IH]; intros a; simpl; [lia|].
  rewrite IH; lia.
Qed.

Lemma fold_right_min_shift (x y : Z) (t : list Z) :
  fold_right Z.min (Z.min x y) t = Z.min y (fold_right Z.min x t).
Proof. induction t as [|z t IH]; simpl; [lia | rewrite IH; lia]. Qed.

Lemma mathMin_minOf (xs : list Z) : mathMin xs = minOf xs.
Proof.
  destruct xs as [|x t]; [reflexivity|]; simpl.
  revert x; induction t as [|y t IH]; intros x; simpl; [reflexivity|].
  rewrite IH; apply fold_right_min_shift.
Qed.

Lemma getGoalCornerPositions_rect (pl : PlayerType) :
  getGoalCornerPositions pl = map (fun '(r, c) => mkPos r c) (specGoalRect pl (mkCorner 3 3)).
Proof. destruct pl; reflexivity. Qed.

Lemma minGoalDistance_spec (p : PieceWithId) (pl : PlayerType) :
  minGoalDistance p (getGoalCornerPositions pl) = specPieceGoalDistance p pl (mkCorner 3 3).
Proof.
  unfold minGoalDistance, specPieceGoalDistance; rewrite getGoalCornerPositions_rect, map_map.
  rewrite mathMin_minOf; f_equal; apply map_ext; intros [r c]; reflexivity.
Qed.

(** Claim C3 (as it holds): the goal distance the evaluator computes takes no
    corner shape; for every piece list and player it is the negative mean
    distance to the fixed 3x3 goal block (rows and cols 5-7 for A, 0-2 for B),
    which is the spec's value for the 3x3 shape whatever shape is configured;
    with no pieces of the player it is 0. *)
Theorem evaluateGoalDistance_fixed_3x3 (pieces : list PieceWithId) (pl : PlayerType) :
  evaluateGoalDistance pieces pl == specGoalDistance pieces pl (mkCorner 3 3).
Proof.
  unfold evaluateGoalDistance, specGoalDistance, piecesOf; cbv zeta.
  destruct (filter (fun p => PlayerType_eqb (player p) pl) pieces) as [|q own] eqn:E;
    [reflexivity|].
  simpl List.length; cbn [Nat.eqb]; cbv iota.
  rewrite fold_left_sum, Z.add_0_l.
  rewrite (map_ext (fun p => minGoalDistance p (getGoalCornerPositions pl))
                   (fun p => specPieceGoalDistance p pl (mkCorner 3 3)))
    by (intros; apply minGoalDistance_spec).
  reflexivity.
Qed.

(** Claim C3, counterexample: for the 4x4 shape, A's goal rectangle is rows
    and cols 4-7, so a lone piece of A on (4, 4) is at distance 0 from it;
    the evaluator, which only knows the 3x3 block, scores it -2. *)
Lemma evaluateGoalDistance_ignores_shape :
  evaluateGoalDistance [mkPiece "A-1" A 4 4] A == -2 /\
  specGoalDistance [mkPiece "A-1" A 4 4] A (mkCorner 4 4) == 0 /\
  ~ (evaluateGoalDistance [mkPiece "A-1" A 4 4] A ==
     specGoalDistance [mkPiece "A-1" A 4 4] A (mkCorner 4 4)).
Proof.
  split; [reflexivity | split; [reflexivity|]].
  intros H; vm_compute in H; discriminate H.
Qed.

(** ** The search *)

Lemma negamax_unfold (timeUp : nat -> bool) depth board pieces alpha beta pl corner s
  (Htime : forall k, timeUp k = false) :
  exists s', transpositionTable s' = transpositionTable s /\
  negamax timeUp depth board pieces alpha beta pl corner s =
  (match ttProbe (ttGet pieces (transpositionTable s)) depth alpha beta with
   | inl score => ret score
   | inr (alpha1, beta1) =>
       if hasPlayerWon pieces pl corner then ret (inject_Z (WIN_SCORE + Z.of_nat depth))
       else if hasPlayerWon pieces (opponentOf pl) corner
       then ret (inject_Z (- WIN_SCORE - Z.of_nat depth))
       else
         match depth with
         | O => ret (evaluatePosition board pieces pl)
         | S d =>
             if negb (hasAnyValidMoves board pieces pl) then ret 0%Q else
             let moves := getOrderedMoves board pieces pl in
             res <- negamaxLoop (fun b p a bt pl' => negamax timeUp d b p a bt pl' corner)
                      pieces pl moves (inject_Z (- INFINITY)) None alpha1 beta1 ;;
             let '(bestScore, bestMove, alpha2) := res in
             _ <- modify (fun s => setTable
                    (ttSet pieces (mkEntry depth bestScore (boundFlag bestScore alpha2 beta1) bestMove)
                       (transpositionTable s)) s) ;;
             ret bestScore
         end
   end) s'.
Proof.
  destruct depth; cbn [negamax]; unfold bind at 1 2 3;
    cbn [modify gets incNodes nodesSearched transpositionTable];
    (destruct ((nodesSearched s + 1) mod 1000 =? 0);
     [unfold isTimeUp at 1; rewrite Htime; unfold bind at 1; cbn | unfold ret at 1; cbn]);
    (eexists; split; [|reflexivity]; reflexivity).
Qed.

Lemma Qle_bool_refl (q : Q) : Qle_bool q q = true.
Proof. apply Qle_bool_iff, Qle_refl. Qed.

Lemma Qle_bool_jsMax (a b : Q) : Qle_bool b (jsMax a b) = true.
Proof.
  unfold jsMax; destruct (Qle_bool a b) eqn:E; [apply Qle_bool_refl|].
  apply Qle_bool_iff; apply Qlt_le_weak, Qnot_le_lt.
  intros H; apply Qle_bool_iff in H; congruence.
Qed.

Lemma negamaxLoop_best_le rec pieces pl moves :
  forall best bm alpha beta s r s',
  negamaxLoop rec pieces pl moves best bm alpha beta s = (Ok r, s') ->
  moves <> [] \/ Qle_bool best alpha = true ->
  Qle_bool (fst (fst r)) (snd r) = true.
Proof.
  induction moves as [|mv rest IH]; intros best bm alpha beta s r s' Hrun Hne.
  - injection Hrun as <- _; destruct Hne as [Hne | Hle]; [congruence | exact Hle].
  - cbn [negamaxLoop] in Hrun; unfold bind at 1, liftResult in Hrun.
    destruct (createBoardFromPieces _) as [nb | e]; [|discriminate].
    unfold bind at 1 in Hrun.
    destruct (rec _ _ _ _ _ s) as [[x | e] s1]; [|discriminate].
    set (best' := if Qlt_bool best (Qopp x) then Qopp x else best) in *.
    assert (Hb : Qle_bool best' (jsMax alpha best') = true) by apply Qle_bool_jsMax.
    destruct (Qlt_bool best (Qopp x)); subst best'; cbv zeta in Hrun;
      (destruct (Qle_bool beta (jsMax alpha _)) eqn:Ecut;
       [unfold ret in Hrun; injection Hrun as <- _; exact Hb
       | exact (IH _ _ _ _ _ _ _ Hrun (or_intror Hb))]).
Qed.

Lemma mapGet_mapSet (k : string) (v : TranspositionEntry) (m : TTable) :
  mapGet k (mapSet k v m) = Some v.
Proof.
  unfold mapGet, mapSet.
  destruct (existsb (fun kv => String.eqb (fst kv) k) m) eqn:E.
  - induction m as [|[k' v'] m IH]; [discriminate|].
    cbn [existsb fst] in E; cbn [map fst].
    destruct (String.eqb k' k) eqn:Ek; cbn [find fst].
    + rewrite String.eqb_refl; reflexivity.
    + rewrite Ek; exact (IH E).
  - induction m as [|[k' v'] m IH]; cbn [app find fst].
    + rewrite String.eqb_refl; reflexivity.
    + cbn [existsb fst] in E; apply orb_false_iff in E; destruct E as [Ek E].
      rewrite Ek; exact (IH E).
Qed.

Lemma ttGet_ttSet (pieces : list PieceWithId) (e : TranspositionEntry) (m : TTable) :
  ttGet pieces (ttSet pieces e m) = Some e.
Proof. unfold ttGet, ttSet; apply mapGet_mapSet. Qed.

Lemma length_sortByScore (l : list OrderedMove) : List.length (sortByScore l) = List.length l.
Proof.
  assert (Hi : forall x t, List.length (insertByScore x t) = S (List.length t)).
  { intros x t; induction t as [|y t IH]; simpl; [reflexivity|].
    destruct (oscore x <? oscore y); simpl; [rewrite IH|]; reflexivity. }
  induction l as [|x l IH]; simpl; [reflexivity | rewrite Hi, IH; reflexivity].
Qed.

Lemma getOrderedMoves_nonempty (board : Board) (pieces : list PieceWithId) (pl : PlayerType) :
  hasAnyValidMoves board pieces pl = true -> getOrderedMoves board pieces pl <> [].
Proof.
  unfold hasAnyValidMoves, getOrderedMoves; intros H Hnil.
  apply (f_equal (@List.length OrderedMove)) in Hnil; rewrite length_sortByScore in Hnil.
  apply existsb_exists in H; destruct H as (piece & Hin & Hlt).
  destruct (getValidMoves board (piecePos piece)) as [|mv mvs] eqn:Emv;
    [discriminate|].
  assert (Hx : In (mkOrderedMove piece (mkPos (row mv) (col mv))
                 (quickEvaluateMove (mkPos (prow piece) (pcol piece)) (mkPos (row mv) (col mv)) pl))
               (flat_map (fun piece =>
                  map (fun mv =>
                    mkOrderedMove piece (mkPos (row mv) (col mv))
                      (quickEvaluateMove (mkPos (prow piece) (pcol piece)) (mkPos (row mv) (col mv)) pl))
                    (getValidMoves board (piecePos piece))) (piecesOf pieces pl))).
  { apply in_flat_map; exists piece; split; [exact Hin|]; rewrite Emv; left; reflexivity. }
  destruct (flat_map _ _); [contradiction | discriminate].
Qed.

(** Claim C6: with the clock not run out and no table entry that ends the
    call, [negamax] returns WIN_SCORE + depth when the side to move has won,
    -WIN_SCORE - depth when (only) the opponent has won, and 0 when neither
    has won, depth is positive and the side to move has no legal move. *)
Theorem negamax_terminal (timeUp : nat -> bool) (depth : nat) (board : Board)
  (pieces : list PieceWithId) (alpha beta : Q) (pl : PlayerType) (corner : CornerShape)
  (s : AIState)
  (Htime : forall k, timeUp k = false)
  (Hprobe : forall v, ttProbe (ttGet pieces (transpositionTable s)) depth alpha beta <> inl v) :
  (hasPlayerWon pieces pl corner = true ->
   fst (negamax timeUp depth board pieces alpha beta pl corner s) =
   Ok (inject_Z (WIN_SCORE + Z.of_nat depth))) /\
  (hasPlayerWon pieces pl corner = false ->
   hasPlayerWon pieces (opponentOf pl) corner = true ->
   fst (negamax timeUp depth board pieces alpha beta pl corner s) =
   Ok (inject_Z (- WIN_SCORE - Z.of_nat depth))) /\
  (hasPlayerWon pieces pl corner = false ->
   hasPlayerWon pieces (opponentOf pl) corner = false ->
   (0 < depth)%nat -> hasAnyValidMoves board pieces pl = false ->
   fst (negamax timeUp depth board pieces alpha beta pl corner s) = Ok 0%Q).
Proof.
  destruct (negamax_unfold timeUp depth board pieces alpha beta pl corner s Htime)
    as (s' & _ & ->).
  destruct (ttProbe (ttGet pieces (transpositionTable s)) depth alpha beta) as [v | [a b]] eqn:E;
    [exfalso; exact (Hprobe v eq_refl)|].
  split; [|split].
  - intros H; rewrite H; reflexivity.
  - intros H1 H2; rewrite H1, H2; reflexivity.
  - intros H1 H2 Hd Hm; rewrite H1, H2; destruct depth as [|d]; [lia|].
    rewrite Hm; reflexivity.
Qed.

Lemma negamax_terminal_witness :
  (forall k, noTimeUp k = false) /\
  (forall v, ttProbe (ttGet nineA (transpositionTable (newAIPlayer easyConfig))) 2
               (inject_Z (- INFINITY)) (inject_Z INFINITY) <> inl v) /\
  fst (negamax noTimeUp 2 (boardOf nineA) nineA (inject_Z (- INFINITY)) (inject_Z INFINITY)
         A (mkCorner 3 3) (newAIPlayer easyConfig)) =
  Ok (inject_Z (WIN_SCORE + Z.of_nat 2)).
Proof.
  assert (Ht : forall k, noTimeUp k = false) by reflexivity.
  assert (Hp : forall v, ttProbe (ttGet nineA (transpositionTable (newAIPlayer easyConfig))) 2
               (inject_Z (- INFINITY)) (inject_Z INFINITY) <> inl v)
    by (intros v H; discriminate H).
  split; [exact Ht | split; [exact Hp|]].
  apply (proj1 (negamax_terminal noTimeUp 2 (boardOf nineA) nineA _ _ A (mkCorner 3 3) _ Ht Hp)).
  vm_compute; reflexivity.
Defined.

(** Claim C2, as the code has it: a node that runs its move loop stores its
    best score with bound type [Upperbound], whatever the window it was
    entered with: the flag compares the best score with [alpha] after the
    loop has raised [alpha] to at least the best score. *)
Theorem negamax_stores_upperbound (timeUp : nat -> bool) (d : nat) (board : Board)
  (pieces : list PieceWithId) (alpha beta alpha1 beta1 v : Q) (pl : PlayerType)
  (corner : CornerShape) (s : AIState)
  (Htime : forall k, timeUp k = false)
  (Hprobe : ttProbe (ttGet pieces (transpositionTable s)) (S d) alpha beta = inr (alpha1, beta1))
  (Hwin : hasPlayerWon pieces pl corner = false)
  (Hlose : hasPlayerWon pieces (opponentOf pl) corner = false)
  (Hmoves : hasAnyValidMoves board pieces pl = true)
  (Hok : fst (negamax timeUp (S d) board pieces alpha beta pl corner s) = Ok v) :
  exists bm,
    ttGet pieces (transpositionTable (snd (negamax timeUp (S d) board pieces alpha beta pl corner s)))
    = Some (mkEntry (S d) v Upperbound bm).
Proof.
  destruct (negamax_unfold timeUp (S d) board pieces alpha beta pl corner s Htime)
    as (s' & _ & Hun).
  rewrite Hun in Hok |- *; rewrite Hprobe in Hok |- *.
  rewrite Hwin, Hlose, Hmoves in Hok |- *; cbn [negb] in Hok |- *; cbv zeta in Hok |- *.
  unfold bind at 1 in Hok; unfold bind at 1.
  destruct (negamaxLoop _ pieces pl (getOrderedMoves board pieces pl) _ None alpha1 beta1 s')
    as [[r | e] s''] eqn:Eloop; [|discriminate].
  destruct r as [[b bm] a2].
  assert (Hle : Qle_bool b a2 = true).
  { exact (negamaxLoop_best_le _ _ _ _ _ _ _ _ _ _ _ Eloop
             (or_introl (getOrderedMoves_nonempty _ _ _ Hmoves))). }
  cbn in Hok; injection Hok as <-.
  exists bm; unfold boundFlag; rewrite Hle.
  unfold bind, modify, ret; cbn [snd transpositionTable setTable].
  apply ttGet_ttSet.
Qed.

Lemma negamax_stores_upperbound_witness :
  (forall k, noTimeUp k = false) /\
  ttProbe (ttGet [mkPiece "A-1" A 0 0; mkPiece "B-1" B 7 7] []) 1
    (inject_Z (- INFINITY)) (inject_Z INFINITY) = inr (inject_Z (- INFINITY), inject_Z INFINITY) /\
  hasPlayerWon [mkPiece "A-1" A 0 0; mkPiece "B-1" B 7 7] A (mkCorner 3 3) = false /\
  hasPlayerWon [mkPiece "A-1" A 0 0; mkPiece "B-1" B 7 7] (opponentOf A) (mkCorner 3 3) = false /\
  hasAnyValidMoves (boardOf [mkPiece "A-1" A 0 0; mkPiece "B-1" B 7 7])
    [mkPiece "A-1" A 0 0; mkPiece "B-1" B 7 7] A = true /\
  fst (negamax noTimeUp 1 (boardOf [mkPiece "A-1" A 0 0; mkPiece "B-1" B 7 7])
         [mkPiece "A-1" A 0 0; mkPiece "B-1" B 7 7] (inject_Z (- INFINITY)) (inject_Z INFINITY)
         A (mkCorner 3 3) (newAIPlayer easyConfig)) = Ok (68 # 4) /\
  exists bm,
    ttGet [mkPiece "A-1" A 0 0; mkPiece "B-1" B 7 7]
      (transpositionTable (snd (negamax noTimeUp 1 (boardOf [mkPiece "A-1" A 0 0; mkPiece "B-1" B 7 7])
         [mkPiece "A-1" A 0 0; mkPiece "B-1" B 7 7] (inject_Z (- INFINITY)) (inject_Z INFINITY)
         A (mkCorner 3 3) (newAIPlayer easyConfig))))
    = Some (mkEntry 1 (68 # 4) Upperbound bm).
Proof.
  assert (Ht : forall k, noTimeUp k = false) by reflexivity.
  assert (Hp : ttProbe (ttGet [mkPiece "A-1" A 0 0; mkPiece "B-1" B 7 7] []) 1
    (inject_Z (- INFINITY)) (inject_Z INFINITY) = inr (inject_Z (- INFINITY), inject_Z INFINITY))
    by reflexivity.
  assert (Hw : hasPlayerWon [mkPiece "A-1" A 0 0; mkPiece "B-1" B 7 7] A (mkCorner 3 3) = false)
    by (vm_compute; reflexivity).
  assert (Hl : hasPlayerWon [mkPiece "A-1" A 0 0; mkPiece "B-1" B 7 7] (opponentOf A) (mkCorner 3 3) = false)
    by (vm_compute; reflexivity).
  assert (Hm : hasAnyValidMoves (boardOf [mkPiece "A-1" A 0 0; mkPiece "B-1" B 7 7])
    [mkPiece "A-1" A 0 0; mkPiece "B-1" B 7 7] A = true) by (vm_compute; reflexivity).
  assert (Hk : fst (negamax noTimeUp 1 (boardOf [mkPiece "A-1" A 0 0; mkPiece "B-1" B 7 7])
         [mkPiece "A-1" A 0 0; mkPiece "B-1" B 7 7] (inject_Z (- INFINITY)) (inject_Z INFINITY)
         A (mkCorner 3 3) (newAIPlayer easyConfig)) = Ok (68 # 4)) by (vm_compute; reflexivity).
  split; [exact Ht | split; [exact Hp | split; [exact Hw | split; [exact Hl | split; [exact Hm | split; [exact Hk|]]]]]].
  exact (negamax_stores_upperbound noTimeUp 0 _ _ _ _ _ _ _ A (mkCorner 3 3) (newAIPlayer easyConfig)
           Ht Hp Hw Hl Hm Hk).
Defined.

(** The node of the witness above is entered with the window
    (-INFINITY, INFINITY) and its best score 17 lies strictly inside it: the
    rule "upper bound if the best score is at most the entry alpha, lower
    bound if at least beta, exact otherwise" gives [Exact] there, while the
    table holds [Upperbound]. *)
Lemma negamax_flag_example :
  boundFlag (68 # 4) (inject_Z (- INFINITY)) (inject_Z INFINITY) = Exact /\
  (exists bm,
    ttGet [mkPiece "A-1" A 0 0; mkPiece "B-1" B 7 7]
      (transpositionTable (snd (negamax noTimeUp 1 (boardOf [mkPiece "A-1" A 0 0; mkPiece "B-1" B 7 7])
         [mkPiece "A-1" A 0 0; mkPiece "B-1" B 7 7] (inject_Z (- INFINITY)) (inject_Z INFINITY)
         A (mkCorner 3 3) (newAIPlayer easyConfig))))
    = Some (mkEntry 1 (68 # 4) Upperbound bm)).
Proof.
  split; [reflexivity|].
  eexists; vm_compute; reflexivity.
Qed.

(* ------------------------------------------------------------------ *)
(** * Proofs about the rest of the code *)

Lemma msync_push (moves visited : list Position) (np : Position) :
  msync (moves, visited) -> ~ In np visited -> msync (moves ++ [np], np :: visited).
Proof.
  intros [Hnd Hiff] Hn; cbn [fst snd] in *; split; cbn [fst snd].
  - apply NoDup_snoc; [exact Hnd | rewrite Hiff; exact Hn].
  - intros x; rewrite in_app_iff, Hiff; simpl; tauto.
Qed.

Lemma addAdjacentLoop_msync (board : Board) (p : Position) :
  forall ds st, msync st -> msync (addAdjacentLoop board p ds st).
Proof.
  induction ds as [|[dr dc] ds IH]; intros [moves visited] H; simpl; [exact H|].
  apply IH.
  destruct (isValidPosition (row p + dr) (col p + dc) && isCellEmpty board (row p + dr) (col p + dc));
    [|exact H].
  destruct (mem (mkPos (row p + dr) (col p + dc)) visited) eqn:E; [exact H|].
  apply msync_push; [exact H | apply mem_false, E].
Qed.

Lemma jumpMovesLoop_msync (board : Board) (from : Position) rec :
  (forall jt st, msync st -> msync (rec jt st)) ->
  forall ds st, msync st -> msync (jumpMovesLoop rec board from ds st).
Proof.
  intros Hrec; induction ds as [|d ds IH]; intros [moves visited] H; simpl; [exact H|].
  apply IH.
  destruct (jumpOK board from d); [|exact H].
  destruct (mem (jumpTarget from d) visited) eqn:E; [exact H|].
  apply Hrec, msync_push; [exact H | apply mem_false, E].
Qed.

Lemma findJumpMoves_msync (board : Board) :
  forall n from st, msync st -> msync (findJumpMoves n board from st).
Proof.
  induction n as [|f IH]; intros from st H; [exact H|].
  apply jumpMovesLoop_msync; [intros jt st'; apply IH | exact H].
Qed.

Lemma getValidMoves_msync (board : Board) (o : Position) :
  msync (findJumpMoves SEARCH_FUEL board o (addAdjacentMoves board o ([], []))).
Proof.
  apply findJumpMoves_msync, addAdjacentLoop_msync.
  split; [constructor | intros x; simpl; tauto].
Qed.

Lemma jumpMovesLoop_complete (board : Board) (from : Position) (f : nat) rec
    (v : list Position) :
  (forall jp st0, (65 <= f + countVisited (snd st0))%nat ->
     incl (snd st0) (snd (rec jp st0)) /\ jclosed board (snd st0) (snd (rec jp st0)) /\
     (forall y, jumpEdge board jp y -> In y (snd (rec jp st0)))) ->
  (65 <= S f + countVisited v)%nat ->
  forall ds st, incl v (snd st) -> jclosed board v (snd st) ->
  incl (snd st) (snd (jumpMovesLoop rec board from ds st)) /\
  jclosed board v (snd (jumpMovesLoop rec board from ds st)) /\
  (forall d, In d ds -> jumpOK board from d = true ->
   In (jumpTarget from d) (snd (jumpMovesLoop rec board from ds st))).
Proof.
  intros Hrec Hfuel; induction ds as [|d ds IH]; intros [moves vk] Hvk Hcl; cbn [snd] in Hvk, Hcl.
  - simpl; split; [apply incl_refl | split; [exact Hcl | intros _ []]].
  - cbn [jumpMovesLoop].
    set (jt := jumpTarget from d).
    destruct (jumpOK board from d) eqn:Hj.
    + destruct (mem jt vk) eqn:Hm.
      * destruct (IH (moves, vk) Hvk Hcl) as (Hi3 & Hcl3 & Hds).
        split; [exact Hi3|]; split; [exact Hcl3|].
        intros d' [<- | Hd'] Hj'; [apply Hi3, mem_spec, Hm | exact (Hds d' Hd' Hj')].
      * apply mem_false in Hm.
        set (st1 := rec jt (moves ++ [jt], jt :: vk)).
        assert (Hcount : (countVisited v < countVisited (jt :: vk))%nat).
        { apply countVisited_step; [apply (jumpOK_landing board from d Hj) | |exact Hvk].
          intros Hin; apply Hm, Hvk, Hin. }
        destruct (Hrec jt (moves ++ [jt], jt :: vk) ltac:(cbn [snd]; lia)) as (Hi2 & Hcl2 & Hjt).
        fold st1 in Hi2, Hcl2, Hjt; cbn [snd] in Hi2, Hcl2.
        assert (Hvk2 : incl vk (snd st1)) by (intros y Hy; apply Hi2; right; exact Hy).
        assert (Hcl1 : jclosed board v (snd st1)).
        { intros x Hx Hxv; destruct (In_dec_pos x (jt :: vk)) as [[<- | Hxk] | Hxk].
          - exact Hjt.
          - intros y Hy; apply Hvk2, (Hcl x Hxk Hxv y Hy).
          - exact (Hcl2 x Hx Hxk). }
        destruct (IH st1 (incl_tran Hvk Hvk2) Hcl1) as (Hi3 & Hcl3 & Hds).
        split; [exact (incl_tran Hvk2 Hi3)|]; split; [exact Hcl3|].
        intros d' [<- | Hd'] Hj'; [apply Hi3, Hi2; left; reflexivity | exact (Hds d' Hd' Hj')].
    + destruct (IH (moves, vk) Hvk Hcl) as (Hi3 & Hcl3 & Hds).
      split; [exact Hi3|]; split; [exact Hcl3|].
      intros d' [<- | Hd'] Hj'; [congruence | exact (Hds d' Hd' Hj')].
Qed.

Lemma findJumpMoves_complete (board : Board) :
  forall n from st, (65 <= n + countVisited (snd st))%nat ->
  incl (snd st) (snd (findJumpMoves n board from st)) /\
  jclosed board (snd st) (snd (findJumpMoves n board from st)) /\
  (forall y, jumpEdge board from y -> In y (snd (findJumpMoves n board from st))).
Proof.
  induction n as [|f IH]; intros from st Hfuel.
  - pose proof (countVisited_le (snd st)); lia.
  - cbn [findJumpMoves].
    destruct (jumpMovesLoop_complete board from f (findJumpMoves f board) (snd st)
                (fun jp st0 H => IH jp st0 H) Hfuel DIRECTION_ARRAY st (incl_refl _)
                ltac:(intros x Hx1 Hx2; contradiction)) as (Hi & Hcl & Hds).
    split; [exact Hi|]; split; [exact Hcl|].
    intros y (d & Hd & Hj & ->); exact (Hds d Hd Hj).
Qed.

(** Jumps keep the colour of a cell (the parity of row + col), steps change it. *)
Lemma jumpEdge_parity (board : Board) (p q : Position) :
  jumpEdge board p q -> Z.even (row q + col q) = Z.even (row p + col p).
Proof.
  intros (d & _ & _ & ->); unfold jumpTarget; cbn [row col].
  replace (row p + fst d * 2 + (col p + snd d * 2)) with (row p + col p + 2 * (fst d + snd d)) by ring.
  apply Z.even_add_mul_2.
Qed.

Lemma clos_trans_parity (board : Board) (p q : Position) :
  clos_trans _ (jumpEdge board) p q -> Z.even (row q + col q) = Z.even (row p + col p).
Proof.
  intros H; induction H as [x y Hxy | x y z _ IH1 _ IH2];
    [apply (jumpEdge_parity _ _ _ Hxy) | congruence].
Qed.

Lemma adjacent_parity (p q : Position) :
  isAdjacentMove p q = true -> Z.even (row q + col q) = negb (Z.even (row p + col p)).
Proof.
  unfold isAdjacentMove; rewrite orb_true_iff, !andb_true_iff, !Z.eqb_eq; intros H.
  assert (E : row q + col q = row p + col p + 1 \/ row q + col q = row p + col p - 1) by lia.
  destruct E as [-> | ->]; [rewrite Z.even_add; reflexivity|].
  rewrite Z.even_sub; destruct (Z.even (row p + col p)); reflexivity.
Qed.

Lemma adjacent_direction (p q : Position) :
  isAdjacentMove p q = true ->
  exists d, In d DIRECTION_ARRAY /\ q = mkPos (row p + fst d) (col p + snd d).
Proof.
  unfold isAdjacentMove; rewrite orb_true_iff, !andb_true_iff, !Z.eqb_eq; intros H.
  destruct q as [qr qc]; cbn [row col] in *.
  assert (E : (qr = row p - 1 /\ qc = col p) \/ (qr = row p + 1 /\ qc = col p) \/
              (qr = row p /\ qc = col p - 1) \/ (qr = row p /\ qc = col p + 1)) by lia.
  destruct E as [[-> ->] | [[-> ->] | [[-> ->] | [-> ->]]]];
    [exists (-1, 0) | exists (1, 0) | exists (0, -1) | exists (0, 1)];
    (split; [simpl; tauto | f_equal; simpl; ring]).
Qed.

Lemma addAdjacentLoop_complete (board : Board) (p : Position) :
  forall ds st d, In d ds ->
  isValidPosition (row p + fst d) (col p + snd d) = true ->
  isCellEmpty board (row p + fst d) (col p + snd d) = true ->
  In (mkPos (row p + fst d) (col p + snd d)) (snd (addAdjacentLoop board p ds st)) /\
  incl (snd st) (snd (addAdjacentLoop board p ds st)).
Proof.
  assert (Hmono : forall ds st, incl (snd st) (snd (addAdjacentLoop board p ds st))).
  { induction ds as [|[dr dc] ds IH]; intros [moves visited]; simpl; [apply incl_refl|].
    eapply incl_tran; [|apply IH].
    destruct (isValidPosition (row p + dr) (col p + dc) && isCellEmpty board (row p + dr) (col p + dc));
      [destruct (mem (mkPos (row p + dr) (col p + dc)) visited)|]; simpl;
      try apply incl_refl; apply incl_tl, incl_refl. }
  induction ds as [|[dr dc] ds IH]; intros [moves visited] d Hd Hv He; [destruct Hd|].
  split; [|apply Hmono].
  destruct Hd as [<- | Hd]; [|apply IH; assumption].
  simpl; cbn [fst snd] in Hv, He; rewrite Hv, He; simpl.
  apply Hmono.
  destruct (mem (mkPos (row p + dr) (col p + dc)) visited) eqn:E; [apply mem_spec, E | left; reflexivity].
Qed.

(** The characterisation of the move generator. *)
Lemma getValidMoves_iff (board : Board) (o t : Position) :
  In t (getValidMoves board o) <->
  (isAdjacentMove o t = true /\ isValidPosition (row t) (col t) = true /\
   isCellEmpty board (row t) (col t) = true) \/
  clos_trans _ (jumpEdge board) o t.
Proof.
  split; [apply getValidMoves_sound|].
  set (st0 := addAdjacentMoves board o ([], [])).
  set (st1 := findJumpMoves SEARCH_FUEL board o st0).
  assert (Hs1 : msync st1) by apply getValidMoves_msync.
  assert (Hs0 : msync st0) by (apply addAdjacentLoop_msync; split; [constructor | simpl; tauto]).
  destruct (findJumpMoves_complete board SEARCH_FUEL o st0 ltac:(unfold SEARCH_FUEL; lia))
    as (Hi & Hcl & Hsucc).
  fold st1 in Hi, Hcl, Hsucc.
  assert (Hadj0 : forall x, In x (snd st0) -> isAdjacentMove o x = true).
  { intros x Hx; apply (proj2 Hs0) in Hx.
    destruct (addAdjacentLoop_sound board o DIRECTION_ARRAY ([], []) (incl_refl _) x Hx)
      as [[] | (H & _)]; exact H. }
  unfold getValidMoves; fold st0 st1.
  intros H; apply (proj2 Hs1).
  destruct H as [(Ha & Hv & He) | Hr].
  - destruct (adjacent_direction o t Ha) as (d & Hd & ->).
    apply Hi, (proj1 (addAdjacentLoop_complete board o DIRECTION_ARRAY ([], []) d Hd Hv He)).
  - apply clos_trans_tn1 in Hr.
    induction Hr as [y Hy | y z Hyz Hr IH].
    + exact (Hsucc y Hy).
    + apply (Hcl y IH); [|exact Hyz].
      intros Hy0; apply Hadj0, adjacent_parity in Hy0.
      apply clos_tn1_trans, clos_trans_parity in Hr.
      rewrite Hr in Hy0; destruct (Z.even (row o + col o)); discriminate.
Qed.

(** X1: [isMoveValid] accepts exactly the adjacent steps onto an empty cell of the
    board and the destinations reachable by a chain of single orthogonal jumps. *)
Theorem isMoveValid_spec (board : Board) (from to : Position) :
  isMoveValid board from to = true <->
  (isAdjacentMove from to = true /\ isValidPosition (row to) (col to) = true /\
   isCellEmpty board (row to) (col to) = true) \/
  clos_trans _ (jumpEdge board) from to.
Proof.
  rewrite <- getValidMoves_iff; unfold isMoveValid; rewrite existsb_exists; split.
  - intros (mv & Hmv & He); apply andb_true_iff in He; rewrite !Z.eqb_eq in He.
    destruct mv as [r c], to as [r' c']; cbn in He; destruct He as [-> ->]; exact Hmv.
  - intros H; exists to; split; [exact H | rewrite !Z.eqb_refl; reflexivity].
Qed.

(** X2: [getValidMoves] lists no destination twice. *)
Theorem getValidMoves_NoDup (board : Board) (o : Position) :
  NoDup (getValidMoves board o).
Proof. exact (proj1 (getValidMoves_msync board o)). Qed.

Lemma legsAll_snoc (P : Position -> Position -> Prop) (l : list Position) (p q : Position) :
  legsAll P (l ++ [p]) -> P p q -> legsAll P (l ++ [p; q]).
Proof.
  induction l as [|x l IH]; simpl.
  - intros _ H; split; [exact H | exact I].
  - destruct l as [|y l]; simpl in *.
    + intros [H1 _] H2; split; [exact H1 | split; [exact H2 | exact I]].
    + intros [H1 H3] H2; split; [exact H1 | apply IH; assumption].
Qed.

Lemma jumpTarget_orth (p : Position) (d : Z * Z) :
  In d DIRECTION_ARRAY -> orthJumpLeg p (jumpTarget p d).
Proof.
  unfold orthJumpLeg, jumpTarget; cbn [row col].
  intros Hd; repeat destruct Hd as [<- | Hd]; try destruct Hd; cbn [fst snd]; lia.
Qed.

Lemma jpathOK_snoc (o c : Position) (d : Z * Z) (path : list Position) :
  jpathOK o c path -> In d DIRECTION_ARRAY -> jpathOK o (jumpTarget c d) (path ++ [jumpTarget c d]).
Proof.
  intros ([l ->] & Hh & Hv) Hd; split; [|split].
  - exists (l ++ [c]); reflexivity.
  - apply hd_error_snoc; exact Hh.
  - rewrite <- app_assoc; apply legsAll_snoc; [exact Hv | apply jumpTarget_orth, Hd].
Qed.

Lemma searchLoop_jsound (board : Board) (o target current : Position) rec :
  (forall jp path v p' v', rec jp path v = (false, p', v') -> p' = path) ->
  (forall jp path v p' v', jpathOK o jp path ->
     rec jp path v = (true, p', v') -> jpathOK o target p') ->
  forall ds path v p' v', incl ds DIRECTION_ARRAY -> jpathOK o current path ->
  searchLoop rec board current ds path v = (true, p', v') -> jpathOK o target p'.
Proof.
  intros Hframe Hrec; induction ds as [|d ds IH]; intros path v p' v' Hincl Hp H;
    simpl in H; [discriminate|].
  assert (Hincl' : incl ds DIRECTION_ARRAY) by (intros y Hy; apply Hincl; right; exact Hy).
  destruct (jumpOK board current d) eqn:Hj; destruct (mem (jumpTarget current d) v);
    simpl in H; try exact (IH _ _ _ _ Hincl' Hp H).
  destruct (rec (jumpTarget current d) (path ++ [jumpTarget current d])
                (jumpTarget current d :: v)) as [[fd p2] v2] eqn:Er.
  assert (Hp2 : jpathOK o (jumpTarget current d) (path ++ [jumpTarget current d]))
    by (apply jpathOK_snoc; [exact Hp | apply Hincl; left; reflexivity]).
  destruct fd.
  - injection H as <- <-; exact (Hrec _ _ _ _ _ Hp2 Er).
  - apply Hframe in Er; subst p2; rewrite removelast_last in H.
    exact (IH _ _ _ _ Hincl' Hp H).
Qed.

Lemma searchJumpPath_jsound (board : Board) (o target : Position) :
  forall n current path v p' v', jpathOK o current path ->
  searchJumpPath n board current target path v = (true, p', v') -> jpathOK o target p'.
Proof.
  induction n as [|f IH]; intros current path v p' v' Hp H;
    rewrite ?searchJumpPath_O, ?searchJumpPath_S in H;
    destruct (posEqb current target) eqn:Ec; try discriminate;
    try (apply posEqb_spec in Ec; subst current; injection H as <- <-; exact Hp).
  refine (searchLoop_jsound board o target current _ _ _ _ _ _ _ _ (incl_refl _) Hp H).
  - intros jp; exact (searchJumpPath_frame board target f jp).
  - intros jp; exact (IH jp).
Qed.

(** [isPathValid] refuses every leg that is an orthogonal jump. *)
Lemma pathLegOK_orth (board : Board) (p q : Position) :
  orthJumpLeg p q -> pathLegOK board p q = false.
Proof.
  unfold orthJumpLeg, pathLegOK, isAdjacentMove; intros H.
  replace (((Z.abs (row p - row q) =? 1) && (Z.abs (col p - col q) =? 0)) ||
           ((Z.abs (row p - row q) =? 0) && (Z.abs (col p - col q) =? 1))) with false
    by (symmetry; rewrite orb_false_iff, !andb_false_iff, !Z.eqb_neq; lia).
  destruct H as [[H1 H2] | [H1 H2]].
  - rewrite H1, H2, Z.sub_diag; reflexivity.
  - rewrite H1, Z.sub_diag; reflexivity.
Qed.

(** X3: [isPathValid] rejects every path [findJumpPath] builds for a jump
    destination of [getValidMoves]: its first leg is an orthogonal jump, and
    [isPathValid] only accepts jumps that move two rows and two columns. *)
Theorem isPathValid_findJumpPath (board : Board) (o t : Position) :
  In t (getValidMoves board o) -> isAdjacentMove o t = false ->
  isPathValid board (findJumpPath board o t) = false.
Proof.
  intros Ht Hadj.
  apply getValidMoves_sound in Ht; destruct Ht as [(H & _) | Ht]; [congruence|].
  unfold findJumpPath; rewrite Hadj.
  pose proof (searchJumpPath_finds board o t Ht) as Hf.
  destruct (searchJumpPath SEARCH_FUEL board o t [o] [o]) as [[fd p'] v'] eqn:Hs.
  simpl in Hf; subst fd.
  assert (Hp : jpathOK o o [o]) by (split; [exists []; reflexivity | split; [reflexivity | exact I]]).
  destruct (searchJumpPath_jsound board o t _ _ _ _ _ _ Hp Hs) as (_ & Hh & Hl).
  destruct p' as [|x [|q rest]]; [discriminate | reflexivity|].
  injection Hh as ->; destruct Hl as [Hoq _].
  unfold isPathValid; cbn [List.length Nat.ltb Nat.leb]; cbn [pathLegsOK].
  rewrite (pathLegOK_orth board o q Hoq); reflexivity.
Qed.

Lemma isPathValid_findJumpPath_witness :
  let ps := [mkPiece "A-1" A 0 0; mkPiece "B-1" B 0 1] in
  In (mkPos 0 2) (getValidMoves (boardOf ps) (mkPos 0 0)) /\
  isAdjacentMove (mkPos 0 0) (mkPos 0 2) = false /\
  isPathValid (boardOf ps) (findJumpPath (boardOf ps) (mkPos 0 0) (mkPos 0 2)) = false.
Proof.
  intros ps.
  assert (Ht : In (mkPos 0 2) (getValidMoves (boardOf ps) (mkPos 0 0))) by (vm_compute; auto).
  assert (Ha : isAdjacentMove (mkPos 0 0) (mkPos 0 2) = false) by reflexivity.
  split; [exact Ht | split; [exact Ha | exact (isPathValid_findJumpPath _ _ _ Ht Ha)]].
Defined.

Lemma digit_char (k : Z) : 0 <= k < 10 ->
  nat_of_ascii (ascii_of_nat (48 + Z.to_nat k)) = (48 + Z.to_nat k)%nat.
Proof. intros Hk; apply nat_ascii_embedding; lia. Qed.

(** The digits of [n] read back from an accumulator. *)
Lemma readDigits_digitsAux (f : nat) : forall n acc,
  0 <= n < 10 ^ Z.of_nat f -> readDigits (digitsAux f n acc) 0 = readDigits acc n.
Proof.
  induction f as [|f IH]; intros n acc Hn.
  - simpl in Hn; replace n with 0 by lia; reflexivity.
  - assert (Hm : 0 <= n mod 10 < 10) by (apply Z.mod_pos_bound; lia).
    cbn [digitsAux].
    destruct (n <? 10) eqn:E.
    + apply Z.ltb_lt in E; cbn [readDigits].
      rewrite digit_char by exact Hm.
      f_equal; rewrite Nat2Z.inj_add, Z2Nat.id by lia.
      rewrite Z.mod_small by lia; lia.
    + apply Z.ltb_ge in E.
      rewrite IH.
      * cbn [readDigits]; rewrite digit_char by exact Hm.
        f_equal; rewrite Nat2Z.inj_add, Z2Nat.id by lia.
        pose proof (Z.div_mod n 10); lia.
      * rewrite Nat2Z.inj_succ, Z.pow_succ_r in Hn by lia.
        split; [apply Z.div_pos; lia | apply Z.div_lt_upper_bound; lia].
Qed.

Lemma allDigits_digitsAux (f : nat) : forall n acc,
  0 <= n -> allDigits acc = true -> allDigits (digitsAux f n acc) = true.
Proof.
  induction f as [|f IH]; intros n acc Hn Ha; [exact Ha|].
  assert (Hm : 0 <= n mod 10 < 10) by (apply Z.mod_pos_bound; lia).
  assert (Hd : allDigits (String (ascii_of_nat (48 + Z.to_nat (n mod 10))) acc) = true).
  { cbn [allDigits]; rewrite Ha, andb_true_r; unfold isDigit; rewrite digit_char by exact Hm.
    apply andb_true_intro; split; apply Nat.leb_le; lia. }
  cbn [digitsAux]; destruct (n <? 10); [exact Hd|].
  apply IH; [apply Z.div_pos; lia | exact Hd].
Qed.

(** With fuel, [digitsAux] always writes at least one digit. *)
Lemma digitsAux_cons (f : nat) : forall n acc,
  exists ch t, digitsAux (S f) n acc = String ch t /\ isDigit ch = true.
Proof.
  assert (Hdig : forall n, isDigit (ascii_of_nat (48 + Z.to_nat (n mod 10))) = true).
  { intros n; assert (Hm : 0 <= n mod 10 < 10) by (apply Z.mod_pos_bound; lia).
    unfold isDigit; rewrite digit_char by exact Hm.
    apply andb_true_intro; split; apply Nat.leb_le; lia. }
  induction f as [|f IH]; intros n acc.
  - cbn [digitsAux]; destruct (n <? 10); eexists; eexists; split; [reflexivity | apply Hdig | reflexivity | apply Hdig].
  - cbn [digitsAux] in *; destruct (n <? 10).
    + eexists; eexists; split; [reflexivity | apply Hdig].
    + apply IH.
Qed.

Lemma digits_fuel (n : Z) : 0 <= n -> n < 10 ^ Z.of_nat (S (Z.to_nat (Z.log2 n))).
Proof.
  intros Hn.
  rewrite Nat2Z.inj_succ, Z2Nat.id by apply Z.log2_nonneg.
  apply Z.lt_le_trans with (2 ^ Z.succ (Z.log2 n)).
  - destruct (Z.eq_dec n 0) as [->|Hn0]; [reflexivity|].
    apply Z.log2_spec; lia.
  - apply Z.pow_le_mono_l; pose proof (Z.log2_nonneg n); lia.
Qed.

Lemma isDigit_not_minus (ch : ascii) : isDigit ch = true -> Ascii.eqb ch "-"%char = false.
Proof.
  intros H; apply Ascii.eqb_neq; intros ->; discriminate H.
Qed.

Lemma isDigit_not_comma (ch : ascii) : isDigit ch = true -> Ascii.eqb ch ","%char = false.
Proof.
  intros H; apply Ascii.eqb_neq; intros ->; discriminate H.
Qed.

Lemma jsNumber_zToString (n : Z) : jsNumber (zToString n) = Some n.
Proof.
  unfold zToString; destruct (n <? 0) eqn:E.
  - apply Z.ltb_lt in E.
    destruct (digitsAux_cons (Z.to_nat (Z.log2 (- n))) (- n) "") as (ch & t & Hct & _).
    cbn [append]; unfold jsNumber; cbn [Ascii.eqb].
    change (Ascii.eqb "-" "-") with true; cbv iota.
    rewrite Hct; cbv iota; rewrite <- Hct.
    rewrite allDigits_digitsAux by (reflexivity || lia).
    rewrite readDigits_digitsAux by (split; [lia | apply digits_fuel; lia]).
    cbn [readDigits]; cbn -[Z.opp]; f_equal; lia.
  - apply Z.ltb_ge in E.
    destruct (digitsAux_cons (Z.to_nat (Z.log2 n)) n "") as (ch & t & Hct & Hd).
    unfold jsNumber; rewrite Hct, (isDigit_not_minus ch Hd); cbv iota; rewrite <- Hct.
    rewrite allDigits_digitsAux by (reflexivity || lia).
    rewrite readDigits_digitsAux by (split; [lia | apply digits_fuel; lia]).
    reflexivity.
Qed.

Lemma splitOn_nonnil (sep : ascii) (s : string) : splitOn sep s <> [].
Proof.
  destruct s as [|ch t]; cbn [splitOn]; [discriminate|].
  destruct (Ascii.eqb ch sep); [discriminate|]; destruct (splitOn sep t); discriminate.
Qed.

Lemma splitOn_commaFree (s : string) : commaFree s = true ->
  forall rest, splitOn "," (s ++ rest) =
    match splitOn "," rest with w :: ws => (s ++ w)%string :: ws | [] => [s] end.
Proof.
  induction s as [|ch s IH]; intros Hs rest.
  - simpl; destruct (splitOn "," rest) eqn:E; [exfalso; exact (splitOn_nonnil _ _ E) | reflexivity].
  - cbn [commaFree] in Hs; apply andb_prop in Hs as [Hc Hs].
    apply negb_true_iff in Hc.
    cbn [append splitOn]; rewrite Hc, IH by exact Hs.
    destruct (splitOn "," rest); reflexivity.
Qed.

Lemma allDigits_commaFree (s : string) : allDigits s = true -> commaFree s = true.
Proof.
  induction s as [|ch s IH]; [reflexivity|].
  cbn [allDigits commaFree]; intros H; apply andb_prop in H as [Hc Hs].
  rewrite (isDigit_not_comma ch Hc), IH by exact Hs; reflexivity.
Qed.

Lemma commaFree_zToString (n : Z) : commaFree (zToString n) = true.
Proof.
  unfold zToString; destruct (n <? 0) eqn:E.
  - apply Z.ltb_lt in E; cbn [append commaFree].
    change (negb (Ascii.eqb "-" ",")) with true; rewrite andb_true_l.
    apply allDigits_commaFree, allDigits_digitsAux; [lia | reflexivity].
  - apply Z.ltb_ge in E; apply allDigits_commaFree, allDigits_digitsAux; [lia | reflexivity].
Qed.

Lemma append_empty_r (s : string) : (s ++ "")%string = s.
Proof. induction s as [|ch s IH]; [reflexivity | cbn; rewrite IH; reflexivity]. Qed.

Lemma splitOn_positionToKey (p : Position) :
  splitOn "," (positionToKey p) = [zToString (row p); zToString (col p)].
Proof.
  unfold positionToKey.
  rewrite (splitOn_commaFree _ (commaFree_zToString (row p))).
  cbn [append splitOn]; change (Ascii.eqb "," ",") with true; cbv iota.
  pose proof (splitOn_commaFree _ (commaFree_zToString (col p)) "") as H.
  cbn [splitOn] in H; rewrite append_empty_r in H; rewrite H.
  rewrite append_empty_r; reflexivity.
Qed.

(** X4: [keyToPosition] reads back every position [positionToKey] writes,
    negative coordinates included. *)
Theorem keyToPosition_positionToKey (p : Position) :
  keyToPosition (positionToKey p) = Some p.
Proof.
  unfold keyToPosition; rewrite splitOn_positionToKey; cbn [map].
  rewrite !jsNumber_zToString; destruct p; reflexivity.
Qed.

Lemma zToString_inj (m n : Z) : zToString m = zToString n -> m = n.
Proof.
  intros H; pose proof (jsNumber_zToString m) as Hm; rewrite H, jsNumber_zToString in Hm.
  congruence.
Qed.

Lemma isValidPosition_iff (r c : Z) :
  isValidPosition r c = true <-> 0 <= r < 8 /\ 0 <= c < 8.
Proof. unfold isValidPosition, boardSize; rewrite !andb_true_iff, !Z.leb_le, !Z.ltb_lt; lia. Qed.

Lemma NoDup_map_injective {T U : Type} (f : T -> U) (l : list T) :
  NoDup l -> (forall x y, In x l -> In y l -> f x = f y -> x = y) -> NoDup (map f l).
Proof.
  induction l as [|x l IH]; intros Hnd Hinj; simpl; [constructor|].
  inversion Hnd as [|? ? Hx Hnd']; subst; constructor.
  - intros Hin; apply in_map_iff in Hin; destruct Hin as (y & Hy & Hin).
    apply Hx; rewrite (Hinj x y); [exact Hin | left; reflexivity | right; exact Hin | symmetry; exact Hy].
  - apply IH; [exact Hnd'|]; intros a b Ha Hb; apply Hinj; right; assumption.
Qed.

Lemma NoDup_flat_map {T U : Type} (f : T -> list U) (l : list T) :
  NoDup l -> (forall x, In x l -> NoDup (f x)) ->
  (forall x y u, In x l -> In y l -> In u (f x) -> In u (f y) -> x = y) ->
  NoDup (flat_map f l).
Proof.
  induction l as [|x l IH]; intros Hnd Hf Hdis; simpl; [constructor|].
  inversion Hnd as [|? ? Hx Hnd']; subst.
  apply NoDup_app.
  - apply Hf; left; reflexivity.
  - apply IH; [exact Hnd' | intros y Hy; apply Hf; right; exact Hy |].
    intros a b u Ha Hb; apply Hdis; right; assumption.
  - intros u Hu Hin; apply in_flat_map in Hin; destruct Hin as (y & Hy & Hu').
    apply Hx; rewrite (Hdis x y u); [exact Hy | left; reflexivity | right; exact Hy | exact Hu | exact Hu'].
Qed.

Lemma NoDup_zrange (lo hi : Z) : NoDup (zrange lo hi).
Proof.
  unfold zrange; apply NoDup_map_injective; [apply seq_NoDup|].
  intros x y _ _ H; lia.
Qed.

Lemma in_cornerCells (corner : CornerShape) (sr sc r c : Z) :
  In (r, c) (cornerCells corner (sr, sc)) <->
  sr <= r < sr + crows corner /\ sc <= c < sc + ccols corner.
Proof.
  unfold cornerCells; rewrite in_flat_map; cbn [fst snd]; split.
  - intros (x & Hx & Hin); apply in_zrange in Hx.
    apply in_map_iff in Hin; destruct Hin as (y & Hy & Hin); apply in_zrange in Hin.
    injection Hy as <- <-; lia.
  - intros Hrc; exists (r - sr); split; [apply in_zrange; lia|].
    apply in_map_iff; exists (c - sc); split; [f_equal; lia | apply in_zrange; lia].
Qed.

Lemma NoDup_cornerCells (corner : CornerShape) (start : Z * Z) :
  NoDup (cornerCells corner start).
Proof.
  unfold cornerCells; apply NoDup_flat_map; [apply NoDup_zrange | |].
  - intros x _; apply NoDup_map_injective; [apply NoDup_zrange|].
    intros a b _ _ H; injection H; lia.
  - intros x y u _ _ Hx Hy.
    apply in_map_iff in Hx, Hy; destruct Hx as (a & <- & _), Hy as (b & Hb & _).
    injection Hb; lia.
Qed.

(** The loop of [createPiecesForPlayer] throws exactly when a cell is off the board. *)
Lemma createPiecesLoop_exists (pl : PlayerType) (cs : list (Z * Z)) : forall k,
  (exists ps, createPiecesLoop pl cs k = Ok ps) <->
  forallb (fun rc => isValidPosition (fst rc) (snd rc)) cs = true.
Proof.
  induction cs as [|[r c] cs IH]; intros k; cbn [createPiecesLoop forallb fst snd].
  - split; [reflexivity | intros _; exists []; reflexivity].
  - destruct (isValidPosition r c); cbn [negb andb]; cbv iota.
    + rewrite <- (IH (k + 1)); destruct (createPiecesLoop pl cs (k + 1)); split.
      * intros _; eexists; reflexivity.
      * intros _; eexists; reflexivity.
      * intros [ps H]; discriminate.
      * intros [ps H]; discriminate.
    + split; [intros [ps H]; discriminate | discriminate].
Qed.

Lemma createPiecesLoop_ok (pl : PlayerType) (cs : list (Z * Z)) : forall k ps,
  createPiecesLoop pl cs k = Ok ps ->
  map cellOf ps = cs /\ Forall (fun p => player p = pl) ps /\
  map id ps = map (fun i => pieceIdOf pl (k + Z.of_nat i)) (seq 0 (List.length cs)).
Proof.
  induction cs as [|[r c] cs IH]; intros k ps H; cbn [createPiecesLoop] in H.
  - injection H as <-; split; [reflexivity | split; [constructor | reflexivity]].
  - destruct (isValidPosition r c); cbn [negb] in H; [|discriminate].
    destruct (createPiecesLoop pl cs (k + 1)) as [ps'|e] eqn:E; [|discriminate].
    injection H as <-; destruct (IH _ _ E) as (H1 & H2 & H3).
    split; [|split].
    + cbn [map]; rewrite H1; reflexivity.
    + constructor; [reflexivity | exact H2].
    + cbn [map List.length seq]; rewrite H3, <- seq_shift, map_map.
      change (Z.of_nat 0) with 0; rewrite Z.add_0_r; f_equal; apply map_ext; intros i; f_equal; lia.
Qed.

Lemma pieceIdOf_inj (pl pl' : PlayerType) (k k' : Z) :
  pieceIdOf pl k = pieceIdOf pl' k' -> pl = pl' /\ k = k'.
Proof.
  unfold pieceIdOf; destruct pl, pl'; cbn; intros H; try discriminate;
    injection H as H; split; [reflexivity | apply zToString_inj; exact H
                              | reflexivity | apply zToString_inj; exact H].
Qed.

(** The cells of the corner a player starts in. *)
Lemma getStartingCorner_cells (pl : PlayerType) (corner : CornerShape) (r c : Z) :
  (let '(sr, er, sc, ec) := getStartingCorner pl corner in sr <= r < er /\ sc <= c < ec) <->
  In (r, c) (cornerCells corner (match pl with A => (0, 0)
                                 | B => (boardSize - crows corner, boardSize - ccols corner) end)).
Proof.
  destruct pl; cbn [getStartingCorner]; rewrite in_cornerCells; unfold boardSize; lia.
Qed.

Lemma createInitialPieces_parts (corner : CornerShape) (ps : list PieceWithId) :
  createInitialPieces corner = Ok ps ->
  exists pa pb, ps = pa ++ pb /\
    createPiecesLoop A (cornerCells corner (0, 0)) 1 = Ok pa /\
    createPiecesLoop B (cornerCells corner (boardSize - crows corner, boardSize - ccols corner)) 1 = Ok pb.
Proof.
  unfold createInitialPieces, createPiecesForPlayer.
  destruct (createPiecesLoop A _ 1) as [pa|e]; [|discriminate].
  destruct (createPiecesLoop B _ 1) as [pb|e]; [|discriminate].
  intros H; injection H as <-; exists pa, pb; auto.
Qed.

Lemma cornerCells_valid (corner : CornerShape) (sr sc : Z) :
  forallb (fun rc => isValidPosition (fst rc) (snd rc)) (cornerCells corner (sr, sc)) = true <->
  crows corner <= 0 \/ ccols corner <= 0 \/
  (0 <= sr /\ sr + crows corner <= 8 /\ 0 <= sc /\ sc + ccols corner <= 8).
Proof.
  rewrite forallb_forall; split.
  - intros H.
    destruct (Z.le_gt_cases (crows corner) 0) as [Hr | Hr]; [left; exact Hr|].
    destruct (Z.le_gt_cases (ccols corner) 0) as [Hc | Hc]; [right; left; exact Hc|].
    right; right.
    assert (H1 := H (sr, sc)); assert (H2 := H (sr + crows corner - 1, sc + ccols corner - 1)).
    rewrite in_cornerCells in H1, H2; cbn [fst snd] in H1, H2.
    rewrite isValidPosition_iff in H1, H2.
    specialize (H1 ltac:(lia)); specialize (H2 ltac:(lia)); lia.
  - intros H [r c] Hin; apply in_cornerCells in Hin; cbn [fst snd].
    apply isValidPosition_iff; lia.
Qed.

(** The pieces of a successful [createInitialPieces]. *)
Lemma createInitialPieces_layout (corner : CornerShape) (ps : list PieceWithId) :
  createInitialPieces corner = Ok ps ->
  map cellOf ps = cornerCells corner (0, 0) ++
                  cornerCells corner (boardSize - crows corner, boardSize - ccols corner) /\
  (forall p, In p ps -> In (cellOf p) (cornerCells corner
       (match player p with A => (0, 0)
        | B => (boardSize - crows corner, boardSize - ccols corner) end))) /\
  (forall pl r c, In (r, c) (cornerCells corner
       (match pl with A => (0, 0) | B => (boardSize - crows corner, boardSize - ccols corner) end)) ->
     exists p, In p ps /\ player p = pl /\ prow p = r /\ pcol p = c) /\
  NoDup (map id ps).
Proof.
  intros H; destruct (createInitialPieces_parts corner ps H) as (pa & pb & -> & Ha & Hb).
  destruct (createPiecesLoop_ok _ _ _ _ Ha) as (Ca & Pa & Ia).
  destruct (createPiecesLoop_ok _ _ _ _ Hb) as (Cb & Pb & Ib).
  rewrite Forall_forall in Pa, Pb.
  split; [|split; [|split]].
  - rewrite map_app, Ca, Cb; reflexivity.
  - intros p Hp; apply in_app_or in Hp; destruct Hp as [Hp | Hp].
    + rewrite (Pa p Hp), <- Ca; apply in_map; exact Hp.
    + rewrite (Pb p Hp), <- Cb; apply in_map; exact Hp.
  - intros pl r c Hin; destruct pl.
    + rewrite <- Ca in Hin; apply in_map_iff in Hin; destruct Hin as (p & Hp & Hin).
      exists p; unfold cellOf in Hp; injection Hp as <- <-.
      split; [apply in_or_app; left; exact Hin | split; [apply Pa, Hin | split; reflexivity]].
    + rewrite <- Cb in Hin; apply in_map_iff in Hin; destruct Hin as (p & Hp & Hin).
      exists p; unfold cellOf in Hp; injection Hp as <- <-.
      split; [apply in_or_app; right; exact Hin | split; [apply Pb, Hin | split; reflexivity]].
  - rewrite map_app, Ia, Ib; apply NoDup_app.
    + apply NoDup_map_injective; [apply seq_NoDup|].
      intros x y _ _ Hxy; apply pieceIdOf_inj in Hxy; lia.
    + apply NoDup_map_injective; [apply seq_NoDup|].
      intros x y _ _ Hxy; apply pieceIdOf_inj in Hxy; lia.
    + intros u Hu Hu'; apply in_map_iff in Hu, Hu'.
      destruct Hu as (x & <- & _), Hu' as (y & Hy & _).
      apply pieceIdOf_inj in Hy; destruct Hy as [Hy _]; discriminate.
Qed.

(** [getBoardFromPieces] succeeds exactly on pieces that are on the board and on distinct cells. *)
Lemma getBoardFromPieces_ok_iff (ps : list PieceWithId) :
  (exists b, getBoardFromPieces ps = Ok b) <-> Forall validPiece ps /\ NoDup (map cellOf ps).
Proof.
  destruct (placePieces_spec ps createEmptyBoard [] boardRepr_empty (NoDup_nil _)) as [Hok Herr].
  simpl app in Hok, Herr; fold (getBoardFromPieces ps) in Hok, Herr.
  split.
  - intros [b Hb]; destruct (Hok b Hb) as (_ & H1 & H2); split; assumption.
  - intros [Hv Hnd]; destruct (getBoardFromPieces ps) as [b|e] eqn:E; [exists b; reflexivity|].
    exfalso; destruct (Herr e eq_refl) as (p & Hp & [[Hinv _] | [_ (a & post & Heq & Hin)]]).
    + rewrite Forall_forall in Hv; specialize (Hv p Hp); unfold validPiece in Hv; congruence.
    + rewrite Heq, map_app in Hnd; simpl map in Hnd; exact (not_NoDup_dup _ _ _ Hin Hnd).
Qed.

Lemma NoDup_app_both {T : Type} (l1 l2 : list T) (x : T) :
  NoDup (l1 ++ l2) -> In x l1 -> In x l2 -> False.
Proof.
  intros Hnd H1 H2; apply in_split in H1; destruct H1 as (a & post & ->).
  rewrite <- app_assoc in Hnd; simpl app in Hnd.
  apply NoDup_remove_2 in Hnd; apply Hnd, in_or_app; right; apply in_or_app; right; exact H2.
Qed.

Lemma piecesOf_parts (corner : CornerShape) (pa pb : list PieceWithId) :
  createPiecesLoop A (cornerCells corner (0, 0)) 1 = Ok pa ->
  createPiecesLoop B (cornerCells corner (boardSize - crows corner, boardSize - ccols corner)) 1 = Ok pb ->
  piecesOf (pa ++ pb) A = pa /\ piecesOf (pa ++ pb) B = pb.
Proof.
  intros Ha Hb.
  destruct (createPiecesLoop_ok _ _ _ _ Ha) as (_ & Pa & _).
  destruct (createPiecesLoop_ok _ _ _ _ Hb) as (_ & Pb & _).
  unfold piecesOf; rewrite !filter_app.
  assert (HA : forall l pl, Forall (fun p => player p = pl) l ->
            filter (fun p => PlayerType_eqb (player p) pl) l = l).
  { intros l pl; induction l as [|p l IH]; intros Hl; [reflexivity|].
    apply Forall_cons_iff in Hl as [Hp Hl']; simpl.
    replace (PlayerType_eqb (player p) pl) with true
      by (symmetry; apply PlayerType_eqb_spec; exact Hp).
    rewrite IH by exact Hl'; reflexivity. }
  assert (HN : forall l pl pl', pl <> pl' -> Forall (fun p => player p = pl) l ->
            filter (fun p => PlayerType_eqb (player p) pl') l = []).
  { intros l pl pl' Hne; induction l as [|p l IH]; intros Hl; [reflexivity|].
    apply Forall_cons_iff in Hl as [Hp Hl']; simpl.
    destruct (PlayerType_eqb (player p) pl') eqn:E;
      [apply PlayerType_eqb_spec in E; congruence | exact (IH Hl')]. }
  rewrite (HA pa A Pa), (HA pb B Pb), (HN pa A B), (HN pb B A) by (discriminate || assumption).
  rewrite app_nil_r; split; reflexivity.
Qed.

Lemma createInitialPieces_err (corner : CornerShape) :
  (exists e, createInitialPieces corner = Err e) <->
  0 < crows corner /\ 0 < ccols corner /\ (8 < crows corner \/ 8 < ccols corner).
Proof.
  unfold createInitialPieces, createPiecesForPlayer.
  pose proof (createPiecesLoop_exists A (cornerCells corner (0, 0)) 1) as HA.
  pose proof (createPiecesLoop_exists B
    (cornerCells corner (boardSize - crows corner, boardSize - ccols corner)) 1) as HB.
  rewrite cornerCells_valid in HA, HB; unfold boardSize in HB |- *.
  destruct (createPiecesLoop A _ 1) as [pa|e]; destruct (createPiecesLoop B _ 1) as [pb|e'].
  - split; [intros [e H]; discriminate|]; intros H.
    assert (Hx : exists ps, @Ok (list PieceWithId) pa = Ok ps) by (exists pa; reflexivity).
    apply HA in Hx; lia.
  - split; [intros _|intros _; exists e'; reflexivity].
    assert (Hx : ~ exists ps, @Err (list PieceWithId) e' = Ok ps) by (intros [ps H]; discriminate).
    assert (Hy : exists ps, @Ok (list PieceWithId) pa = Ok ps) by (exists pa; reflexivity).
    rewrite HB in Hx; apply HA in Hy; lia.
  - split; [intros _|intros _; exists e; reflexivity].
    assert (Hx : ~ exists ps, @Err (list PieceWithId) e = Ok ps) by (intros [ps H]; discriminate).
    rewrite HA in Hx; lia.
  - split; [intros _|intros _; exists e; reflexivity].
    assert (Hx : ~ exists ps, @Err (list PieceWithId) e = Ok ps) by (intros [ps H]; discriminate).
    rewrite HA in Hx; lia.
Qed.

Lemma createInitialPieces_ok (corner : CornerShape)
    (Hr : 0 <= crows corner <= 8) (Hc : 0 <= ccols corner <= 8) :
  exists ps, createInitialPieces corner = Ok ps.
Proof.
  destruct (createInitialPieces corner) as [ps|e] eqn:E; [exists ps; reflexivity|].
  assert (H : exists e, createInitialPieces corner = Err e) by (exists e; exact E).
  apply createInitialPieces_err in H; lia.
Qed.

(** X5: [createInitialPieces] throws exactly when the corner is not empty and
    has more than 8 rows or more than 8 columns. *)
Theorem createInitialPieces_throws (corner : CornerShape) :
  (exists e, createInitialPieces corner = Err e) <->
  0 < crows corner /\ 0 < ccols corner /\ (8 < crows corner \/ 8 < ccols corner).
Proof. exact (createInitialPieces_err corner). Qed.

(** X6: for a corner of at most 8 x 8 cells, [createInitialPieces] gives each
    player one piece on every cell of its [getStartingCorner] rectangle and
    nothing else, and all piece ids are distinct. *)
Theorem createInitialPieces_start (corner : CornerShape)
    (Hr : 0 <= crows corner <= 8) (Hc : 0 <= ccols corner <= 8) :
  exists ps, createInitialPieces corner = Ok ps /\
  (forall pl r c, In (r, c) (map cellOf (piecesOf ps pl)) <->
     let '(sr, er, sc, ec) := getStartingCorner pl corner in sr <= r < er /\ sc <= c < ec) /\
  (forall pl, NoDup (map cellOf (piecesOf ps pl))) /\
  NoDup (map id ps).
Proof.
  destruct (createInitialPieces_ok corner Hr Hc) as [ps Hps]; exists ps; split; [exact Hps|].
  destruct (createInitialPieces_layout corner ps Hps) as (_ & _ & _ & Hid).
  destruct (createInitialPieces_parts corner ps Hps) as (pa & pb & -> & Ha & Hb).
  destruct (piecesOf_parts corner pa pb Ha Hb) as [HpA HpB].
  destruct (createPiecesLoop_ok _ _ _ _ Ha) as (Ca & _ & _).
  destruct (createPiecesLoop_ok _ _ _ _ Hb) as (Cb & _ & _).
  split; [|split; [|exact Hid]].
  - intros pl r c; rewrite getStartingCorner_cells; destruct pl.
    + rewrite HpA, Ca; reflexivity.
    + rewrite HpB, Cb; reflexivity.
  - intros pl; destruct pl.
    + rewrite HpA, Ca; apply NoDup_cornerCells.
    + rewrite HpB, Cb; apply NoDup_cornerCells.
Qed.

Lemma createInitialPieces_start_witness :
  (0 <= crows (mkCorner 3 4) <= 8) /\ (0 <= ccols (mkCorner 3 4) <= 8) /\
  exists ps, createInitialPieces (mkCorner 3 4) = Ok ps /\
  (forall pl r c, In (r, c) (map cellOf (piecesOf ps pl)) <->
     let '(sr, er, sc, ec) := getStartingCorner pl (mkCorner 3 4) in sr <= r < er /\ sc <= c < ec) /\
  (forall pl, NoDup (map cellOf (piecesOf ps pl))) /\
  NoDup (map id ps).
Proof.
  assert (Hr : 0 <= crows (mkCorner 3 4) <= 8) by (cbn; lia).
  assert (Hc : 0 <= ccols (mkCorner 3 4) <= 8) by (cbn; lia).
  split; [exact Hr | split; [exact Hc | exact (createInitialPieces_start (mkCorner 3 4) Hr Hc)]].
Defined.

(** X7: for a corner of at most 8 x 8 cells, [getBoardFromPieces] accepts the
    initial pieces exactly when the corner has at most 4 rows or at most 4
    columns; otherwise the two starting corners overlap and it throws. *)
Theorem createInitialPieces_board (corner : CornerShape)
    (Hr : 0 <= crows corner <= 8) (Hc : 0 <= ccols corner <= 8) :
  exists ps, createInitialPieces corner = Ok ps /\
  ((exists b, getBoardFromPieces ps = Ok b) <-> crows corner <= 4 \/ ccols corner <= 4).
Proof.
  destruct (createInitialPieces_ok corner Hr Hc) as [ps Hps]; exists ps; split; [exact Hps|].
  destruct (createInitialPieces_layout corner ps Hps) as (Hcells & _ & _ & _).
  rewrite getBoardFromPieces_ok_iff, Hcells; unfold boardSize; split.
  - intros [_ Hnd].
    destruct (Z.le_gt_cases (crows corner) 4) as [H4|H4]; [left; exact H4|].
    destruct (Z.le_gt_cases (ccols corner) 4) as [H5|H5]; [right; exact H5|].
    exfalso; apply (NoDup_app_both _ _ (4, 4) Hnd); apply in_cornerCells; lia.
  - intros H; split.
    + apply Forall_forall; intros p Hp; unfold validPiece.
      destruct (createInitialPieces_layout corner ps Hps) as (_ & Hin & _ & _).
      specialize (Hin p Hp); destruct (player p); unfold cellOf in Hin;
        apply in_cornerCells in Hin; apply isValidPosition_iff; unfold boardSize in Hin; lia.
    + apply NoDup_app; [apply NoDup_cornerCells | apply NoDup_cornerCells |].
      intros [r c] H1 H2; apply in_cornerCells in H1, H2; lia.
Qed.

Lemma createInitialPieces_board_witness :
  (0 <= crows (mkCorner 4 4) <= 8) /\ (0 <= ccols (mkCorner 4 4) <= 8) /\
  exists ps, createInitialPieces (mkCorner 4 4) = Ok ps /\
  ((exists b, getBoardFromPieces ps = Ok b) <-> crows (mkCorner 4 4) <= 4 \/ ccols (mkCorner 4 4) <= 4).
Proof.
  assert (Hr : 0 <= crows (mkCorner 4 4) <= 8) by (cbn; lia).
  assert (Hc : 0 <= ccols (mkCorner 4 4) <= 8) by (cbn; lia).
  split; [exact Hr | split; [exact Hc | exact (createInitialPieces_board (mkCorner 4 4) Hr Hc)]].
Defined.

(** X8: for a corner of at most 8 x 8 cells, a player has already won in the
    initial position exactly when the corner is empty (0 rows or 0 columns)
    or covers the whole 8 x 8 board. *)
Theorem createInitialPieces_won (corner : CornerShape) (pl : PlayerType)
    (Hr : 0 <= crows corner <= 8) (Hc : 0 <= ccols corner <= 8) :
  exists ps, createInitialPieces corner = Ok ps /\
  (hasPlayerWon ps pl corner = true <->
   crows corner = 0 \/ ccols corner = 0 \/ (crows corner = 8 /\ ccols corner = 8)).
Proof.
  destruct (createInitialPieces_ok corner Hr Hc) as [ps Hps]; exists ps; split; [exact Hps|].
  destruct (createInitialPieces_layout corner ps Hps) as (_ & Hin & Hall & _).
  rewrite hasPlayerWon_spec; split.
  - intros H.
    destruct (Z.eq_dec (crows corner) 0) as [H0|H0]; [left; exact H0|].
    destruct (Z.eq_dec (ccols corner) 0) as [H1|H1]; [right; left; exact H1|].
    right; right; destruct pl.
    + destruct (H 7 7) as (p & Hp & Hpl & Hpr & Hpc); [unfold inGoalRect, boardSize; lia|].
      specialize (Hin p Hp); rewrite Hpl in Hin; unfold cellOf in Hin.
      rewrite Hpr, Hpc in Hin; apply in_cornerCells in Hin; lia.
    + destruct (H 0 0) as (p & Hp & Hpl & Hpr & Hpc); [unfold inGoalRect; lia|].
      specialize (Hin p Hp); rewrite Hpl in Hin; unfold cellOf in Hin.
      rewrite Hpr, Hpc in Hin; apply in_cornerCells in Hin; unfold boardSize in Hin; lia.
  - intros H r c Hg; apply Hall; destruct pl; unfold inGoalRect, boardSize in Hg |- *;
      apply in_cornerCells; lia.
Qed.

Lemma createInitialPieces_won_witness :
  (0 <= crows (mkCorner 3 3) <= 8) /\ (0 <= ccols (mkCorner 3 3) <= 8) /\
  exists ps, createInitialPieces (mkCorner 3 3) = Ok ps /\
  (hasPlayerWon ps A (mkCorner 3 3) = true <->
   crows (mkCorner 3 3) = 0 \/ ccols (mkCorner 3 3) = 0 \/
   (crows (mkCorner 3 3) = 8 /\ ccols (mkCorner 3 3) = 8)).
Proof.
  assert (Hr : 0 <= crows (mkCorner 3 3) <= 8) by (cbn; lia).
  assert (Hc : 0 <= ccols (mkCorner 3 3) <= 8) by (cbn; lia).
  split; [exact Hr | split; [exact Hc | exact (createInitialPieces_won (mkCorner 3 3) A Hr Hc)]].
Defined.

(** The board of a piece list [getBoardFromPieces] accepts. *)
Lemma getBoardFromPieces_repr (ps : list PieceWithId) (b : Board) :
  getBoardFromPieces ps = Ok b ->
  boardRepr b ps /\ Forall validPiece ps /\ NoDup (map cellOf ps).
Proof.
  destruct (placePieces_spec ps createEmptyBoard [] boardRepr_empty (NoDup_nil _)) as [Hok _].
  exact (Hok b).
Qed.

Lemma ownerAt_in (l : list PieceWithId) (q : PieceWithId) :
  NoDup (map cellOf l) -> In q l -> ownerAt l (prow q) (pcol q) = Some (player q).
Proof.
  intros Hnd Hq; unfold ownerAt.
  destruct (find _ l) as [q'|] eqn:E.
  - apply find_some in E; destruct E as [Hq' He].
    apply andb_true_iff in He; rewrite !Z.eqb_eq in He.
    rewrite (NoDup_map_inj cellOf l q' q Hnd Hq' Hq); [reflexivity|].
    unfold cellOf; destruct He as [-> ->]; reflexivity.
  - apply (find_none _ _ E) in Hq; rewrite !Z.eqb_refl in Hq; discriminate.
Qed.

Lemma ownerAt_some (l : list PieceWithId) (r c : Z) (o : PlayerType) :
  ownerAt l r c = Some o -> exists q, In q l /\ prow q = r /\ pcol q = c /\ player q = o.
Proof.
  unfold ownerAt; destruct (find _ l) as [q|] eqn:E; [|discriminate].
  intros H; injection H as <-; apply find_some in E; destruct E as [Hq He].
  apply andb_true_iff in He; rewrite !Z.eqb_eq in He; destruct He as [Hr Hc].
  exists q; auto.
Qed.

Lemma map_id_applyMove (ps : list PieceWithId) (k : string) (t : Position) :
  map id (applyMove ps k t) = map id ps.
Proof.
  unfold applyMove; rewrite map_map; apply map_ext; intros q.
  destruct (String.eqb (id q) k); reflexivity.
Qed.

Lemma in_applyMove (ps : list PieceWithId) (k : string) (t : Position) (q' : PieceWithId) :
  In q' (applyMove ps k t) <->
  exists q, In q ps /\
    ((id q = k /\ q' = mkPiece (id q) (player q) (row t) (col t)) \/ (id q <> k /\ q' = q)).
Proof.
  unfold applyMove; rewrite in_map_iff; split.
  - intros (q & Hq & Hin); exists q; split; [exact Hin|].
    destruct (String.eqb_spec (id q) k); [left | right]; auto.
  - intros (q & Hin & [[Hk ->] | [Hk ->]]); exists q; split; try exact Hin.
    + rewrite Hk, String.eqb_refl; reflexivity.
    + destruct (String.eqb_spec (id q) k); [contradiction | reflexivity].
Qed.

(** The piece list and the board after moving one piece of a well-formed
    list (distinct ids, a board) to an empty on-board cell. *)
Lemma applyMove_board (ps : list PieceWithId) (b : Board) (p : PieceWithId) (t : Position) :
  getBoardFromPieces ps = Ok b -> NoDup (map id ps) -> In p ps ->
  isCellEmpty b (row t) (col t) = true ->
  exists b', getBoardFromPieces (applyMove ps (id p) t) = Ok b' /\
    cellAt b' (row t) (col t) = Some (Some (player p)) /\
    cellAt b' (prow p) (pcol p) = Some None /\
    (forall r c, (r, c) <> (row t, col t) -> (r, c) <> (prow p, pcol p) ->
       cellAt b' r c = cellAt b r c).
Proof.
  intros Hb Hid Hp Ht.
  destruct (getBoardFromPieces_repr ps b Hb) as (Hr & Hv & Hnd).
  rewrite Forall_forall in Hv.
  assert (Htv : isValidPosition (row t) (col t) = true).
  { unfold isCellEmpty in Ht; rewrite Hr in Ht; destruct (isValidPosition (row t) (col t));
      [reflexivity | discriminate]. }
  assert (Htfree : ~ In (row t, col t) (map cellOf ps)).
  { unfold isCellEmpty in Ht; rewrite Hr, Htv in Ht.
    apply ownerAt_none; destruct (ownerAt ps (row t) (col t)); [discriminate | reflexivity]. }
  assert (Hsame : forall q, In q ps -> id q = id p -> q = p)
    by (intros q Hq Hk; exact (NoDup_map_inj id ps q p Hid Hq Hp Hk)).
  assert (Hpt : (prow p, pcol p) <> (row t, col t)).
  { intros E; apply Htfree; rewrite <- E; apply in_map_iff; exists p; split; [reflexivity | exact Hp]. }
  set (ps' := applyMove ps (id p) t).
  (* the pieces of [ps'] *)
  assert (Hin' : forall q', In q' ps' ->
            (q' = mkPiece (id p) (player p) (row t) (col t)) \/ (In q' ps /\ q' <> p)).
  { intros q' Hq'; apply in_applyMove in Hq'; destruct Hq' as (q & Hq & [[Hk ->] | [Hk ->]]).
    - left; rewrite (Hsame q Hq Hk); reflexivity.
    - right; split; [exact Hq | intros ->; apply Hk; reflexivity]. }
  assert (Hmoved : In (mkPiece (id p) (player p) (row t) (col t)) ps').
  { apply in_applyMove; exists p; split; [exact Hp | left; split; reflexivity]. }
  assert (Hkept : forall q, In q ps -> q <> p -> In q ps').
  { intros q Hq Hne; apply in_applyMove; exists q; split; [exact Hq | right; split; [|reflexivity]].
    intros Hk; apply Hne, Hsame; assumption. }
  assert (Hv' : Forall validPiece ps').
  { apply Forall_forall; intros q' Hq'; destruct (Hin' q' Hq') as [-> | [Hq _]];
      [exact Htv | apply Hv, Hq]. }
  assert (Hnd' : NoDup (map cellOf ps')).
  { unfold ps', applyMove; rewrite map_map.
    apply NoDup_map_injective; [apply NoDup_map_inv with (f := id); exact Hid|].
    intros x y Hx Hy.
    destruct (String.eqb_spec (id x) (id p)) as [Ex|Ex];
      destruct (String.eqb_spec (id y) (id p)) as [Ey|Ey]; unfold cellOf; cbn [prow pcol].
    - intros _; rewrite (Hsame x Hx Ex), (Hsame y Hy Ey); reflexivity.
    - intros E; exfalso; apply Htfree; rewrite E; exact (in_map cellOf ps y Hy).
    - intros E; exfalso; apply Htfree; rewrite <- E; exact (in_map cellOf ps x Hx).
    - intros E; exact (NoDup_map_inj cellOf ps x y Hnd Hx Hy E). }
  destruct (getBoardFromPieces ps') as [b'|e] eqn:Eb'.
  2:{ exfalso; assert (H : exists b', getBoardFromPieces ps' = Ok b')
        by (apply getBoardFromPieces_ok_iff; split; assumption).
      destruct H as [b'' H]; congruence. }
  destruct (getBoardFromPieces_repr ps' b' Eb') as (Hr' & _ & _).
  exists b'; split; [reflexivity|]; split; [|split].
  - rewrite Hr', Htv; f_equal.
    exact (ownerAt_in ps' _ Hnd' Hmoved).
  - rewrite Hr', (Hv p Hp); f_equal.
    destruct (ownerAt ps' (prow p) (pcol p)) as [o|] eqn:E; [|reflexivity].
    exfalso; apply ownerAt_some in E; destruct E as (q' & Hq' & Er & Ec & _).
    destruct (Hin' q' Hq') as [-> | [Hq Hne]].
    + apply Hpt; cbn in Er, Ec; rewrite <- Er, <- Ec; reflexivity.
    + apply Hne; apply (NoDup_map_inj cellOf ps q' p Hnd Hq Hp); unfold cellOf; rewrite Er, Ec; reflexivity.
  - intros r c Hrt Hrp; rewrite Hr', Hr.
    destruct (isValidPosition r c); [f_equal|reflexivity].
    destruct (ownerAt ps' r c) as [o|] eqn:E'.
    + apply ownerAt_some in E'; destruct E' as (q' & Hq' & Er & Ec & Eo).
      destruct (Hin' q' Hq') as [-> | [Hq Hne]].
      * exfalso; apply Hrt; cbn in Er, Ec; rewrite <- Er, <- Ec; reflexivity.
      * rewrite <- Er, <- Ec, <- Eo; symmetry; exact (ownerAt_in ps q' Hnd Hq).
    + destruct (ownerAt ps r c) as [o|] eqn:E; [|reflexivity].
      apply ownerAt_some in E; destruct E as (q & Hq & Er & Ec & _).
      assert (Hne : q <> p) by (intros ->; apply Hrp; rewrite Er, Ec; reflexivity).
      pose proof (ownerAt_in ps' q Hnd' (Hkept q Hq Hne)) as Hx.
      rewrite Er, Ec, E' in Hx; discriminate.
Qed.

(** X9: moving a piece of a valid game position (distinct ids, accepted by
    [getBoardFromPieces]) to a destination [getValidMoves] offers never
    throws, and gives a position [getBoardFromPieces] accepts: the
    destination holds the mover's owner, its old cell is empty, every other
    cell is unchanged, and the ids are the same. *)
Theorem movePiece_getValidMoves (ps : list PieceWithId) (b : Board) (p : PieceWithId)
    (t : Position)
    (Hb : getBoardFromPieces ps = Ok b) (Hid : NoDup (map id ps)) (Hp : In p ps)
    (Ht : In t (getValidMoves b (piecePos p))) :
  exists ps' b', movePiece ps (id p) (row t) (col t) = Ok ps' /\
    getBoardFromPieces ps' = Ok b' /\ map id ps' = map id ps /\
    cellAt b' (row t) (col t) = Some (Some (player p)) /\
    cellAt b' (prow p) (pcol p) = Some None /\
    (forall r c, (r, c) <> (row t, col t) -> (r, c) <> (prow p, pcol p) ->
       cellAt b' r c = cellAt b r c).
Proof.
  pose proof (getValidMoves_empty _ _ _ Ht) as He.
  destruct (applyMove_board ps b p t Hb Hid Hp He) as (b' & H1 & H2).
  exists (applyMove ps (id p) t), b'.
  assert (Hv : isValidPosition (row t) (col t) = true).
  { destruct (getBoardFromPieces_repr ps b Hb) as (Hr & _ & _).
    unfold isCellEmpty in He; rewrite Hr in He.
    destruct (isValidPosition (row t) (col t)); [reflexivity | discriminate]. }
  split; [unfold movePiece; rewrite Hv; reflexivity|].
  split; [exact H1 | split; [apply map_id_applyMove | exact H2]].
Qed.

(** X10: [getPlayerAt] on the board of a piece list [getBoardFromPieces]
    accepts gives the owner of the piece [findPieceAt] finds on that cell,
    and [null] where it finds none, on and off the board. *)
Theorem getPlayerAt_findPieceAt (ps : list PieceWithId) (b : Board) (r c : Z)
    (Hb : getBoardFromPieces ps = Ok b) :
  getPlayerAt b r c = match findPieceAt ps r c with Some p => Some (player p) | None => None end.
Proof.
  destruct (getBoardFromPieces_repr ps b Hb) as (Hr & Hv & _).
  unfold getPlayerAt; rewrite Hr; fold (ownerAt ps r c).
  destruct (isValidPosition r c) eqn:E; [reflexivity|].
  unfold ownerAt, findPieceAt; destruct (find _ ps) as [q|] eqn:F; [|reflexivity].
  apply find_some in F; destruct F as [Hq He]; apply andb_true_iff in He; rewrite !Z.eqb_eq in He.
  rewrite Forall_forall in Hv; specialize (Hv q Hq); unfold validPiece in Hv.
  destruct He as [<- <-]; congruence.
Qed.

Lemma movePiece_getValidMoves_witness :
  getBoardFromPieces [mkPiece "A-1" A 0 0; mkPiece "B-1" B 0 1] =
    Ok (boardOf [mkPiece "A-1" A 0 0; mkPiece "B-1" B 0 1]) /\
  NoDup (map id [mkPiece "A-1" A 0 0; mkPiece "B-1" B 0 1]) /\
  In (mkPiece "A-1" A 0 0) [mkPiece "A-1" A 0 0; mkPiece "B-1" B 0 1] /\
  In (mkPos 0 2) (getValidMoves (boardOf [mkPiece "A-1" A 0 0; mkPiece "B-1" B 0 1])
                   (piecePos (mkPiece "A-1" A 0 0))) /\
  exists ps' b', movePiece [mkPiece "A-1" A 0 0; mkPiece "B-1" B 0 1] "A-1" 0 2 = Ok ps' /\
    getBoardFromPieces ps' = Ok b' /\
    map id ps' = map id [mkPiece "A-1" A 0 0; mkPiece "B-1" B 0 1] /\
    cellAt b' 0 2 = Some (Some A) /\ cellAt b' 0 0 = Some None /\
    (forall r c, (r, c) <> (0, 2) -> (r, c) <> (0, 0) ->
       cellAt b' r c = cellAt (boardOf [mkPiece "A-1" A 0 0; mkPiece "B-1" B 0 1]) r c).
Proof.
  assert (Hb : getBoardFromPieces [mkPiece "A-1" A 0 0; mkPiece "B-1" B 0 1] =
               Ok (boardOf [mkPiece "A-1" A 0 0; mkPiece "B-1" B 0 1])) by reflexivity.
  assert (Hid : NoDup (map id [mkPiece "A-1" A 0 0; mkPiece "B-1" B 0 1])).
  { cbn; constructor; [intros [H|[]]; discriminate | constructor; [intros [] | constructor]]. }
  assert (Hp : In (mkPiece "A-1" A 0 0) [mkPiece "A-1" A 0 0; mkPiece "B-1" B 0 1])
    by (left; reflexivity).
  assert (Ht : In (mkPos 0 2) (getValidMoves (boardOf [mkPiece "A-1" A 0 0; mkPiece "B-1" B 0 1])
                   (piecePos (mkPiece "A-1" A 0 0)))) by (vm_compute; tauto).
  split; [exact Hb | split; [exact Hid | split; [exact Hp | split; [exact Ht|]]]].
  exact (movePiece_getValidMoves _ _ _ (mkPos 0 2) Hb Hid Hp Ht).
Defined.

Lemma getPlayerAt_findPieceAt_witness :
  getBoardFromPieces [mkPiece "A-1" A 0 0; mkPiece "B-1" B 0 1] =
    Ok (boardOf [mkPiece "A-1" A 0 0; mkPiece "B-1" B 0 1]) /\
  getPlayerAt (boardOf [mkPiece "A-1" A 0 0; mkPiece "B-1" B 0 1]) 0 1 =
  match findPieceAt [mkPiece "A-1" A 0 0; mkPiece "B-1" B 0 1] 0 1 with
  | Some p => Some (player p) | None => None end.
Proof.
  assert (Hb : getBoardFromPieces [mkPiece "A-1" A 0 0; mkPiece "B-1" B 0 1] =
               Ok (boardOf [mkPiece "A-1" A 0 0; mkPiece "B-1" B 0 1])) by reflexivity.
  split; [exact Hb | exact (getPlayerAt_findPieceAt _ _ 0 1 Hb)].
Defined.

Lemma insertByScore_perm (x : OrderedMove) (l : list OrderedMove) :
  Permutation (insertByScore x l) (x :: l).
Proof.
  induction l as [|y t IH]; simpl; [reflexivity|].
  destruct (oscore x <? oscore y); [|reflexivity].
  rewrite IH; apply perm_swap.
Qed.

Lemma sortByScore_perm (l : list OrderedMove) : Permutation (sortByScore l) l.
Proof.
  induction l as [|x t IH]; simpl; [reflexivity|].
  rewrite insertByScore_perm, IH; reflexivity.
Qed.

Lemma insertByScore_sorted (x : OrderedMove) (l : list OrderedMove) :
  Sorted scoreGe l -> Sorted scoreGe (insertByScore x l).
Proof.
  induction l as [|y t IH]; intros Hs; simpl; [repeat constructor|].
  destruct (Z.ltb_spec (oscore x) (oscore y)) as [Hlt | Hge].
  - apply Sorted_inv in Hs; destruct Hs as [Ht Hhd].
    constructor; [exact (IH Ht)|].
    destruct t as [|z t]; simpl; [constructor; unfold scoreGe; lia|].
    apply HdRel_inv in Hhd.
    destruct (oscore x <? oscore z); constructor; unfold scoreGe in *; lia.
  - constructor; [exact Hs | constructor; unfold scoreGe; lia].
Qed.

Lemma sortByScore_sorted (l : list OrderedMove) : Sorted scoreGe (sortByScore l).
Proof. induction l as [|x t IH]; simpl; [constructor | apply insertByScore_sorted, IH]. Qed.

Lemma in_piecesOf (ps : list PieceWithId) (pl : PlayerType) (p : PieceWithId) :
  In p (piecesOf ps pl) <-> In p ps /\ player p = pl.
Proof.
  unfold piecesOf; rewrite filter_In, PlayerType_eqb_spec; reflexivity.
Qed.

Lemma in_getOrderedMoves (board : Board) (ps : list PieceWithId) (pl : PlayerType) (m : OrderedMove) :
  In m (getOrderedMoves board ps pl) <->
  In (opiece m) ps /\ player (opiece m) = pl /\
  In (oto m) (getValidMoves board (piecePos (opiece m))) /\
  oscore m = quickEvaluateMove (piecePos (opiece m)) (oto m) pl.
Proof.
  unfold getOrderedMoves; split.
  - intros H; apply (Permutation_in _ (sortByScore_perm _)) in H.
    apply in_flat_map in H; destruct H as (piece & Hp & Hm).
    apply in_map_iff in Hm; destruct Hm as (mv & <- & Hmv); cbn [opiece oto oscore].
    apply in_piecesOf in Hp; destruct Hp as [Hp Hpl].
    destruct mv as [r c]; cbn [row col]; auto.
  - intros (Hp & Hpl & Hmv & Hs).
    apply (Permutation_in _ (Permutation_sym (sortByScore_perm _))).
    apply in_flat_map; exists (opiece m); split; [apply in_piecesOf; auto|].
    apply in_map_iff; exists (oto m); split; [|exact Hmv].
    destruct m as [p [r c] sc]; cbn in *; rewrite Hs; reflexivity.
Qed.

Lemma pieceKey_nonempty (p : PieceWithId) : pieceKey p <> EmptyString.
Proof. unfold pieceKey; destruct (player p); discriminate. Qed.

Lemma getKey_nonempty (ps : list PieceWithId) : ps <> [] -> getKey ps <> EmptyString.
Proof.
  intros Hne; unfold getKey.
  destruct (sortStrings (map pieceKey ps)) as [|x t] eqn:E.
  - apply (f_equal (@List.length string)) in E.
    rewrite (Permutation_length (sortStrings_perm _)), length_map in E.
    destruct ps; [contradiction | discriminate].
  - assert (Hx : In x (map pieceKey ps))
      by (apply (Permutation_in _ (sortStrings_perm _)); rewrite E; left; reflexivity).
    apply in_map_iff in Hx; destruct Hx as (p & <- & _).
    destruct t as [|y t]; cbn [joinStrings]; [apply pieceKey_nonempty|].
    destruct (pieceKey p) eqn:Ep; [exfalso; exact (pieceKey_nonempty p Ep) | discriminate].
Qed.

Lemma mapSet_keys (k : string) (v : TranspositionEntry) (m : TTable) :
  map fst (mapSet k v m) =
  if existsb (fun kv => String.eqb (fst kv) k) m then map fst m else map fst m ++ [k].
Proof.
  unfold mapSet; destruct (existsb _ m) eqn:E.
  - rewrite map_map; apply map_ext; intros [k' v']; cbn [fst].
    destruct (String.eqb_spec k' k); [symmetry; assumption | reflexivity].
  - rewrite map_app; reflexivity.
Qed.

Lemma existsb_key (k : string) (m : TTable) :
  existsb (fun kv => String.eqb (fst kv) k) m = true <-> In k (map fst m).
Proof.
  rewrite existsb_exists, in_map_iff; split.
  - intros ([k' v] & Hin & Hk); apply String.eqb_eq in Hk; exists (k', v); auto.
  - intros ([k' v] & Hk & Hin); exists (k', v); split; [exact Hin | apply String.eqb_eq, Hk].
Qed.

Lemma mapSet_tableOK (k : string) (v : TranspositionEntry) (m : TTable) :
  NoDup (map fst m) -> Forall (fun kv => fst kv <> EmptyString) m -> k <> EmptyString ->
  NoDup (map fst (mapSet k v m)) /\ Forall (fun kv => fst kv <> EmptyString) (mapSet k v m) /\
  List.length (mapSet k v m) =
    if existsb (fun kv => String.eqb (fst kv) k) m then List.length m else S (List.length m).
Proof.
  intros Hnd Hne Hk; split; [|split].
  - rewrite mapSet_keys; destruct (existsb _ m) eqn:E; [exact Hnd|].
    apply NoDup_snoc; [exact Hnd|]; intros Hin; apply existsb_key in Hin; congruence.
  - unfold mapSet; destruct (existsb _ m).
    + apply Forall_map, Forall_forall; intros [k' v'] Hin; cbn [fst].
      destruct (String.eqb k' k); [exact Hk|].
      rewrite Forall_forall in Hne; exact (Hne _ Hin).
    + apply Forall_app; split; [exact Hne | constructor; [exact Hk | constructor]].
  - unfold mapSet; destruct (existsb _ m); [apply length_map|].
    rewrite length_app; simpl; lia.
Qed.

Lemma mapDelete_head (k : string) (v : TranspositionEntry) (m : TTable) :
  NoDup (map fst ((k, v) :: m)) -> mapDelete k ((k, v) :: m) = m.
Proof.
  intros Hnd; unfold mapDelete; cbn [filter fst]; rewrite String.eqb_refl; cbn [negb].
  inversion Hnd as [|? ? Hk Hnd']; subst.
  clear Hnd Hnd'; induction m as [|[k' v'] m IH]; [reflexivity|].
  cbn [filter fst]; cbn [map fst In] in Hk.
  destruct (String.eqb_spec k' k) as [-> | Hne]; [exfalso; apply Hk; left; reflexivity|].
  cbn [negb]; rewrite IH; [reflexivity|]; intros H; apply Hk; right; exact H.
Qed.

Lemma mapGet_mapDelete (k k' : string) (m : TTable) :
  mapGet k' (mapDelete k m) = if String.eqb k' k then None else mapGet k' m.
Proof.
  unfold mapGet, mapDelete; induction m as [|[k0 v0] m IH]; cbn [filter find fst].
  - destruct (String.eqb k' k); reflexivity.
  - destruct (String.eqb_spec k0 k) as [-> | Hne]; cbn [negb].
    + rewrite IH; destruct (String.eqb k' k) eqn:E1; [reflexivity|].
      rewrite String.eqb_sym, E1; reflexivity.
    + cbn [find fst]; destruct (String.eqb_spec k0 k') as [-> | Hne'].
      * rewrite (proj2 (String.eqb_neq k' k) Hne); reflexivity.
      * exact IH.
Qed.

Lemma mapGet_mapSet_other (k k' : string) (v : TranspositionEntry) (m : TTable) :
  k' <> k -> mapGet k' (mapSet k v m) = mapGet k' m.
Proof.
  intros Hne; unfold mapGet, mapSet; destruct (existsb _ m).
  - induction m as [|[k0 v0] m IH]; [reflexivity|]; cbn [map find fst].
    destruct (String.eqb_spec k0 k) as [-> | Hk0]; cbn [fst].
    + rewrite (proj2 (String.eqb_neq k k') (fun H => Hne (eq_sym H))); exact IH.
    + destruct (String.eqb k0 k'); [reflexivity | exact IH].
  - induction m as [|[k0 v0] m IH]; cbn [app find fst].
    + rewrite (proj2 (String.eqb_neq k k') (fun H => Hne (eq_sym H))); reflexivity.
    + destruct (String.eqb k0 k'); [reflexivity | exact IH].
Qed.

Lemma getOrderedMoves_pushed (board : Board) (ps : list PieceWithId) (pl : PlayerType) :
  getOrderedMoves board ps pl = sortByScore (pushedMoves board ps pl).
Proof. reflexivity. Qed.

Lemma filter_insertByScore (q : Z) (x : OrderedMove) (l : list OrderedMove) :
  filter (scoreIs q) (insertByScore x l) = filter (scoreIs q) (x :: l).
Proof.
  induction l as [|y t IH]; [reflexivity|]; cbn [insertByScore].
  destruct (Z.ltb_spec (oscore x) (oscore y)) as [Hlt | _]; [|reflexivity].
  cbn [filter]; rewrite IH; cbn [filter]; unfold scoreIs.
  destruct (Z.eqb_spec (oscore x) q), (Z.eqb_spec (oscore y) q); try reflexivity; lia.
Qed.

Lemma filter_sortByScore (q : Z) (l : list OrderedMove) :
  filter (scoreIs q) (sortByScore l) = filter (scoreIs q) l.
Proof.
  induction l as [|x t IH]; [reflexivity|]; cbn [sortByScore].
  rewrite filter_insertByScore; cbn [filter]; rewrite IH; reflexivity.
Qed.

Lemma scoreGe_trans : Transitive scoreGe.
Proof. intros x y z; unfold scoreGe; lia. Qed.

Lemma sorted_below_head (y : OrderedMove) (t : list OrderedMove) :
  Sorted scoreGe (y :: t) -> forall z, In z t -> oscore z <= oscore y.
Proof.
  intros Hs z Hz; apply (Sorted_StronglySorted scoreGe_trans) in Hs.
  apply StronglySorted_inv in Hs; destruct Hs as [_ Hf].
  rewrite Forall_forall in Hf; exact (Hf z Hz).
Qed.

Lemma filter_scoreIs_nil (q : Z) (t : list OrderedMove) :
  (forall z, In z t -> oscore z < q) -> filter (scoreIs q) t = [].
Proof.
  induction t as [|z t IH]; intros H; [reflexivity|]; cbn [filter]; unfold scoreIs at 1.
  destruct (Z.eqb_spec (oscore z) q) as [E | _].
  - specialize (H z (or_introl eq_refl)); lia.
  - apply IH; intros w Hw; apply H; right; exact Hw.
Qed.

Lemma filter_scoreIs_self (x : OrderedMove) (t : list OrderedMove) :
  filter (scoreIs (oscore x)) (x :: t) = x :: filter (scoreIs (oscore x)) t.
Proof. cbn [filter]; unfold scoreIs at 1; rewrite Z.eqb_refl; reflexivity. Qed.

Lemma filter_scoreIs_other (q : Z) (x : OrderedMove) (t : list OrderedMove) :
  oscore x <> q -> filter (scoreIs q) (x :: t) = filter (scoreIs q) t.
Proof. intros H; cbn [filter]; unfold scoreIs at 1; rewrite (proj2 (Z.eqb_neq _ _) H); reflexivity. Qed.

(** A list sorted by non-increasing score is fixed by its moves of each score,
    taken in order. *)
Lemma sorted_filters_eq (l1 l2 : list OrderedMove) :
  Sorted scoreGe l1 -> Sorted scoreGe l2 ->
  (forall q, filter (scoreIs q) l1 = filter (scoreIs q) l2) -> l1 = l2.
Proof.
  revert l2; induction l1 as [|x t1 IH]; intros l2 Hs1 Hs2 Hf.
  - destruct l2 as [|y t2]; [reflexivity|].
    specialize (Hf (oscore y)); rewrite filter_scoreIs_self in Hf; discriminate Hf.
  - destruct l2 as [|y t2].
    + specialize (Hf (oscore x)); rewrite filter_scoreIs_self in Hf; discriminate Hf.
    + assert (Hxy : oscore x = oscore y).
      { destruct (Z.lt_total (oscore x) (oscore y)) as [Hlt | [Heq | Hgt]]; [| exact Heq |].
        - specialize (Hf (oscore y)).
          rewrite filter_scoreIs_self, filter_scoreIs_other in Hf by lia.
          rewrite (filter_scoreIs_nil (oscore y) t1) in Hf; [discriminate Hf|].
          intros z Hz; pose proof (sorted_below_head x t1 Hs1 z Hz); lia.
        - specialize (Hf (oscore x)).
          rewrite filter_scoreIs_self, (filter_scoreIs_other _ y) in Hf by lia.
          rewrite (filter_scoreIs_nil (oscore x) t2) in Hf; [discriminate Hf|].
          intros z Hz; pose proof (sorted_below_head y t2 Hs2 z Hz); lia. }
      assert (Hhd := Hf (oscore x)).
      rewrite filter_scoreIs_self, Hxy, filter_scoreIs_self in Hhd.
      injection Hhd as <- _.
      f_equal; apply IH; [exact (proj1 (Sorted_inv Hs1)) | exact (proj1 (Sorted_inv Hs2)) |].
      intros q; specialize (Hf q); cbn [filter] in Hf.
      destruct (scoreIs q x); [injection Hf as Hf; exact Hf | exact Hf].
Qed.

(** X12: [getOrderedMoves] lists exactly the pairs of a piece of the player and a
    destination [getValidMoves] offers from its cell, each with its
    [quickEvaluateMove] score, in non-increasing order of score; moves of
    equal score keep the order the loops pushed them in (pieces in the order
    of [pieces], destinations in the order of [getValidMoves]), and this
    pins the list: any list sorted by non-increasing score whose moves of
    each score come in that order is the result of [getOrderedMoves]. *)
Theorem getOrderedMoves_spec (board : Board) (ps : list PieceWithId) (pl : PlayerType) :
  (forall m, In m (getOrderedMoves board ps pl) <->
     In (opiece m) ps /\ player (opiece m) = pl /\
     In (oto m) (getValidMoves board (piecePos (opiece m))) /\
     oscore m = quickEvaluateMove (piecePos (opiece m)) (oto m) pl) /\
  Sorted scoreGe (getOrderedMoves board ps pl) /\
  (forall q, filter (scoreIs q) (getOrderedMoves board ps pl) =
             filter (scoreIs q) (pushedMoves board ps pl)) /\
  (forall l, Sorted scoreGe l ->
     (forall q, filter (scoreIs q) l = filter (scoreIs q) (pushedMoves board ps pl)) ->
     l = getOrderedMoves board ps pl).
Proof.
  split; [apply in_getOrderedMoves|]; split; [apply sortByScore_sorted|].
  assert (Hf : forall q, filter (scoreIs q) (getOrderedMoves board ps pl) =
                         filter (scoreIs q) (pushedMoves board ps pl))
    by (intros q; rewrite getOrderedMoves_pushed; apply filter_sortByScore).
  split; [exact Hf|].
  intros l Hs Hl; apply sorted_filters_eq; [exact Hs | apply sortByScore_sorted |].
  intros q; rewrite Hl, Hf; reflexivity.
Qed.

Lemma length_getOrderedMoves (board : Board) (ps : list PieceWithId) (pl : PlayerType) :
  List.length (getOrderedMoves board ps pl) =
  fold_right Nat.add O (map (fun p => List.length (getValidMoves board (piecePos p))) (piecesOf ps pl)).
Proof.
  unfold getOrderedMoves; rewrite length_sortByScore.
  induction (piecesOf ps pl) as [|p t IH]; [reflexivity|].
  cbn [flat_map map fold_right]; rewrite length_app, length_map, IH; reflexivity.
Qed.

(** X13: the mobility term is twice the number of moves [getOrderedMoves] lists. *)
Theorem evaluateMobility_getOrderedMoves (board : Board) (ps : list PieceWithId) (pl : PlayerType) :
  evaluateMobility board ps pl = Z.of_nat (List.length (getOrderedMoves board ps pl)) * 2.
Proof.
  unfold evaluateMobility; cbv zeta.
  rewrite (fold_left_sum (fun p => Z.of_nat (List.length (getValidMoves board (piecePos p))))).
  rewrite length_getOrderedMoves; f_equal.
  induction (piecesOf ps pl) as [|p t IH]; [reflexivity|].
  cbn [map fold_right]; rewrite Nat2Z.inj_add; lia.
Qed.

Lemma evaluateMobility_getOrderedMoves_witness :
  evaluateMobility (boardOf [mkPiece "A-1" A 0 0; mkPiece "B-1" B 3 3])
    [mkPiece "A-1" A 0 0; mkPiece "B-1" B 3 3] A =
  Z.of_nat (List.length (getOrderedMoves (boardOf [mkPiece "A-1" A 0 0; mkPiece "B-1" B 3 3])
    [mkPiece "A-1" A 0 0; mkPiece "B-1" B 3 3] A)) * 2 /\
  evaluateMobility (boardOf [mkPiece "A-1" A 0 0; mkPiece "B-1" B 3 3])
    [mkPiece "A-1" A 0 0; mkPiece "B-1" B 3 3] B =
  Z.of_nat (List.length (getOrderedMoves (boardOf [mkPiece "A-1" A 0 0; mkPiece "B-1" B 3 3])
    [mkPiece "A-1" A 0 0; mkPiece "B-1" B 3 3] B)) * 2 /\
  List.length (getOrderedMoves (boardOf [mkPiece "A-1" A 0 0; mkPiece "B-1" B 3 3])
    [mkPiece "A-1" A 0 0; mkPiece "B-1" B 3 3] A) = 2%nat /\
  List.length (getOrderedMoves (boardOf [mkPiece "A-1" A 0 0; mkPiece "B-1" B 3 3])
    [mkPiece "A-1" A 0 0; mkPiece "B-1" B 3 3] B) = 4%nat /\
  evaluateMobility (boardOf [mkPiece "A-1" A 0 0; mkPiece "B-1" B 3 3])
    [mkPiece "A-1" A 0 0; mkPiece "B-1" B 3 3] A = 4 /\
  evaluateMobility (boardOf [mkPiece "A-1" A 0 0; mkPiece "B-1" B 3 3])
    [mkPiece "A-1" A 0 0; mkPiece "B-1" B 3 3] B = 8.
Proof.
  split; [exact (evaluateMobility_getOrderedMoves _ _ A)|].
  split; [exact (evaluateMobility_getOrderedMoves _ _ B)|].
  split; [vm_compute; reflexivity|]; split; [vm_compute; reflexivity|].
  split; vm_compute; reflexivity.
Defined.

(** X14: [hasAnyValidMoves] holds exactly when [getOrderedMoves] lists a move. *)
Theorem hasAnyValidMoves_getOrderedMoves (board : Board) (ps : list PieceWithId) (pl : PlayerType) :
  hasAnyValidMoves board ps pl = true <-> getOrderedMoves board ps pl <> [].
Proof.
  split; [apply getOrderedMoves_nonempty|].
  intros Hne; destruct (getOrderedMoves board ps pl) as [|m t] eqn:E; [contradiction|].
  assert (Hm : In m (getOrderedMoves board ps pl)) by (rewrite E; left; reflexivity).
  apply in_getOrderedMoves in Hm; destruct Hm as (Hp & Hpl & Hmv & _).
  unfold hasAnyValidMoves; apply existsb_exists; exists (opiece m); split.
  - apply in_piecesOf; auto.
  - destruct (getValidMoves board (piecePos (opiece m))); [contradiction | reflexivity].
Qed.

Lemma tableOK_head (k : string) (v : TranspositionEntry) (m : TTable) :
  tableOK ((k, v) :: m) -> k <> EmptyString.
Proof. intros (_ & Hne & _); inversion Hne; assumption. Qed.

Lemma tableOK_ttSet (ps : list PieceWithId) (e : TranspositionEntry) (m : TTable) :
  tableOK m -> ps <> [] -> tableOK (ttSet ps e m).
Proof.
  intros Hok Hps; pose proof (getKey_nonempty ps Hps) as Hk.
  assert (Hm1 : exists m1, ttSet ps e m = mapSet (getKey ps) e m1 /\
                  NoDup (map fst m1) /\ Forall (fun kv => fst kv <> EmptyString) m1 /\
                  Z.of_nat (List.length m1) < maxSize).
  { destruct Hok as (Hnd & Hne & Hlen); unfold ttSet.
    destruct (Z.leb_spec maxSize (Z.of_nat (List.length m))) as [Hfull | Hroom].
    - destruct m as [|[k0 v0] m]; [cbn in Hfull; unfold maxSize in Hfull; lia|].
      assert (Hk0 : k0 <> EmptyString) by (inversion Hne; assumption).
      rewrite (proj2 (String.eqb_neq k0 "") Hk0), (mapDelete_head k0 v0 m Hnd).
      exists m; split; [reflexivity|].
      inversion Hnd; inversion Hne; subst; cbn [List.length] in Hlen; repeat split; auto; lia.
    - exists m; auto. }
  destruct Hm1 as (m1 & -> & Hnd & Hne & Hlen).
  destruct (mapSet_tableOK (getKey ps) e m1 Hnd Hne Hk) as (Hnd' & Hne' & Hl).
  repeat split; [exact Hnd' | exact Hne'|]; rewrite Hl.
  destruct (existsb _ m1); [lia | rewrite Nat2Z.inj_succ; lia].
Qed.

(** X16: on a well-formed table, a lookup right after [set] finds the entry just
    stored; any other key keeps its entry, except the oldest key, which is
    evicted when the table held [maxSize] entries. *)
Theorem ttGet_ttSet_law (ps : list PieceWithId) (e : TranspositionEntry) (m : TTable)
    (Hok : tableOK m) :
  ttGet ps (ttSet ps e m) = Some e /\
  forall ps', getKey ps' <> getKey ps ->
  ttGet ps' (ttSet ps e m) =
  match m with
  | (k0, _) :: _ => if (maxSize <=? Z.of_nat (List.length m)) && String.eqb k0 (getKey ps')
                    then None else ttGet ps' m
  | [] => ttGet ps' m
  end.
Proof.
  split; [apply ttGet_ttSet|]; intros ps' Hne; unfold ttGet, ttSet.
  rewrite mapGet_mapSet_other by exact Hne.
  destruct m as [|[k0 v0] m]; [reflexivity|].
  pose proof (tableOK_head k0 v0 m Hok) as Hk0.
  destruct (maxSize <=? Z.of_nat (List.length ((k0, v0) :: m))); cbn [andb]; [|reflexivity].
  rewrite (proj2 (String.eqb_neq k0 "") Hk0), mapGet_mapDelete.
  destruct (String.eqb_spec (getKey ps') k0) as [-> | Hne'].
  - rewrite String.eqb_refl; reflexivity.
  - rewrite (proj2 (String.eqb_neq k0 (getKey ps')) (fun H => Hne' (eq_sym H))); reflexivity.
Qed.

(** X15: [TranspositionTable.set] on a non-empty piece list keeps the table well
    formed: distinct keys, none empty, at most [maxSize] entries. *)
Theorem ttSet_tableOK (ps : list PieceWithId) (e : TranspositionEntry) (m : TTable) :
  tableOK m -> ps <> [] -> tableOK (ttSet ps e m).
Proof. exact (tableOK_ttSet ps e m). Qed.

Lemma ttSet_tableOK_witness :
  tableOK [] /\ [mkPiece "A-1" A 0 0] <> [] /\
  tableOK (ttSet [mkPiece "A-1" A 0 0] (mkEntry 1 0 Exact None) []).
Proof.
  assert (Hm : tableOK []) by (split; [constructor | split; [constructor | cbn; unfold maxSize; lia]]).
  assert (Hp : [mkPiece "A-1" A 0 0] <> []) by discriminate.
  split; [exact Hm | split; [exact Hp | exact (ttSet_tableOK _ (mkEntry 1 0 Exact None) _ Hm Hp)]].
Defined.

Lemma ttGet_ttSet_law_witness :
  let e := mkEntry 1 0 Exact None in
  let m := [(getKey [mkPiece "B-1" B 0 1], e)] in
  tableOK m /\
  ttGet [mkPiece "A-1" A 0 0] (ttSet [mkPiece "A-1" A 0 0] e m) = Some e /\
  forall ps', getKey ps' <> getKey [mkPiece "A-1" A 0 0] ->
  ttGet ps' (ttSet [mkPiece "A-1" A 0 0] e m) =
  match m with
  | (k0, _) :: _ => if (maxSize <=? Z.of_nat (List.length m)) && String.eqb k0 (getKey ps')
                    then None else ttGet ps' m
  | [] => ttGet ps' m
  end.
Proof.
  intros e m.
  assert (Hm : tableOK m).
  { split; [constructor; [intros [] | constructor]|].
    split; [constructor; [vm_compute; discriminate | constructor] | cbn; unfold maxSize; lia]. }
  split; [exact Hm | exact (ttGet_ttSet_law [mkPiece "A-1" A 0 0] e m Hm)].
Defined.

Lemma keeps_refl (s : AIState) : keeps s s.
Proof. split; [reflexivity | split; [reflexivity | intros H; exact H]]. Qed.

Lemma keeps_trans (s1 s2 s3 : AIState) : keeps s1 s2 -> keeps s2 s3 -> keeps s1 s3.
Proof.
  intros (H1 & H2 & H3) (H4 & H5 & H6); split; [congruence | split; [congruence | auto]].
Qed.

Lemma negamax_unfold_gen (timeUp : nat -> bool) depth board pieces alpha beta pl corner s :
  exists s1 (up : bool), keeps s s1 /\ transpositionTable s1 = transpositionTable s /\
  negamax timeUp depth board pieces alpha beta pl corner s =
  (if up then ret 0%Q else
   ttEntry <- gets (fun s => ttGet pieces (transpositionTable s)) ;;
   match ttProbe ttEntry depth alpha beta with
   | inl score => ret score
   | inr (alpha1, beta1) =>
       if hasPlayerWon pieces pl corner then ret (inject_Z (WIN_SCORE + Z.of_nat depth))
       else if hasPlayerWon pieces (opponentOf pl) corner
       then ret (inject_Z (- WIN_SCORE - Z.of_nat depth))
       else
         match depth with
         | O => ret (evaluatePosition board pieces pl)
         | S d =>
             if negb (hasAnyValidMoves board pieces pl) then ret 0%Q else
             let moves := getOrderedMoves board pieces pl in
             res <- negamaxLoop (fun b p a bt pl' => negamax timeUp d b p a bt pl' corner)
                      pieces pl moves (inject_Z (- INFINITY)) None alpha1 beta1 ;;
             let '(bestScore, bestMove, alpha2) := res in
             _ <- modify (fun s => setTable
                    (ttSet pieces (mkEntry depth bestScore (boundFlag bestScore alpha2 beta1) bestMove)
                       (transpositionTable s)) s) ;;
             ret bestScore
         end
   end) s1.
Proof.
  destruct ((nodesSearched s + 1) mod 1000 =? 0) eqn:E.
  - exists (mkAIState (config s) (transpositionTable s) (nodesSearched s + 1) (S (clockChecks s))
              (bestMoveFound s)), (timeUp (clockChecks s)).
    split; [split; [reflexivity | split; [reflexivity | intros H; exact H]] | split; [reflexivity|]].
    destruct depth; cbn [negamax]; unfold bind at 1 2 3; cbn [modify gets incNodes nodesSearched];
      rewrite E; reflexivity.
  - exists (incNodes s), false.
    split; [split; [reflexivity | split; [reflexivity | intros H; exact H]] | split; [reflexivity|]].
    destruct depth; cbn [negamax]; unfold bind at 1 2 3; cbn [modify gets incNodes nodesSearched];
      rewrite E; reflexivity.
Qed.

Lemma movesOK_getOrderedMoves (board : Board) (pieces : list PieceWithId) (pl : PlayerType) :
  movesOK board pieces pl (getOrderedMoves board pieces pl).
Proof. intros m Hm; apply in_getOrderedMoves in Hm; tauto. Qed.

Lemma movesOK_tail (board : Board) (pieces : list PieceWithId) (pl : PlayerType) m moves :
  movesOK board pieces pl (m :: moves) -> movesOK board pieces pl moves.
Proof. intros H m' Hm'; apply H; right; exact Hm'. Qed.

Lemma posOK_applyMove (board : Board) (pieces : list PieceWithId) (p : PieceWithId) (t : Position) :
  posOK board pieces -> In p pieces -> In t (getValidMoves board (piecePos p)) ->
  exists b', createBoardFromPieces (applyMove pieces (id p) t) = Ok b' /\
    posOK b' (applyMove pieces (id p) t).
Proof.
  intros (Hb & Hid & Hne) Hp Ht.
  destruct (applyMove_board pieces board p t Hb Hid Hp (getValidMoves_empty _ _ _ Ht))
    as (b' & Hb' & _).
  exists b'; split; [exact Hb'|]; split; [exact Hb'|]; split.
  - rewrite map_id_applyMove; exact Hid.
  - unfold applyMove; destruct pieces; [contradiction | discriminate].
Qed.

Lemma keeps_setTable (pieces : list PieceWithId) (e : TranspositionEntry) (s : AIState) :
  pieces <> [] -> keeps s (setTable (ttSet pieces e (transpositionTable s)) s).
Proof.
  intros Hne; split; [reflexivity | split; [reflexivity|]].
  intros H; exact (tableOK_ttSet pieces e _ H Hne).
Qed.

Lemma negamaxLoop_total (rec : Board -> list PieceWithId -> Q -> Q -> PlayerType -> M Q)
    (board : Board) (pieces : list PieceWithId) (pl : PlayerType)
    (Hrec : forall b ps a bt pl' s, posOK b ps ->
       exists v s', rec b ps a bt pl' s = (Ok v, s') /\ keeps s s')
    (Hpos : posOK board pieces) :
  forall moves, movesOK board pieces pl moves ->
  forall bs bm alpha beta s, exists r s',
    negamaxLoop rec pieces pl moves bs bm alpha beta s = (Ok r, s') /\ keeps s s'.
Proof.
  induction moves as [|m moves IH]; intros Hm bs bm alpha beta s.
  - exists (bs, bm, alpha), s; split; [reflexivity | apply keeps_refl].
  - destruct (Hm m (or_introl eq_refl)) as (Hp & _ & Ht).
    destruct (posOK_applyMove board pieces (opiece m) (oto m) Hpos Hp Ht) as (b' & Hb' & Hpos').
    cbn [negamaxLoop]; unfold bind at 1, liftResult at 1; rewrite Hb'.
    unfold bind at 1.
    destruct (Hrec b' _ (Qopp beta) (Qopp alpha) (opponentOf pl) s Hpos') as (v & s1 & Hv & Hk1).
    rewrite Hv.
    destruct (if Qlt_bool bs (Qopp v) then _ else _) as [bs' bm'].
    destruct (Qle_bool beta (jsMax alpha bs')).
    + exists (bs', bm', jsMax alpha bs'), s1; split; [reflexivity | exact Hk1].
    + destruct (IH (movesOK_tail _ _ _ _ _ Hm) bs' bm' (jsMax alpha bs') beta s1)
        as (r & s2 & Hr & Hk2).
      exists r, s2; split; [exact Hr | exact (keeps_trans _ _ _ Hk1 Hk2)].
Qed.

Lemma negamax_total (timeUp : nat -> bool) (depth : nat) : forall board pieces alpha beta pl corner s,
  posOK board pieces ->
  exists v s', negamax timeUp depth board pieces alpha beta pl corner s = (Ok v, s') /\ keeps s s'.
Proof.
  induction depth as [|d IH]; intros board pieces alpha beta pl corner s Hpos;
    [destruct (negamax_unfold_gen timeUp O board pieces alpha beta pl corner s)
      as (s1 & up & Hk1 & _ & ->)
    |destruct (negamax_unfold_gen timeUp (S d) board pieces alpha beta pl corner s)
      as (s1 & up & Hk1 & _ & ->)];
    (destruct up; [eexists; exists s1; split; [reflexivity | exact Hk1]|]);
    unfold bind at 1, gets at 1;
    destruct (ttProbe _ _ alpha beta) as [v | [a1 b1]];
    try (eexists; exists s1; split; [reflexivity | exact Hk1]);
    destruct (hasPlayerWon pieces pl corner);
    try (eexists; exists s1; split; [reflexivity | exact Hk1]);
    destruct (hasPlayerWon pieces (opponentOf pl) corner);
    try (eexists; exists s1; split; [reflexivity | exact Hk1]).
  destruct (negb (hasAnyValidMoves board pieces pl));
    [eexists; exists s1; split; [reflexivity | exact Hk1]|].
  cbv zeta; unfold bind at 1.
  destruct (negamaxLoop_total (fun b p a bt pl' => negamax timeUp d b p a bt pl' corner)
              board pieces pl (fun b ps a bt pl' s => IH b ps a bt pl' corner s) Hpos
              _ (movesOK_getOrderedMoves board pieces pl) (inject_Z (- INFINITY)) None a1 b1 s1)
    as ([[bs bm] a2] & s2 & Hr & Hk2).
  rewrite Hr; unfold bind at 1, modify at 1.
  eexists; eexists; split; [reflexivity|].
  apply (keeps_trans _ _ _ Hk1), (keeps_trans _ _ _ Hk2), keeps_setTable, Hpos.
Qed.

Lemma rootLoop_total (timeUp : nat -> bool) (depth : nat) (board : Board) (pieces : list PieceWithId)
    (pl : PlayerType) (corner : CornerShape) (Hpos : posOK board pieces) :
  forall moves, movesOK board pieces pl moves ->
  forall bs bm s, optLegal board pieces pl bm ->
  exists r s', rootLoop timeUp depth pieces pl corner moves bs bm s = (Ok r, s') /\ keeps s s' /\
    optLegal board pieces pl (snd r).
Proof.
  induction moves as [|m moves IH]; intros Hm bs bm s Hbm.
  - exists (bs, bm), s; split; [reflexivity | split; [apply keeps_refl | exact Hbm]].
  - destruct (Hm m (or_introl eq_refl)) as (Hp & Hpl & Ht).
    set (s1 := mkAIState (config s) (transpositionTable s) (nodesSearched s) (S (clockChecks s))
                 (bestMoveFound s)).
    assert (Hk1 : keeps s s1) by (split; [reflexivity | split; [reflexivity | intros H; exact H]]).
    cbn [rootLoop]; unfold bind at 1, isTimeUp at 1; fold s1.
    destruct (timeUp (clockChecks s)).
    + exists (bs, bm), s1; split; [reflexivity | split; [exact Hk1 | exact Hbm]].
    + destruct (posOK_applyMove board pieces (opiece m) (oto m) Hpos Hp Ht) as (b' & Hb' & Hpos').
      unfold bind at 1, liftResult at 1; rewrite Hb'; unfold bind at 1.
      destruct (negamax_total timeUp (depth - 1) b' _ (inject_Z (- INFINITY)) (inject_Z INFINITY)
                  (opponentOf pl) corner s1 Hpos') as (v & s2 & Hv & Hk2).
      rewrite Hv.
      assert (Hnew : forall bs' bm',
        (bs', bm') = (if Qlt_bool bs (Qopp v)
                      then (Qopp v, Some (mkAIMove (mkPos (prow (opiece m)) (pcol (opiece m)))
                                            (oto m) (Qopp v)))
                      else (bs, bm)) -> optLegal board pieces pl bm').
      { intros bs' bm' He; destruct (Qlt_bool bs (Qopp v)); injection He as -> ->; [|exact Hbm].
        intros mv Hmv; injection Hmv as <-; exists (opiece m); auto. }
      destruct (if Qlt_bool bs (Qopp v) then _ else _) as [bs' bm'] eqn:E.
      destruct (IH (movesOK_tail _ _ _ _ _ Hm) bs' bm' s2 (Hnew bs' bm' eq_refl))
        as (r & s3 & Hr & Hk3 & Hl).
      exists r, s3; split; [exact Hr | split; [exact (keeps_trans _ _ _ Hk1 (keeps_trans _ _ _ Hk2 Hk3)) | exact Hl]].
Qed.

Lemma deepenKeeps_keeps board pieces pl s1 s2 s3 :
  keeps s1 s2 -> deepenKeeps board pieces pl s2 s3 -> deepenKeeps board pieces pl s1 s3.
Proof.
  intros (H1 & H2 & H3) (H4 & H5 & H6); split; [congruence | split; [auto|]].
  rewrite H2 in *; exact H6.
Qed.

Lemma deepen_total (timeUp : nat -> bool) (board : Board) (pieces : list PieceWithId)
    (pl : PlayerType) (corner : CornerShape)
    (Hb : getBoardFromPieces pieces = Ok board) (Hid : NoDup (map id pieces)) :
  forall remaining depth s, exists ex s',
    deepen timeUp remaining depth board pieces pl corner s = (Ok ex, s') /\
    deepenKeeps board pieces pl s s'.
Proof.
  assert (Hrefl : forall s, deepenKeeps board pieces pl s s)
    by (intros s; split; [reflexivity | split; intros H; exact H]).
  induction remaining as [|r IH]; intros depth s.
  - exists LoopDone, s; split; [reflexivity | apply Hrefl].
  - set (s1 := mkAIState (config s) (transpositionTable s) (nodesSearched s) (S (clockChecks s))
                 (bestMoveFound s)).
    assert (Hk1 : keeps s s1) by (split; [reflexivity | split; [reflexivity | intros H; exact H]]).
    cbn [deepen]; unfold bind at 1, isTimeUp at 1; fold s1.
    destruct (timeUp (clockChecks s)).
    { exists LoopDone, s1; split; [reflexivity | exact (deepenKeeps_keeps _ _ _ _ _ _ Hk1 (Hrefl s1))]. }
    cbv zeta.
    pose proof (movesOK_getOrderedMoves board pieces pl) as Hm.
    destruct (getOrderedMoves board pieces pl) as [|m0 ms] eqn:Em.
    { exists ReturnNull, s1; split; [reflexivity | exact (deepenKeeps_keeps _ _ _ _ _ _ Hk1 (Hrefl s1))]. }
    assert (Hpos : posOK board pieces).
    { split; [exact Hb | split; [exact Hid|]].
      destruct (Hm m0 (or_introl eq_refl)) as (Hp & _); intros ->; exact Hp. }
    unfold bind at 1.
    destruct (rootLoop_total timeUp depth board pieces pl corner Hpos (m0 :: ms) Hm
                (inject_Z (- INFINITY)) None s1 (fun m H => ltac:(discriminate H)))
      as ([bs bm] & s2 & Hr & Hk2 & Hl).
    rewrite Hr; cbn [snd] in Hl.
    pose proof (keeps_trans _ _ _ Hk1 Hk2) as Hk12.
    destruct bm as [bm|].
    2: { destruct (IH (S depth) s2) as (ex & s3 & He & Hd3).
         exists ex, s3; split; [exact He | exact (deepenKeeps_keeps _ _ _ _ _ _ Hk12 Hd3)]. }
    set (s3 := mkAIState (config s2) (transpositionTable s2) (nodesSearched s2) (S (clockChecks s2))
                 (bestMoveFound s2)).
    assert (Hk3 : keeps s2 s3) by (split; [reflexivity | split; [reflexivity | intros H; exact H]]).
    pose proof (keeps_trans _ _ _ Hk12 Hk3) as Hk13.
    unfold bind at 1, isTimeUp at 1; fold s3.
    destruct (timeUp (clockChecks s2)).
    { destruct (IH (S depth) s3) as (ex & s4 & He & Hd4).
      exists ex, s4; split; [exact He | exact (deepenKeeps_keeps _ _ _ _ _ _ Hk13 Hd4)]. }
    unfold bind at 1, modify at 1.
    assert (Hd : deepenKeeps board pieces pl s (setBestMoveFound (Some bm) s3)).
    { destruct Hk13 as (Hc & _ & Ht); split; [exact Hc | split; [exact Ht|]].
      intros _; exact Hl. }
    destruct (Qle_bool (inject_Z WIN_SCORE) bs).
    + exists LoopDone, (setBestMoveFound (Some bm) s3); split; [reflexivity | exact Hd].
    + destruct (IH (S depth) (setBestMoveFound (Some bm) s3)) as (ex & s4 & He & (Hc4 & Ht4 & Hl4)).
      exists ex, s4; split; [exact He|].
      destruct Hd as (Hc & Ht & Hl'); split; [congruence | split; auto].
Qed.

Lemma findBestMove_total (timeUp : nat -> bool) (board : Board) (pieces : list PieceWithId)
    (pl : PlayerType) (corner : CornerShape) (s : AIState)
    (Hb : getBoardFromPieces pieces = Ok board) (Hid : NoDup (map id pieces)) :
  exists r s', findBestMove timeUp board pieces pl corner s = (Ok r, s') /\
    config s' = config s /\
    (tableOK (transpositionTable s) -> tableOK (transpositionTable s')) /\
    optLegal board pieces pl r.
Proof.
  unfold findBestMove, bind at 1, modify at 1; unfold bind at 1, gets at 1; cbn [config].
  unfold bind at 1.
  destruct (deepen_total timeUp board pieces pl corner Hb Hid (maxDepth (config s)) 1
              (mkAIState (config s) (transpositionTable s) 0 O None)) as (ex & s' & He & (Hc & Ht & Hl)).
  rewrite He; cbn [config transpositionTable bestMoveFound] in *.
  destruct ex.
  - exists (bestMoveFound s'), s'; split; [reflexivity | split; [exact Hc | split; [exact Ht|]]].
    apply Hl; intros m H; discriminate H.
  - exists None, s'; split; [reflexivity | split; [exact Hc | split; [exact Ht|]]].
    intros m H; discriminate H.
Qed.

Lemma getOrderedMoves_nil (board : Board) (pieces : list PieceWithId) (pl : PlayerType) :
  hasAnyValidMoves board pieces pl = false -> getOrderedMoves board pieces pl = [].
Proof.
  intros H; destruct (getOrderedMoves board pieces pl) as [|m t] eqn:E; [reflexivity|].
  assert (Hm : In m (getOrderedMoves board pieces pl)) by (rewrite E; left; reflexivity).
  apply in_getOrderedMoves in Hm; destruct Hm as (Hp & Hpl & Hmv & _).
  assert (Hx : hasAnyValidMoves board pieces pl = true).
  { unfold hasAnyValidMoves; apply existsb_exists; exists (opiece m); split.
    - apply in_piecesOf; auto.
    - destruct (getValidMoves board (piecePos (opiece m))); [contradiction | reflexivity]. }
  congruence.
Qed.

(** The search from the state [findBestMove] starts from, when the first
    clock check says the time is up, or when the root has no move. *)
Lemma findBestMove_null (timeUp : nat -> bool) (board : Board) (pieces : list PieceWithId)
    (pl : PlayerType) (corner : CornerShape) (s : AIState) :
  timeUp O = true \/ maxDepth (config s) = O \/ getOrderedMoves board pieces pl = [] ->
  exists s', findBestMove timeUp board pieces pl corner s = (Ok None, s') /\
    transpositionTable s' = transpositionTable s.
Proof.
  intros H; unfold findBestMove, bind at 1, modify at 1; unfold bind at 1, gets at 1; cbn [config].
  unfold bind at 1.
  destruct (maxDepth (config s)) as [|r] eqn:Ed.
  - cbn [deepen ret gets bestMoveFound]; eexists; split; reflexivity.
  - cbn [deepen]; unfold bind at 1, isTimeUp at 1; cbn [clockChecks].
    destruct (timeUp O) eqn:Et.
    + cbn [ret gets bestMoveFound]; eexists; split; reflexivity.
    + destruct H as [H | [H | H]]; [congruence | discriminate |].
      cbv zeta; rewrite H; cbn [ret]; eexists; split; reflexivity.
Qed.

(** X17: on a valid position (the board of the pieces, distinct ids),
    [findBestMove] never throws, keeps the configuration, and a move it
    returns moves one of the player's pieces to a destination
    [getValidMoves] offers from that piece's cell. *)
Theorem findBestMove_legal (timeUp : nat -> bool) (board : Board) (pieces : list PieceWithId)
    (pl : PlayerType) (corner : CornerShape) (s : AIState)
    (Hb : getBoardFromPieces pieces = Ok board) (Hid : NoDup (map id pieces)) :
  exists r s', findBestMove timeUp board pieces pl corner s = (Ok r, s') /\
    config s' = config s /\ (forall m, r = Some m -> legalMove board pieces pl m).
Proof.
  destruct (findBestMove_total timeUp board pieces pl corner s Hb Hid) as (r & s' & H & Hc & _ & Hl).
  exists r, s'; auto.
Qed.

Lemma findBestMove_legal_witness :
  getBoardFromPieces twoPieces = Ok (boardOf twoPieces) /\ NoDup (map id twoPieces) /\
  exists r s', findBestMove noTimeUp (boardOf twoPieces) twoPieces A (mkCorner 1 1)
                 (newAIPlayer easyConfig) = (Ok r, s') /\
    config s' = config (newAIPlayer easyConfig) /\
    (forall m, r = Some m -> legalMove (boardOf twoPieces) twoPieces A m).
Proof.
  assert (Hb : getBoardFromPieces twoPieces = Ok (boardOf twoPieces)) by (vm_compute; reflexivity).
  assert (Hid : NoDup (map id twoPieces)).
  { cbn; constructor; [intros [H | []]; discriminate H | constructor; [intros [] | constructor]]. }
  split; [exact Hb | split; [exact Hid|]].
  exact (findBestMove_legal noTimeUp _ _ A (mkCorner 1 1) _ Hb Hid).
Defined.

(** X18: on a valid position, [findBestMove] keeps the transposition table
    well formed: distinct non-empty keys, at most [maxSize] entries. *)
Theorem findBestMove_tableOK (timeUp : nat -> bool) (board : Board) (pieces : list PieceWithId)
    (pl : PlayerType) (corner : CornerShape) (s : AIState)
    (Hb : getBoardFromPieces pieces = Ok board) (Hid : NoDup (map id pieces))
    (Ht : tableOK (transpositionTable s)) :
  exists r s', findBestMove timeUp board pieces pl corner s = (Ok r, s') /\
    tableOK (transpositionTable s').
Proof.
  destruct (findBestMove_total timeUp board pieces pl corner s Hb Hid) as (r & s' & H & _ & Ht' & _).
  exists r, s'; auto.
Qed.

Lemma findBestMove_tableOK_witness :
  getBoardFromPieces twoPieces = Ok (boardOf twoPieces) /\ NoDup (map id twoPieces) /\
  tableOK (transpositionTable (newAIPlayer easyConfig)) /\
  exists r s', findBestMove noTimeUp (boardOf twoPieces) twoPieces A (mkCorner 1 1)
                 (newAIPlayer easyConfig) = (Ok r, s') /\ tableOK (transpositionTable s').
Proof.
  assert (Hb : getBoardFromPieces twoPieces = Ok (boardOf twoPieces)) by (vm_compute; reflexivity).
  assert (Hid : NoDup (map id twoPieces)).
  { cbn; constructor; [intros [H | []]; discriminate H | constructor; [intros [] | constructor]]. }
  assert (Ht : tableOK (transpositionTable (newAIPlayer easyConfig))).
  { split; [constructor | split; [constructor | cbn; unfold maxSize; lia]]. }
  split; [exact Hb | split; [exact Hid | split; [exact Ht|]]].
  exact (findBestMove_tableOK noTimeUp _ _ A (mkCorner 1 1) _ Hb Hid Ht).
Defined.

(** X19: when the player has no legal move, [findBestMove] returns [null]
    and leaves the transposition table as it was. *)
Theorem findBestMove_no_moves (timeUp : nat -> bool) (board : Board) (pieces : list PieceWithId)
    (pl : PlayerType) (corner : CornerShape) (s : AIState)
    (Hm : hasAnyValidMoves board pieces pl = false) :
  exists s', findBestMove timeUp board pieces pl corner s = (Ok None, s') /\
    transpositionTable s' = transpositionTable s.
Proof. apply findBestMove_null; right; right; apply getOrderedMoves_nil, Hm. Qed.

Lemma findBestMove_no_moves_witness :
  hasAnyValidMoves (boardOf blockedA) blockedA A = false /\
  exists s', findBestMove noTimeUp (boardOf blockedA) blockedA A (mkCorner 1 1)
               (newAIPlayer easyConfig) = (Ok None, s') /\
    transpositionTable s' = transpositionTable (newAIPlayer easyConfig).
Proof.
  assert (Hm : hasAnyValidMoves (boardOf blockedA) blockedA A = false) by (vm_compute; reflexivity).
  split; [exact Hm | exact (findBestMove_no_moves noTimeUp _ _ A (mkCorner 1 1) _ Hm)].
Defined.

(** X20: when the first clock check already finds the time limit reached, or
    the configured depth is 0, [findBestMove] returns [null] and leaves the
    transposition table as it was. *)
Theorem findBestMove_time_up (timeUp : nat -> bool) (board : Board) (pieces : list PieceWithId)
    (pl : PlayerType) (corner : CornerShape) (s : AIState)
    (H : timeUp O = true \/ maxDepth (config s) = O) :
  exists s', findBestMove timeUp board pieces pl corner s = (Ok None, s') /\
    transpositionTable s' = transpositionTable s.
Proof. apply findBestMove_null; tauto. Qed.

Lemma findBestMove_time_up_witness :
  ((fun _ : nat => true) O = true \/ maxDepth (config (newAIPlayer easyConfig)) = O) /\
  exists s', findBestMove (fun _ => true) (boardOf twoPieces) twoPieces A (mkCorner 1 1)
               (newAIPlayer easyConfig) = (Ok None, s') /\
    transpositionTable s' = transpositionTable (newAIPlayer easyConfig).
Proof.
  assert (H : (fun _ : nat => true) O = true \/ maxDepth (config (newAIPlayer easyConfig)) = O)
    by (left; reflexivity).
  split; [exact H | exact (findBestMove_time_up (fun _ => true) _ _ A (mkCorner 1 1) _ H)].
Defined.

(** [findBestMove] starts by resetting the node count, the clock and the best
    move found: its run depends on the state only through the configuration
    and the table. *)
Lemma findBestMove_reset (timeUp : nat -> bool) (board : Board) (pieces : list PieceWithId)
    (pl : PlayerType) (corner : CornerShape) (s : AIState) :
  findBestMove timeUp board pieces pl corner s =
  findBestMove timeUp board pieces pl corner (mkAIState (config s) (transpositionTable s) 0 O None).
Proof. reflexivity. Qed.

(** Claim C4, as it holds: [findBestMove] keeps the transposition table across
    calls and only [clearCache] empties it. On a valid position (the board of
    the pieces, distinct ids), two runs with the same configuration, whatever
    their tables hold, both succeed, keep the configuration, and each returns
    [null] or a legal move of the player; the runs return the same result
    when the tables are equal; and a run from an empty table, then
    [clearCache], then the same call again, returns the same result. *)
Theorem findBestMove_any_table (timeUp : nat -> bool) (board : Board)
    (pieces : list PieceWithId) (pl : PlayerType) (corner : CornerShape) (s1 s2 : AIState)
    (Hb : getBoardFromPieces pieces = Ok board) (Hid : NoDup (map id pieces))
    (Hcfg : config s1 = config s2) :
  (exists r1 r2 t1 t2,
     findBestMove timeUp board pieces pl corner s1 = (Ok r1, t1) /\
     findBestMove timeUp board pieces pl corner s2 = (Ok r2, t2) /\
     config t1 = config s1 /\ config t2 = config s2 /\
     (forall m, r1 = Some m -> legalMove board pieces pl m) /\
     (forall m, r2 = Some m -> legalMove board pieces pl m)) /\
  (transpositionTable s1 = transpositionTable s2 ->
     findBestMove timeUp board pieces pl corner s1 = findBestMove timeUp board pieces pl corner s2) /\
  (transpositionTable s1 = [] ->
     fst (findBestMove timeUp board pieces pl corner
            (clearCache (snd (findBestMove timeUp board pieces pl corner s1)))) =
     fst (findBestMove timeUp board pieces pl corner s1)).
Proof.
  destruct (findBestMove_total timeUp board pieces pl corner s1 Hb Hid) as (r1 & t1 & H1 & Hc1 & _ & Hl1).
  destruct (findBestMove_total timeUp board pieces pl corner s2 Hb Hid) as (r2 & t2 & H2 & Hc2 & _ & Hl2).
  split; [exists r1, r2, t1, t2; repeat split; [exact H1 | exact H2 | exact Hc1 | exact Hc2 | exact Hl1 | exact Hl2]|].
  split.
  - intros Ht; rewrite (findBestMove_reset _ _ _ _ _ s1), (findBestMove_reset _ _ _ _ _ s2), Hcfg, Ht.
    reflexivity.
  - intros He; rewrite H1; cbn [fst snd].
    rewrite findBestMove_reset; unfold clearCache, setTable; cbn [config transpositionTable].
    rewrite Hc1, <- He, <- findBestMove_reset, H1; reflexivity.
Qed.

Lemma findBestMove_any_table_witness :
  getBoardFromPieces laterPieces = Ok (boardOf laterPieces) /\ NoDup (map id laterPieces) /\
  config (snd (findBestMove noTimeUp (boardOf earlierPieces) earlierPieces A (mkCorner 3 3)
                 (newAIPlayer mediumConfig))) = config (newAIPlayer mediumConfig) /\
  ((exists r1 r2 t1 t2,
     findBestMove noTimeUp (boardOf laterPieces) laterPieces A (mkCorner 3 3)
       (snd (findBestMove noTimeUp (boardOf earlierPieces) earlierPieces A (mkCorner 3 3)
               (newAIPlayer mediumConfig))) = (Ok r1, t1) /\
     findBestMove noTimeUp (boardOf laterPieces) laterPieces A (mkCorner 3 3)
       (newAIPlayer mediumConfig) = (Ok r2, t2) /\
     config t1 = config (snd (findBestMove noTimeUp (boardOf earlierPieces) earlierPieces A
                                (mkCorner 3 3) (newAIPlayer mediumConfig))) /\
     config t2 = config (newAIPlayer mediumConfig) /\
     (forall m, r1 = Some m -> legalMove (boardOf laterPieces) laterPieces A m) /\
     (forall m, r2 = Some m -> legalMove (boardOf laterPieces) laterPieces A m)) /\
   (transpositionTable (snd (findBestMove noTimeUp (boardOf earlierPieces) earlierPieces A
                               (mkCorner 3 3) (newAIPlayer mediumConfig))) =
    transpositionTable (newAIPlayer mediumConfig) ->
    findBestMove noTimeUp (boardOf laterPieces) laterPieces A (mkCorner 3 3)
      (snd (findBestMove noTimeUp (boardOf earlierPieces) earlierPieces A (mkCorner 3 3)
              (newAIPlayer mediumConfig))) =
    findBestMove noTimeUp (boardOf laterPieces) laterPieces A (mkCorner 3 3)
      (newAIPlayer mediumConfig)) /\
   (transpositionTable (snd (findBestMove noTimeUp (boardOf earlierPieces) earlierPieces A
                               (mkCorner 3 3) (newAIPlayer mediumConfig))) = [] ->
    fst (findBestMove noTimeUp (boardOf laterPieces) laterPieces A (mkCorner 3 3)
           (clearCache (snd (findBestMove noTimeUp (boardOf laterPieces) laterPieces A (mkCorner 3 3)
              (snd (findBestMove noTimeUp (boardOf earlierPieces) earlierPieces A (mkCorner 3 3)
                      (newAIPlayer mediumConfig))))))) =
    fst (findBestMove noTimeUp (boardOf laterPieces) laterPieces A (mkCorner 3 3)
           (snd (findBestMove noTimeUp (boardOf earlierPieces) earlierPieces A (mkCorner 3 3)
                   (newAIPlayer mediumConfig)))))).
Proof.
  assert (Hb : getBoardFromPieces laterPieces = Ok (boardOf laterPieces)) by (vm_compute; reflexivity).
  assert (Hid : NoDup (map id laterPieces))
    by (cbn; constructor; [intros [H | []]; discriminate H | constructor; [intros [] | constructor]]).
  assert (Hc : config (snd (findBestMove noTimeUp (boardOf earlierPieces) earlierPieces A (mkCorner 3 3)
                              (newAIPlayer mediumConfig))) = config (newAIPlayer mediumConfig))
    by (vm_compute; reflexivity).
  split; [exact Hb | split; [exact Hid | split; [exact Hc|]]].
  exact (findBestMove_any_table noTimeUp _ _ A (mkCorner 3 3) _ _ Hb Hid Hc).
Defined.

(** Claim C4, counterexample: medium level (depth 4), corner 3x3, a clock
    that never runs out. A player that has searched the position A on (4, 3),
    B on (3, 4) keeps that search's table; on the later position A on (3, 3),
    B on (4, 4) it plays (3, 3) -> (3, 4), while a fresh medium player, and the
    same player after [clearCache], play (3, 3) -> (4, 3). *)
Lemma findBestMove_depends_on_history :
  config (snd (findBestMove noTimeUp (boardOf earlierPieces) earlierPieces A (mkCorner 3 3)
                 (newAIPlayer mediumConfig))) = mediumConfig /\
  chosenTo (fst (findBestMove noTimeUp (boardOf laterPieces) laterPieces A (mkCorner 3 3)
    (snd (findBestMove noTimeUp (boardOf earlierPieces) earlierPieces A (mkCorner 3 3)
            (newAIPlayer mediumConfig))))) = Some (mkPos 3 4) /\
  chosenTo (fst (findBestMove noTimeUp (boardOf laterPieces) laterPieces A (mkCorner 3 3)
    (newAIPlayer mediumConfig))) = Some (mkPos 4 3) /\
  chosenTo (fst (findBestMove noTimeUp (boardOf laterPieces) laterPieces A (mkCorner 3 3)
    (clearCache (snd (findBestMove noTimeUp (boardOf earlierPieces) earlierPieces A (mkCorner 3 3)
                        (newAIPlayer mediumConfig)))))) = Some (mkPos 4 3).
Proof.
  split; [vm_compute; reflexivity|].
  split; [vm_compute; reflexivity|].
  split; vm_compute; reflexivity.
Qed.
